(** * QuickBooks Online read-only client: credential lifecycle and query engine

    A shallow embedding of [scripts/lib/auth.ts], [scripts/lib/qb-client.ts],
    [scripts/lib/output.ts] and the option handling of [scripts/quickbooks.ts],
    followed by the properties of the design document that concern them.

    Conventions of the embedding.
    - An [async] function is a computation [IO A]: a function from the state of
      the outside world to an outcome and a new world.  [await] is sequencing.
      An outcome is a value returned, an exception thrown, or, for the two
      [while (true)] loops, the end of the fuel that bounds their turns.
    - The outside world holds the credential file, the clock, the outcome of
      each HTTP request of the run (by its rank: the client is sequential and
      deterministic, so this covers any remote) and the log of requests sent.
    - The numbers that the client handles are integers; they are modelled in
      [Z], and [NaN] is added where [parseInt] can produce it.
    - A JSON document is represented by its view at the keys the client reads,
      each with the type the remote interface gives it; a key may be absent
      ([None], JavaScript's [undefined]), and a string may be empty.
    - A plain object that is used as a dictionary is the finite map of its own
      properties.  Reading a key that is not its own finds what
      [Object.prototype] has under that name, and assigning a string to
      [__proto__] leaves the object as it is.
    - A timestamp string is represented by what [Date] makes of it.
    - Strings are sequences of bytes; [toLowerCase] and the white space that
      [parseInt] skips are those of ASCII. *)

From Stdlib Require Import ZArith Lia Ascii String List.
From stdpp Require Import base option strings list gmap pretty.

Local Open Scope Z_scope.

(** ** JavaScript values *)

Definition nl : string := String "010"%char EmptyString.

(** Truthiness, as used by [if (x)], [!x] and [x || y]. *)
Class Truthy (A : Type) := truthy : A -> bool.

#[export] Instance truthy_string : Truthy string :=
  fun s => match s with EmptyString => false | String _ _ => true end.

#[export] Instance truthy_Z : Truthy Z :=
  fun z => negb (z =? 0).

#[export] Instance truthy_option {A} `{Truthy A} : Truthy (option A) :=
  fun o => match o with Some a => truthy a | None => false end.

(** [x || d] where [x] may be undefined and [d] is a plain value. *)
Definition js_or {A} `{Truthy A} (x : option A) (d : A) : A :=
  match x with
  | Some a => if truthy a then a else d
  | None => d
  end.

(** [x || y] where both may be undefined. *)
Definition js_or_opt {A} `{Truthy A} (x y : option A) : option A :=
  if truthy x then x else y.

(** A string property interpolated in a template literal. *)
Definition String_of (o : option string) : string :=
  match o with Some s => s | None => "undefined" end.

(** A number: an integer or [NaN]. *)
Inductive JsNumber := Num (z : Z) | NaN.

Definition Number_toString (n : JsNumber) : string :=
  match n with Num z => pretty z | NaN => "NaN" end.

(** [n < m] for an array length [n]; every comparison with [NaN] is false. *)
Definition length_lt {A} (l : list A) (m : JsNumber) : bool :=
  match m with
  | Num z => Z.of_nat (length l) <? z
  | NaN => false
  end.

(** [String.prototype.includes]. *)
Fixpoint includes (needle hay : string) : bool :=
  String.prefix needle hay ||
  match hay with
  | EmptyString => false
  | String _ rest => includes needle rest
  end.

(** [Array.prototype.includes] on an array of strings. *)
Definition Array_includes (l : list string) (x : string) : bool :=
  existsb (String.eqb x) l.

(** [Array.prototype.join]. *)
Definition join (sep : string) (l : list string) : string := String.concat sep l.

(** *** Plain objects used as dictionaries *)

(** The names that every plain object inherits from [Object.prototype]. *)
Definition Object_prototype_names : list string :=
  ["constructor"; "__defineGetter__"; "__defineSetter__"; "hasOwnProperty";
   "__lookupGetter__"; "__lookupSetter__"; "isPrototypeOf"; "propertyIsEnumerable";
   "toString"; "valueOf"; "__proto__"; "toLocaleString"].

(** [o[key] = value] for a string [value] on a plain object: the object gets
    the property as its own, or has it changed.  The one exception is
    [__proto__]: it is an inherited accessor whose setter ignores a value that
    is neither an object nor [null], so the assignment does nothing. *)
Definition Object_set (key value : string) (o : gmap string string)
    : gmap string string :=
  if String.eqb key "__proto__" then o else <[key := value]> o.

(** What [o[key]] finds: a property of the object's own, or the member that
    the object inherits under this name. *)
Inductive Member (A : Type) :=
| Own (a : A)
| Inherited (name : string).
Arguments Own {A} a.
Arguments Inherited {A} name.

(** [o[key]] on a plain object; [None] is [undefined]. *)
Definition Object_get {A} (o : gmap string A) (key : string) : option (Member A) :=
  match o !! key with
  | Some a => Some (Own a)
  | None =>
      if Array_includes Object_prototype_names key then Some (Inherited key)
      else None
  end.

Definition toLowerCase_char (c : ascii) : ascii :=
  let n := nat_of_ascii c in
  if ((65 <=? n) && (n <=? 90))%nat then ascii_of_nat (n + 32) else c.

Fixpoint toLowerCase (s : string) : string :=
  match s with
  | EmptyString => EmptyString
  | String c rest => String (toLowerCase_char c) (toLowerCase rest)
  end.

(** *** parseInt(s, 10) *)

Definition is_whitespace (c : ascii) : bool :=
  let n := nat_of_ascii c in
  ((n =? 32) || ((9 <=? n) && (n <=? 13)))%nat.

Definition digit_of (c : ascii) : option Z :=
  let n := nat_of_ascii c in
  if ((48 <=? n) && (n <=? 57))%nat then Some (Z.of_nat (n - 48)) else None.

Fixpoint skip_whitespace (s : string) : string :=
  match s with
  | String c rest => if is_whitespace c then skip_whitespace rest else s
  | EmptyString => s
  end.

(** The digits at the front of [s], accumulated onto [acc]; [None] when [s]
    does not start with a digit and nothing was accumulated yet. *)
Fixpoint parse_digits (acc : option Z) (s : string) : option Z :=
  match s with
  | String c rest =>
      match digit_of c with
      | Some d => parse_digits (Some (10 * default 0 acc + d)) rest
      | None => acc
      end
  | EmptyString => acc
  end.

Definition parseInt (s : string) : JsNumber :=
  let s := skip_whitespace s in
  let '(sign, s) :=
    match s with
    | String "-"%char rest => (-1, rest)
    | String "+"%char rest => (1, rest)
    | _ => (1, s)
    end in
  match parse_digits None s with
  | Some n => Num (sign * n)
  | None => NaN
  end.

(** *** Dates *)

(** A timestamp string, by what [new Date(s)] makes of it: a string that
    denotes an instant (milliseconds since the epoch; [toISOString] renders
    an instant to millisecond precision, so nothing is lost), or any other
    string, which [Date] reads as an invalid date. *)
Inductive DateString :=
| IsoDate (ms : Z)
| NotADate (raw : string).

#[export] Instance truthy_DateString : Truthy DateString :=
  fun d => match d with IsoDate _ => true | NotADate raw => truthy raw end.

(** The range of time values of a [Date]. *)
Definition MAX_TIME : Z := 8640000000000000.

Definition valid_time (t : Z) : bool := (- MAX_TIME <=? t) && (t <=? MAX_TIME).

(** [new Date(s).getTime()]; [None] is [NaN]. *)
Definition Date_getTime (s : DateString) : option Z :=
  match s with
  | IsoDate ms => if valid_time ms then Some ms else None
  | NotADate _ => None
  end.

(** ** Errors, outcomes and the outside world *)

Record Exn := { code : option string; message : string }.

(** [new Error(msg)] *)
Definition Error (msg : string) : Exn := {| code := None; message := msg |}.

Inductive Authorization :=
| Basic (userpass : string)   (* before its base64 encoding *)
| Bearer (token : string).

Inductive Body :=
| NoBody
| FormBody (params : list (string * string))   (* URLSearchParams *)
| TextBody (text : string).

Record Request := {
  url : string;
  method : string;
  authorization : Authorization;
  accept : string;
  content_type : option string;
  body : Body;
}.

(** A record of a query result. The client reads two of its keys. *)
Record Doc := {
  Id : option string;
  FullyQualifiedName : option string;
  other_fields : string;
}.

Record CompanyInfo := {
  CompanyName : string;
  LegalName : option string;
}.

(** The JSON document of a response body ([await response.json()]), at the
    keys the client reads. *)
Record Json := {
  data_access_token : option string;
  data_refresh_token : option string;
  data_expires_in : option Z;
  data_QueryResponse : option (gmap string (list Doc));
  data_CompanyInfo : option CompanyInfo;
  data_entity : gmap string Doc;           (* the document's own keys that hold a record *)
  data_stringified : string;               (* JSON.stringify(data) *)
}.

Record Response := {
  status : Z;
  statusText : string;
  text : string;               (* await response.text() *)
  json : option Json;          (* None: the body is not JSON *)
  json_error : Exn;            (* what response.json() throws then *)
}.

(** [response.ok] *)
Definition ok (r : Response) : bool := (200 <=? status r) && (status r <=? 299).

Inductive FetchOutcome :=
| NetworkError (e : Exn)
| Responds (r : Response).

(** The credential record. The interface [QBCredentials] declares four fields
    as required, but the record is whatever object [JSON.parse] found in the
    file: [loadCredentials] is what checks them. *)
Record QBCredentials := {
  client_id : option string;
  client_secret : option string;
  realm_id : option string;
  access_token : option string;
  refresh_token : option string;
  token_expiry : option DateString;
}.

Inductive FileState :=
| ReadError (e : Exn)              (* readFile or JSON.parse throws [e] *)
| FileData (data : QBCredentials).

Record World := {
  cwd : string;
  file : FileState;                 (* the credential file *)
  write_error : option Exn;         (* the error of mkdir or writeFile, if any *)
  clock : nat -> Z;                 (* what the n-th reading of the clock gives *)
  ticks : nat;                      (* readings of the clock so far *)
  net : nat -> FetchOutcome;        (* how the n-th request of the run ends *)
  sent : list Request;              (* requests issued so far, oldest first *)
}.

(** The three ways the client changes the world. *)
Definition advance_clock (w : World) : World :=
  {| cwd := cwd w; file := file w; write_error := write_error w;
     clock := clock w; ticks := S (ticks w); net := net w; sent := sent w |}.

Definition record_request (req : Request) (w : World) : World :=
  {| cwd := cwd w; file := file w; write_error := write_error w;
     clock := clock w; ticks := ticks w; net := net w; sent := sent w ++ [req] |}.

Definition write_file (credentials : QBCredentials) (w : World) : World :=
  {| cwd := cwd w; file := FileData credentials; write_error := write_error w;
     clock := clock w; ticks := ticks w; net := net w; sent := sent w |}.

Inductive Outcome (A : Type) :=
| Return (a : A)
| Throw (e : Exn)
| OutOfFuel.
Arguments Return {A} a.
Arguments Throw {A} e.
Arguments OutOfFuel {A}.

Definition IO (A : Type) : Type := World -> Outcome A * World.

Definition ret {A} (a : A) : IO A := fun w => (Return a, w).

Definition throw {A} (e : Exn) : IO A := fun w => (Throw e, w).

Definition bind {A B} (m : IO A) (k : A -> IO B) : IO B :=
  fun w =>
    match m w with
    | (Return a, w') => k a w'
    | (Throw e, w') => (Throw e, w')
    | (OutOfFuel, w') => (OutOfFuel, w')
    end.

Notation "'let*' x ':=' m 'in' k" := (bind m (fun x => k))
  (at level 10, x pattern, m at level 100, k at level 200).

(** [try { body } catch (err) { handler }] *)
Definition try_catch {A} (body : IO A) (handler : Exn -> IO A) : IO A :=
  fun w =>
    match body w with
    | (Throw e, w') => handler e w'
    | r => r
    end.

(** [Date.now()], [new Date().getTime()] *)
Definition Date_now : IO Z :=
  fun w => (Return (clock w (ticks w)), advance_clock w).

(** [new Date(t).toISOString()] *)
Definition toISOString (t : Z) : IO DateString :=
  if valid_time t then ret (IsoDate t)
  else throw {| code := None; message := "Invalid time value" |}.

(** [await fetch(url, init)] *)
Definition fetch (req : Request) : IO Response :=
  fun w =>
    match net w (length (sent w)) with
    | NetworkError e => (Throw e, record_request req w)
    | Responds r => (Return r, record_request req w)
    end.

(** [await response.json()] *)
Definition response_json (r : Response) : IO Json :=
  match json r with
  | Some data => ret data
  | None => throw (json_error r)
  end.

(** ** scripts/lib/auth.ts *)

Definition TOKEN_URL : string :=
  "https://oauth.platform.intuit.com/oauth2/v1/tokens/bearer".

Definition PROJECT_TOKEN_DIR : string := ".claude".
Definition PROJECT_TOKEN_FILE : string := "quickbooks-skill.local.json".

(** [path.join(process.cwd(), PROJECT_TOKEN_DIR, PROJECT_TOKEN_FILE)], for a
    working directory that [path.join] has nothing to normalise in. *)
Definition getProjectTokenPath (w : World) : string :=
  cwd w +:+ "/" +:+ PROJECT_TOKEN_DIR +:+ "/" +:+ PROJECT_TOKEN_FILE.

Definition is_ENOENT (e : Exn) : bool :=
  match code e with
  | Some c => String.eqb c "ENOENT"
  | None => false
  end.

Definition loadCredentials : IO QBCredentials :=
  fun w =>
    let tokenPath := getProjectTokenPath w in
    try_catch
      (fun w =>
         match file w with
         | ReadError e => (Throw e, w)
         | FileData data =>
             if negb (truthy (client_id data)) || negb (truthy (client_secret data))
                || negb (truthy (realm_id data)) || negb (truthy (refresh_token data))
             then
               throw (Error ("Missing required fields in credentials file." +:+ nl +:+
                             "Required: client_id, client_secret, realm_id, refresh_token" +:+ nl +:+
                             "File: " +:+ tokenPath)) w
             else ret data w
         end)
      (fun err =>
         if is_ENOENT err then
           throw (Error ("Credentials file not found at: " +:+ tokenPath +:+ nl +:+ nl +:+
                         "Run: npx tsx scripts/quickbooks.ts setup" +:+ nl +:+ nl +:+
                         "For setup instructions."))
         else throw err)
      w.

Definition saveCredentials (credentials : QBCredentials) : IO unit :=
  fun w =>
    match write_error w with
    | Some e => (Throw e, w)
    | None => (Return tt, write_file credentials w)
    end.

Definition token_request (credentials : QBCredentials) : Request :=
  let auth := String_of (client_id credentials) +:+ ":" +:+
              String_of (client_secret credentials) in
  {| url := TOKEN_URL;
     method := "POST";
     authorization := Basic auth;
     accept := "application/json";
     content_type := Some "application/x-www-form-urlencoded";
     body := FormBody [("grant_type", "refresh_token");
                       ("refresh_token", String_of (refresh_token credentials))] |}.

Definition refreshAccessToken : IO QBCredentials :=
  let* credentials := loadCredentials in
  let* response := fetch (token_request credentials) in
  if negb (ok response) then
    let errorText := text response in
    throw (Error ("Token refresh failed: " +:+ pretty (status response) +:+ " " +:+
                  statusText response +:+ nl +:+ errorText))
  else
    let* data := response_json response in
    if negb (truthy (data_access_token data)) then
      throw (Error ("Token refresh response missing access_token: " +:+
                    data_stringified data))
    else
      let* now := Date_now in
      let* expiryDate := toISOString (now + js_or (data_expires_in data) 3600 * 1000) in
      let updatedCredentials :=
        {| client_id := client_id credentials;
           client_secret := client_secret credentials;
           realm_id := realm_id credentials;
           access_token := data_access_token data;
           refresh_token := js_or_opt (data_refresh_token data) (refresh_token credentials);
           token_expiry := Some expiryDate |} in
      let* _ := saveCredentials updatedCredentials in
      ret updatedCredentials.

Record TokenInfo := { accessToken : option string; realmId : option string }.

(** [expiry.getTime() - now.getTime() > 5 * 60 * 1000]; false when the expiry
    is an invalid date. *)
Definition expires_later_than_5_minutes (expiry : option Z) (now : Z) : bool :=
  match expiry with
  | Some e => 5 * 60 * 1000 <? e - now
  | None => false
  end.

(** The test that guards the early [return] of [getValidAccessToken]: there
    is an access token and an expiry, and the expiry is far enough away. *)
Definition cached_token_usable (credentials : QBCredentials) : IO bool :=
  if truthy (access_token credentials) && truthy (token_expiry credentials) then
    let expiry := token_expiry credentials ≫= Date_getTime in
    let* now := Date_now in
    ret (expires_later_than_5_minutes expiry now)
  else ret false.

Definition getValidAccessToken : IO TokenInfo :=
  let* credentials := loadCredentials in
  let* cached := cached_token_usable credentials in
  if cached then
    ret {| accessToken := access_token credentials; realmId := realm_id credentials |}
  else
    let* credentials := refreshAccessToken in
    if negb (truthy (access_token credentials)) then
      throw (Error "Failed to get access token after refresh")
    else
      ret {| accessToken := access_token credentials; realmId := realm_id credentials |}.

(** ** scripts/lib/qb-client.ts *)

Definition MINOR_VERSION : Z := 75.
Definition MAX_RESULTS_PER_PAGE : Z := 1000.

Record QueryOptions := {
  start : option string;
  end_ : option string;
  queryBy : option string;
  where_ : option string;
  maxResults : option JsNumber;
}.

Definition getApiUrl (realmId : string) : string :=
  "https://quickbooks.api.intuit.com/v3/company/" +:+ realmId +:+
  "/query?minorversion=" +:+ pretty MINOR_VERSION.

Definition getEntityUrl (realmId entity id : string) : string :=
  "https://quickbooks.api.intuit.com/v3/company/" +:+ realmId +:+ "/" +:+
  toLowerCase entity +:+ "/" +:+ id +:+ "?minorversion=" +:+ pretty MINOR_VERSION.

Definition getCompanyInfoUrl (realmId : string) : string :=
  "https://quickbooks.api.intuit.com/v3/company/" +:+ realmId +:+
  "/companyinfo/" +:+ realmId +:+ "?minorversion=" +:+ pretty MINOR_VERSION.

Definition formatDateForQuery (date : string) (isEnd : bool) : string :=
  if includes "T" date then "'" +:+ date +:+ "'"
  else
    let time := if isEnd then "23:59:59Z" else "00:00:00Z" in
    "'" +:+ date +:+ "T" +:+ time +:+ "'".

(** The [conditions] array of [query], once its three [push]es are done. *)
Definition conditions (options : QueryOptions) : list string :=
  let queryBy := default "MetaData.LastUpdatedTime" (queryBy options) in
  (if truthy (start options)
   then [queryBy +:+ " >= " +:+ formatDateForQuery (String_of (start options)) false]
   else []) ++
  (if truthy (end_ options)
   then [queryBy +:+ " <= " +:+ formatDateForQuery (String_of (end_ options)) true]
   else []) ++
  (if truthy (where_ options) then [String_of (where_ options)] else []).

Definition whereClause (options : QueryOptions) : string :=
  let conditions := conditions options in
  if (0 <? length conditions)%nat then "WHERE " +:+ join " AND " conditions
  else EmptyString.

Definition transactionEntities : list string :=
  ["Invoice"; "Bill"; "Purchase"; "Deposit"; "Payment";
   "TimeActivity"; "Estimate"; "SalesReceipt"; "CreditMemo"; "JournalEntry"].

Definition orderBy (entity : string) : string :=
  if Array_includes transactionEntities entity
  then "ORDER BY TxnDate DESC, Id DESC"
  else "ORDER BY Id DESC".

Definition query_sql (entity : string) (options : QueryOptions)
    (startPosition : Z) (maxResults : JsNumber) : string :=
  "SELECT * FROM " +:+ entity +:+ " " +:+ whereClause options +:+ " " +:+
  orderBy entity +:+ " STARTPOSITION " +:+ pretty startPosition +:+
  " MAXRESULTS " +:+ Number_toString maxResults.

(** The POST of a statement to the query endpoint. *)
Definition sql_request (apiUrl : string) (accessToken : option string)
    (sql : string) : Request :=
  {| url := apiUrl;
     method := "POST";
     authorization := Bearer (String_of accessToken);
     accept := "application/json";
     content_type := Some "application/text";
     body := TextBody sql |}.

(** A GET with bearer authentication. *)
Definition get_request (url : string) (accessToken : option string) : Request :=
  {| url := url;
     method := "GET";
     authorization := Bearer (String_of accessToken);
     accept := "application/json";
     content_type := None;
     body := NoBody |}.

Definition api_error (prefix : string) (response : Response) : Exn :=
  let errorText := text response in
  Error (prefix +:+ pretty (status response) +:+ " " +:+ statusText response +:+
         nl +:+ errorText).

(** [data.QueryResponse?.[entity] || []] *)
Definition query_results (data : Json) (entity : string) : list Doc :=
  match data_QueryResponse data with
  | Some response => default [] (response !! entity)
  | None => []
  end.

(** The [while (true)] loop of [query]; [fuel] bounds its iterations. *)
Fixpoint query_loop (fuel : nat) (apiUrl : string) (accessToken : option string)
    (entity : string) (options : QueryOptions) (maxResults : JsNumber)
    (allResults : list Doc) (startPosition : Z) : IO (list Doc) :=
  match fuel with
  | O => fun w => (OutOfFuel, w)
  | S fuel =>
      let sql := query_sql entity options startPosition maxResults in
      let* response := fetch (sql_request apiUrl accessToken sql) in
      if negb (ok response) then throw (api_error "QuickBooks API error: " response)
      else
        let* data := response_json response in
        let results := query_results data entity in
        let allResults := allResults ++ results in
        if length_lt results maxResults then ret allResults
        else
          query_loop fuel apiUrl accessToken entity options maxResults allResults
            (startPosition + Z.of_nat (length results))
  end.

Definition query (fuel : nat) (entity : string) (options : QueryOptions) : IO (list Doc) :=
  let* token := getValidAccessToken in
  let apiUrl := getApiUrl (String_of (realmId token)) in
  let maxResults := default (Num MAX_RESULTS_PER_PAGE) (maxResults options) in
  query_loop fuel apiUrl (accessToken token) entity options maxResults [] 1.

Definition getById (entity id : string) : IO (option (Member Doc)) :=
  let* token := getValidAccessToken in
  let url := getEntityUrl (String_of (realmId token)) entity id in
  let* response := fetch (get_request url (accessToken token)) in
  if negb (ok response) then throw (api_error "QuickBooks API error: " response)
  else
    let* data := response_json response in
    ret (Object_get (data_entity data) entity).

Inductive RefEntity := Account | Customer | Vendor.

Definition RefEntity_name (e : RefEntity) : string :=
  match e with
  | Account => "Account"
  | Customer => "Customer"
  | Vendor => "Vendor"
  end.

Definition refs_sql (entityType : RefEntity) (startPosition : Z) : string :=
  "SELECT Id, FullyQualifiedName FROM " +:+ RefEntity_name entityType +:+
  " STARTPOSITION " +:+ pretty startPosition +:+
  " MAXRESULTS " +:+ pretty MAX_RESULTS_PER_PAGE.

(** One turn of [for (const ref of refs)]: [refMap[ref.Id] =
    ref.FullyQualifiedName] when the record has both an [Id] and a
    [FullyQualifiedName].  The map is a plain object used as a dictionary;
    its own properties are the entries. *)
Definition add_ref (refMap : gmap string string) (ref : Doc) : gmap string string :=
  if truthy (Id ref) && truthy (FullyQualifiedName ref)
  then Object_set (String_of (Id ref)) (String_of (FullyQualifiedName ref)) refMap
  else refMap.

(** The [while (true)] loop of [getReferenceMaps]. *)
Fixpoint refs_loop (fuel : nat) (apiUrl : string) (accessToken : option string)
    (entityType : RefEntity) (refMap : gmap string string) (startPosition : Z)
    : IO (gmap string string) :=
  match fuel with
  | O => fun w => (OutOfFuel, w)
  | S fuel =>
      let sql := refs_sql entityType startPosition in
      let* response := fetch (sql_request apiUrl accessToken sql) in
      if negb (ok response) then throw (api_error "QuickBooks API error: " response)
      else
        let* data := response_json response in
        let refs := query_results data (RefEntity_name entityType) in
        if (length refs =? 0)%nat then ret refMap
        else
          let refMap := fold_left add_ref refs refMap in
          if Z.of_nat (length refs) <? MAX_RESULTS_PER_PAGE then ret refMap
          else
            refs_loop fuel apiUrl accessToken entityType refMap
              (startPosition + Z.of_nat (length refs))
  end.

Definition getReferenceMaps (fuel : nat) (entityType : RefEntity)
    : IO (gmap string string) :=
  let* token := getValidAccessToken in
  let apiUrl := getApiUrl (String_of (realmId token)) in
  refs_loop fuel apiUrl (accessToken token) entityType ∅ 1.

Record ConnectionStatus := {
  connected : bool;
  companyInfo : option CompanyInfo;
  status_realmId : option string;
  error : option string;
}.

Definition checkConnection : IO ConnectionStatus :=
  try_catch
    (let* token := getValidAccessToken in
     let url := getCompanyInfoUrl (String_of (realmId token)) in
     let* response := fetch (get_request url (accessToken token)) in
     if negb (ok response) then
       let errorText := text response in
       ret {| connected := false;
              companyInfo := None;
              status_realmId := None;
              error := Some ("API error: " +:+ pretty (status response) +:+ " " +:+
                             statusText response +:+ nl +:+ errorText) |}
     else
       let* data := response_json response in
       let companyInfo := data_CompanyInfo data in
       ret {| connected := true;
              companyInfo := companyInfo;
              status_realmId := realmId token;
              error := None |})
    (fun err =>
       ret {| connected := false;
              companyInfo := None;
              status_realmId := None;
              error := Some (message err) |}).

(** ** scripts/quickbooks.ts: the options of an entity query *)

(** The [options] object that [handleEntityQuery] builds from the flags. *)
Definition options_of_flags (flags : gmap string string) : QueryOptions :=
  {| start := if truthy (flags !! "start") then flags !! "start" else None;
     end_ := if truthy (flags !! "end") then flags !! "end" else None;
     queryBy := if truthy (flags !! "query-by") then flags !! "query-by" else None;
     where_ := if truthy (flags !! "where") then flags !! "where" else None;
     maxResults := if truthy (flags !! "max")
                   then Some (parseInt (String_of (flags !! "max")))
                   else None |}.

Record QueryOutput := {
  success : bool;
  data_entity_name : string;
  data_count : nat;
  data_results : list Doc;
}.

(** [handleEntityQuery]; its result is the envelope handed to [output]. *)
Definition handleEntityQuery (fuel : nat) (entity : string)
    (flags : gmap string string) : IO QueryOutput :=
  let options := options_of_flags flags in
  let* results := query fuel entity options in
  ret {| success := true;
         data_entity_name := entity;
         data_count := length results;
         data_results := results |}.

(** ** scripts/lib/output.ts *)

(** [String.prototype.startsWith] *)
Definition startsWith (prefix s : string) : bool := String.prefix prefix s.

(** [String.prototype.endsWith] *)
Fixpoint endsWith (suffix s : string) : bool :=
  String.eqb s suffix ||
  match s with
  | EmptyString => false
  | String _ rest => endsWith suffix rest
  end.

(** [s.slice(n)] for a count [n] of leading characters. *)
Fixpoint String_slice (n : nat) (s : string) : string :=
  match n, s with
  | O, _ => s
  | S n, String _ rest => String_slice n rest
  | S _, EmptyString => EmptyString
  end.

(** [s.split(sep)] for a separator of one character: the pieces between the
    separators, at least one. *)
Fixpoint String_split (sep : ascii) (s : string) : list string :=
  match s with
  | EmptyString => [EmptyString]
  | String c rest =>
      if Ascii.eqb c sep then EmptyString :: String_split sep rest
      else
        match String_split sep rest with
        | piece :: pieces => String c piece :: pieces
        | [] => [String c EmptyString]
        end
  end.

Record ParsedArgs := {
  flags : gmap string string;
  positional : list string;
}.

(** One turn of the [for] loop of [parseArgs]. *)
Definition parseArgs_step (parsed : ParsedArgs) (arg : string) : ParsedArgs :=
  if startsWith "--" arg then
    let parts := String_split "="%char (String_slice 2 arg) in
    let key := String_of (head parts) in
    let valueParts := tail parts in
    {| flags := Object_set key (js_or (Some (join "=" valueParts)) "true") (flags parsed);
       positional := positional parsed |}
  else
    {| flags := flags parsed; positional := positional parsed ++ [arg] |}.

Definition parseArgs (args : list string) : ParsedArgs :=
  fold_left parseArgs_step args {| flags := ∅; positional := [] |}.

(** What the tool writes on its standard output: the usage text, the setup
    instructions, or the JSON envelope of a command, by the shape of its
    [data], or of a failure. *)
Inductive Printed :=
| UsageText
| SetupInstructions
| CheckOutput (realmId : option string) (info : option CompanyInfo) (tokenPath : string)
| RefreshOutput (tokenExpiry : option DateString) (tokenPath : string)
| QueryResults (envelope : QueryOutput)
| RecordOutput (entity id : string) (result : option (Member Doc))
| RefsOutput (entity : string) (count : nat) (map : gmap string string)
| FailureEnvelope (error : string).

(** [success] of what was printed, for the envelopes. *)
Definition Printed_success (x : Printed) : option bool :=
  match x with
  | UsageText | SetupInstructions => None
  | FailureEnvelope _ => Some false
  | _ => Some true
  end.

(** ** scripts/lib/auth.ts: the ignore file *)

Inductive TextFile :=
| TextError (e : Exn)                (* readFile throws [e] *)
| TextContent (content : string).

(** The part of the project directory that [ensureGitignore] works on, and
    the standard error stream. *)
Record Repo := {
  gitignore : TextFile;
  gitignore_write_error : option Exn;   (* the error of writeFile, if any *)
  stderr : list string;
}.

Definition gitignore_pattern : string := ".claude/*.local.*".

Definition gitignore_comment : string :=
  "# QuickBooks skill tokens (per-project auth)".

(** [await fs.writeFile(gitignorePath, content); console.error(note)] *)
Definition write_gitignore (content note : string) (r : Repo) : Outcome unit * Repo :=
  match gitignore_write_error r with
  | Some e => (Throw e, r)
  | None =>
      (Return tt,
       {| gitignore := TextContent content;
          gitignore_write_error := gitignore_write_error r;
          stderr := stderr r ++ [note] |})
  end.

Definition ensureGitignore (r : Repo) : Outcome unit * Repo :=
  let pattern := gitignore_pattern in
  let attempt :=
    match gitignore r with
    | TextError e => (Throw e, r)
    | TextContent content =>
        if includes pattern content then (Return tt, r)
        else
          let newContent :=
            if endsWith nl content
            then content +:+ nl +:+ gitignore_comment +:+ nl +:+ pattern +:+ nl
            else content +:+ nl +:+ nl +:+ gitignore_comment +:+ nl +:+ pattern +:+ nl in
          write_gitignore newContent ("Added " +:+ pattern +:+ " to .gitignore") r
    end in
  match attempt with
  | (Throw err, r') =>
      if is_ENOENT err then
        write_gitignore (gitignore_comment +:+ nl +:+ pattern +:+ nl)
          ("Created .gitignore with " +:+ pattern) r'
      else (Throw err, r')
  | done => done
  end.

(** ** scripts/quickbooks.ts: the command dispatcher *)

Definition ENTITY_COMMANDS : list (string * string) :=
  [("customers", "Customer"); ("vendors", "Vendor"); ("employees", "Employee");
   ("accounts", "Account"); ("items", "Item"); ("invoices", "Invoice");
   ("bills", "Bill"); ("purchases", "Purchase"); ("deposits", "Deposit");
   ("payments", "Payment"); ("timeactivities", "TimeActivity");
   ("estimates", "Estimate"); ("salesreceipts", "SalesReceipt");
   ("creditmemos", "CreditMemo"); ("journalentries", "JournalEntry")].

(** [table[key]] for an object literal. *)
Fixpoint property (table : list (string * string)) (key : string) : option string :=
  match table with
  | [] => None
  | (k, v) :: table => if String.eqb k key then Some v else property table key
  end.

(** The [case] labels of the entity queries in [main]. *)
Definition entity_cases : list string :=
  ["customers"; "vendors"; "employees"; "accounts"; "items"; "invoices"; "bills";
   "purchases"; "deposits"; "payments"; "timeactivities"; "estimates";
   "salesreceipts"; "creditmemos"; "journalentries"].

(** The entity types that [refs] accepts, as [getReferenceMaps] types them. *)
Definition RefEntity_of_name (name : string) : option RefEntity :=
  if String.eqb name "Account" then Some Account
  else if String.eqb name "Customer" then Some Customer
  else if String.eqb name "Vendor" then Some Vendor
  else None.

(** How a run of the tool ends: [main] returns (exit status 0), the process
    exits with a status, or the pagination is still going when the fuel is
    used up. *)
Inductive Termination :=
| Ends
| Exits (status : Z)
| StillRunning.

Record Process := {
  world : World;
  repo : Repo;
  stdout : list Printed;
}.

Definition with_world (w : World) (p : Process) : Process :=
  {| world := w; repo := repo p; stdout := stdout p |}.

Definition with_repo (r : Repo) (p : Process) : Process :=
  {| world := world p; repo := r; stdout := stdout p |}.

(** [output(result)] *)
Definition output (x : Printed) (p : Process) : Process :=
  {| world := world p; repo := repo p; stdout := stdout p ++ [x] |}.

(** [fail(error)]: the failure envelope, then [process.exit(1)]. *)
Definition fail (error : string) (p : Process) : Termination * Process :=
  (Exits 1, output (FailureEnvelope error) p).

(** A command of [main] that awaits [m] inside the [try] and goes on with
    [next]; an error that [m] throws lands in the [catch] of [main]. *)
Definition await {A} (m : IO A) (next : A -> Process -> Termination * Process)
    (p : Process) : Termination * Process :=
  match m (world p) with
  | (Return a, w) => next a (with_world w p)
  | (Throw err, w) => fail (message err) (with_world w p)
  | (OutOfFuel, w) => (StillRunning, with_world w p)
  end.

Definition main (fuel : nat) (args : list string) (p : Process)
    : Termination * Process :=
  let command := toLowerCase <$> head args in
  let parsed := parseArgs (tail args) in
  let flags := flags parsed in
  let positional := positional parsed in
  if negb (truthy command) || String.eqb (String_of command) "help"
     || String.eqb (String_of command) "--help"
  then (Exits 0, output UsageText p)
  else
    let command := String_of command in
    if String.eqb command "setup" then (Ends, output SetupInstructions p)
    else if String.eqb command "check" then
      await checkConnection
        (fun result p =>
           if connected result then
             (Ends, output (CheckOutput (status_realmId result) (companyInfo result)
                              (getProjectTokenPath (world p))) p)
           else fail (js_or (error result) "Failed to connect to QuickBooks") p)
        p
    else if String.eqb command "refresh" then
      match ensureGitignore (repo p) with
      | (Return _, r) =>
          await refreshAccessToken
            (fun credentials p =>
               (Ends, output (RefreshOutput (token_expiry credentials)
                                (getProjectTokenPath (world p))) p))
            (with_repo r p)
      | (Throw err, r) => fail (message err) (with_repo r p)
      | (OutOfFuel, r) => (StillRunning, with_repo r p)
      end
    else if Array_includes entity_cases command then
      let entity := String_of (property ENTITY_COMMANDS command) in
      await (handleEntityQuery fuel entity flags)
        (fun envelope p => (Ends, output (QueryResults envelope) p))
        p
    else if String.eqb command "get" then
      let entity := positional !! 0%nat in
      let id := positional !! 1%nat in
      if negb (truthy entity) || negb (truthy id) then
        fail ("Usage: get <Entity> <ID>" +:+ nl +:+ "Example: get Customer 123") p
      else
        await (getById (String_of entity) (String_of id))
          (fun result p =>
             (Ends, output (RecordOutput (String_of entity) (String_of id) result) p))
          p
    else if String.eqb command "refs" then
      let entityType := positional !! 0%nat in
      match (if truthy entityType then RefEntity_of_name (String_of entityType)
             else None) with
      | None =>
          fail ("Usage: refs <Entity>" +:+ nl +:+ "Supported: Account, Customer, Vendor") p
      | Some entity =>
          await (getReferenceMaps fuel entity)
            (fun refMap p =>
               (Ends, output (RefsOutput (RefEntity_name entity) (size refMap) refMap) p))
            p
      end
    else
      fail ("Unknown command: " +:+ command +:+ nl +:+ "Run with --help for usage.") p.

(** ** Notions used to state the properties *)

(** The four fields that [loadCredentials] requires. *)
Definition required_present (c : QBCredentials) : bool :=
  truthy (client_id c) && truthy (client_secret c) &&
  truthy (realm_id c) && truthy (refresh_token c).

(** The instant that the record's [token_expiry] denotes, if it denotes one. *)
Definition expiry_of (c : QBCredentials) : option Z :=
  token_expiry c ≫= Date_getTime.

(** The record that a successful refresh builds from the stored record, the
    token endpoint's document and the time read from the clock. *)
Definition refreshed (c : QBCredentials) (data : Json) (now : Z) : QBCredentials :=
  {| client_id := client_id c;
     client_secret := client_secret c;
     realm_id := realm_id c;
     access_token := data_access_token data;
     refresh_token := js_or_opt (data_refresh_token data) (refresh_token c);
     token_expiry := Some (IsoDate (now + js_or (data_expires_in data) 3600 * 1000)) |}.

(** What [getValidAccessToken] hands to its caller from a record. *)
Definition token_of (c : QBCredentials) : TokenInfo :=
  {| accessToken := access_token c; realmId := realm_id c |}.

(** The lifetime that the design document gives a refreshed token: the
    server-reported number of seconds, and 3600 when the server reports none. *)
Definition reported_lifetime (data : Json) : Z :=
  match data_expires_in data with
  | Some seconds => seconds
  | None => 3600
  end.

(** The same, with a reported lifetime of zero counted as none. *)
Definition effective_lifetime (data : Json) : Z :=
  match data_expires_in data with
  | Some seconds => if seconds =? 0 then 3600 else seconds
  | None => 3600
  end.

(** The invariant of the credential record: the four required fields are
    there, and the access token and its expiry come together. *)
Definition both_or_neither (c : QBCredentials) : Prop :=
  is_Some (access_token c) <-> is_Some (token_expiry c).

Definition well_formed (c : QBCredentials) : Prop :=
  required_present c = true /\ both_or_neither c.

(** The world after the requests [reqs] have been sent, in this order. *)
Definition record_requests (reqs : list Request) (w : World) : World :=
  {| cwd := cwd w; file := file w; write_error := write_error w;
     clock := clock w; ticks := ticks w; net := net w; sent := sent w ++ reqs |}.

(** The page that the [k]-th request from now will bring: the records for
    [entity] in its answer, when that answer is a success with a JSON body. *)
Definition page_at (w : World) (entity : string) (k : nat) : option (list Doc) :=
  match net w (length (sent w) + k) with
  | Responds response =>
      if ok response then (fun data => query_results data entity) <$> json response
      else None
  | NetworkError _ => None
  end.

(** The requests by which [query] fetches the pages [pages] one after the
    other, the first of them at [startPosition]. *)
Fixpoint query_requests (apiUrl : string) (accessToken : option string)
    (entity : string) (options : QueryOptions) (maxResults : JsNumber)
    (startPosition : Z) (pages : list (list Doc)) : list Request :=
  match pages with
  | [] => []
  | page :: pages =>
      sql_request apiUrl accessToken
        (query_sql entity options startPosition maxResults) ::
      query_requests apiUrl accessToken entity options maxResults
        (startPosition + Z.of_nat (length page)) pages
  end.

(** The same for [getReferenceMaps]. *)
Fixpoint refs_requests (apiUrl : string) (accessToken : option string)
    (entityType : RefEntity) (startPosition : Z) (pages : list (list Doc))
    : list Request :=
  match pages with
  | [] => []
  | page :: pages =>
      sql_request apiUrl accessToken (refs_sql entityType startPosition) ::
      refs_requests apiUrl accessToken entityType
        (startPosition + Z.of_nat (length page)) pages
  end.

(** A record that has both an ID and a display name. *)
Definition complete (ref : Doc) : bool :=
  truthy (Id ref) && truthy (FullyQualifiedName ref).

(** ** Sample data *)

Definition sample_credentials : QBCredentials :=
  {| client_id := Some "ABclient";
     client_secret := Some "s3cret";
     realm_id := Some "4620816365";
     access_token := Some "cached-token";
     refresh_token := Some "refresh-1";
     token_expiry := Some (IsoDate 1700003600000) |}.

(** A world whose clock reads [now] throughout the run, and whose remote
    answers the requests of the run with [script] and fails every later one. *)
Definition sample_world (f : FileState) (now : Z) (script : list FetchOutcome) : World :=
  {| cwd := "/home/books";
     file := f;
     write_error := None;
     clock := fun _ => now;
     ticks := 0;
     net := fun n => nth n script (NetworkError (Error "fetch failed"));
     sent := [] |}.

Definition token_json (token : option string) (rotated : option string)
    (lifetime : option Z) : Json :=
  {| data_access_token := token;
     data_refresh_token := rotated;
     data_expires_in := lifetime;
     data_QueryResponse := None;
     data_CompanyInfo := None;
     data_entity := ∅;
     data_stringified := "{...}" |}.

Definition ok_response (data : Json) : FetchOutcome :=
  Responds {| status := 200; statusText := "OK"; text := data_stringified data;
              json := Some data; json_error := Error "Unexpected end of JSON input" |}.

Definition error_response (status : Z) (statusText text : string) : FetchOutcome :=
  Responds {| status := status; statusText := statusText; text := text; json := None;
              json_error := Error "Unexpected token in JSON" |}.

(** A world that holds [sample_credentials], read at an instant when the
    stored token is of no use any more, and whose token endpoint answers
    with [data]. *)
Definition refresh_world (data : Json) : World :=
  sample_world (FileData sample_credentials) 1700003500000 [ok_response data].

Definition sample_doc : Doc :=
  {| Id := Some "7"; FullyQualifiedName := Some "Acme Ltd"; other_fields := "{}" |}.

Definition page_json (entity : string) (records : list Doc) : Json :=
  {| data_access_token := None;
     data_refresh_token := None;
     data_expires_in := None;
     data_QueryResponse := Some {[ entity := records ]};
     data_CompanyInfo := None;
     data_entity := ∅;
     data_stringified := "{...}" |}.

(** A world with a token that is still good, whose remote serves pages of
    the given sizes for [entity]. *)
Definition paged_world (entity : string) (sizes : list nat) : World :=
  sample_world (FileData sample_credentials) 1700000000000
    (map (fun n => ok_response (page_json entity (repeat sample_doc n))) sizes).

Definition default_options : QueryOptions :=
  {| start := None; end_ := None; queryBy := None; where_ := None;
     maxResults := None |}.

Definition options_max_1000 : QueryOptions :=
  {| start := None; end_ := None; queryBy := None; where_ := None;
     maxResults := Some (Num 1000) |}.

(** January 2024, with a condition on the balance. *)
Definition january_options : QueryOptions :=
  {| start := Some "2024-01-01"; end_ := Some "2024-01-31"; queryBy := None;
     where_ := Some "Balance > '0'"; maxResults := None |}.

(** The message of the error that a remote call raises on an answer that is
    not a success: a prefix that names the call, then the status code, the
    status text and, on a line of its own, the body as received. *)
Definition failure_message (prefix : string) (response : Response) : string :=
  prefix +:+ pretty (status response) +:+ " " +:+ statusText response +:+ nl +:+
  text response.

(** A world with a good token whose remote rejects the first request. *)
Definition rejecting_world : World :=
  sample_world (FileData sample_credentials) 1700000000000
    [error_response 401 "Unauthorized" "AuthenticationFailed"].

(** A world whose stored token is stale and whose token endpoint rejects the
    refresh. *)
Definition expired_grant_world : World :=
  sample_world (FileData sample_credentials) 1700003500000
    [error_response 400 "Bad Request" "invalid_grant"].

(** The result of [checkConnection] that reports the failure [description]. *)
Definition not_connected (description : string) : ConnectionStatus :=
  {| connected := false; companyInfo := None; status_realmId := None;
     error := Some description |}.

Definition company_json (info : CompanyInfo) : Json :=
  {| data_access_token := None;
     data_refresh_token := None;
     data_expires_in := None;
     data_QueryResponse := None;
     data_CompanyInfo := Some info;
     data_entity := ∅;
     data_stringified := "{...}" |}.

(** A world with a good token whose remote answers a reference query for
    customers with one page of [records]. *)
Definition customers_world (records : list Doc) : World :=
  sample_world (FileData sample_credentials) 1700000000000
    [ok_response (page_json "Customer" records)].

(** A record with a display name whose ID is [__proto__]. *)
Definition proto_ref : Doc :=
  {| Id := Some "__proto__"; FullyQualifiedName := Some "Shadow Ltd";
     other_fields := "{}" |}.

Definition proto_refs : list Doc :=
  [ proto_ref;
    {| Id := Some "1"; FullyQualifiedName := Some "Acme Ltd"; other_fields := "{}" |} ].

Definition sample_refs : list Doc :=
  [ {| Id := Some "1"; FullyQualifiedName := Some "Acme Ltd"; other_fields := "{}" |};
    {| Id := Some "2"; FullyQualifiedName := None; other_fields := "{}" |};
    {| Id := None; FullyQualifiedName := Some "Nameless"; other_fields := "{}" |};
    {| Id := Some "4"; FullyQualifiedName := Some "Acme Ltd:Depot"; other_fields := "{}" |} ].

(** The options that [--max=0] gives. *)
Definition flags_max_0 : gmap string string := {[ "max" := "0" ]}.

(** A world with a good token whose remote answers the profile request with
    the company information [info]. *)
Definition company_world (info : CompanyInfo) : World :=
  sample_world (FileData sample_credentials) 1700000000000
    [ok_response (company_json info)].

(** A world without a credential file. *)
Definition fresh_checkout_world : World :=
  sample_world (ReadError {| code := Some "ENOENT"; message := "no such file" |})
    1700000000000 [].

(** A request of a paginated call: a POST to the query endpoint that carries
    the bearer token [token]. *)
Definition paginated_request (endpoint : string) (token : option string)
    (req : Request) : Prop :=
  url req = endpoint /\ method req = "POST" /\
  authorization req = Bearer (String_of token) /\
  exists sql, body req = TextBody sql.

Definition record_json (entity : string) (record : Doc) : Json :=
  {| data_access_token := None;
     data_refresh_token := None;
     data_expires_in := None;
     data_QueryResponse := None;
     data_CompanyInfo := None;
     data_entity := {[ entity := record ]};
     data_stringified := "{...}" |}.

(** A world with a good token whose remote answers a lookup with the record
    [record] under the key [entity]. *)
Definition record_world (entity : string) (record : Doc) : World :=
  sample_world (FileData sample_credentials) 1700000000000
    [ok_response (record_json entity record)].

(** A project directory whose ignore file holds [content] and can be
    written. *)
Definition sample_repo (content : string) : Repo :=
  {| gitignore := TextContent content; gitignore_write_error := None; stderr := [] |}.

(** A project directory whose ignore file cannot be written. *)
Definition readonly_repo (content : string) : Repo :=
  {| gitignore := TextContent content;
     gitignore_write_error := Some {| code := Some "EACCES"; message := "permission denied" |};
     stderr := [] |}.

(** What a run that has ended must have printed for its exit status: a
    success envelope (or the setup instructions) when [main] returns, a
    failure envelope for status 1, the usage text for status 0. *)
Definition verdict (t : Termination) (x : Printed) : Prop :=
  match t with
  | Ends => Printed_success x = Some true \/ x = SetupInstructions
  | Exits status =>
      (status = 1 /\ exists error, x = FailureEnvelope error) \/
      (status = 0 /\ x = UsageText)
  | StillRunning => False
  end.

(** A run that started with [before] on its standard output is still going,
    or has added exactly one thing to it, the one its exit status calls for. *)
Definition one_result (before : list Printed) (r : Termination * Process) : Prop :=
  r.1 = StillRunning \/
  exists x, stdout r.2 = before ++ [x] /\ verdict r.1 x.

Definition sample_process (w : World) (r : Repo) : Process :=
  {| world := w; repo := r; stdout := [] |}.

(** A world with a good token whose remote serves one full page of invoices
    and rejects the request for the next. *)
Definition failing_second_page_world : World :=
  sample_world (FileData sample_credentials) 1700000000000
    [ok_response (page_json "Invoice" (repeat sample_doc 1000));
     error_response 401 "Unauthorized" "AuthenticationFailed"].

(** * Properties *)

(** ** Date formatting and ordering *)

Lemma append_cons (x : ascii) (a b : string) :
  String x a +:+ b = String x (a +:+ b).
Proof. reflexivity. Qed.

Lemma append_assoc (a b c : string) : (a +:+ b) +:+ c = a +:+ b +:+ c.
Proof.
  induction a as [|x a IH]; [reflexivity |].
  rewrite !append_cons. by rewrite IH.
Qed.

Lemma includes_T_append (date rest : string) :
  includes "T" (date +:+ String "T" rest) = true.
Proof.
  induction date as [|c date IH].
  - destruct rest; reflexivity.
  - rewrite append_cons. simpl. rewrite IH. apply orb_true_r.
Qed.

Lemma Array_includes_In (l : list string) (x : string) :
  Array_includes l x = true <-> In x l.
Proof.
  unfold Array_includes. rewrite existsb_exists. split.
  - intros (y & Hy & Heq). apply String.eqb_eq in Heq. by subst.
  - intros Hx. exists x. split; [done | apply String.eqb_refl].
Qed.

(** C3, as stated, fails.  An input with a time component does not pass
    through unchanged: it comes back in single quotes, so formatting what was
    formatted adds a second pair of quotes and is not idempotent.  And a time
    component is only seen when it is written with the letter [T]: a timestamp
    with a space between the date and the time is widened like a bare date. *)
Lemma formatDateForQuery_quotes_counterexample :
  formatDateForQuery "2024-01-01T08:30:00Z" false = "'2024-01-01T08:30:00Z'" /\
  formatDateForQuery "2024-01-01T08:30:00Z" false <> "2024-01-01T08:30:00Z" /\
  formatDateForQuery (formatDateForQuery "2024-01-01T08:30:00Z" false) false =
    "''2024-01-01T08:30:00Z''" /\
  formatDateForQuery (formatDateForQuery "2024-01-01T08:30:00Z" false) false <>
    formatDateForQuery "2024-01-01T08:30:00Z" false /\
  formatDateForQuery "2024-01-01 08:30:00" false = "'2024-01-01 08:30:00T00:00:00Z'" /\
  formatDateForQuery "2024-01-01 08:30:00" false <> "'2024-01-01 08:30:00'".
Proof. repeat split; (reflexivity || discriminate). Qed.

(** C3, amended. What [formatDateForQuery] produces is an SQL literal: a
    timestamp in single quotes.  For an input that contains the letter [T]
    the timestamp is the input as it is, whichever end it stands for.  For
    any other input, a bare date among them, the timestamp is the input
    followed by [T00:00:00Z] for a start and by [T23:59:59Z] for an end.
    Formatting is idempotent on the timestamp, not on the literal: the
    timestamp it yields contains a [T], so formatting that timestamp again
    gives the same literal. *)
Theorem formatDateForQuery_widens_bare_dates_only :
  (forall date : string,
      (includes "T" date = true ->
       forall isEnd, formatDateForQuery date isEnd = "'" +:+ date +:+ "'") /\
      (includes "T" date = false ->
       formatDateForQuery date false = "'" +:+ date +:+ "T00:00:00Z" +:+ "'" /\
       formatDateForQuery date true = "'" +:+ date +:+ "T23:59:59Z" +:+ "'") /\
      (forall isEnd isEnd', exists timestamp,
          formatDateForQuery date isEnd = "'" +:+ timestamp +:+ "'" /\
          includes "T" timestamp = true /\
          formatDateForQuery timestamp isEnd' = formatDateForQuery date isEnd)) /\
  formatDateForQuery "2024-01-01" false = "'2024-01-01T00:00:00Z'" /\
  formatDateForQuery "2024-01-01" true = "'2024-01-01T23:59:59Z'" /\
  formatDateForQuery "2024-01-01T08:30:00Z" false = "'2024-01-01T08:30:00Z'" /\
  formatDateForQuery "2024-01-01T08:30:00Z" true = "'2024-01-01T08:30:00Z'".
Proof.
  split; [| by vm_compute].
  intros date. unfold formatDateForQuery.
  destruct (includes "T" date) eqn:Htime.
  - split; [done |]. split; [done |].
    intros isEnd isEnd'. exists date. by rewrite Htime.
  - split; [done |]. split; [done |].
    intros isEnd isEnd'.
    exists (date +:+ "T" +:+ (if isEnd then "23:59:59Z" else "00:00:00Z")).
    assert (Hstamp : forall rest, includes "T" (date +:+ "T" +:+ rest) = true)
      by (intros rest; apply (includes_T_append date rest)).
    rewrite Hstamp, !append_assoc. by destruct isEnd.
Qed.

(** ** The credential store *)

Lemma loadCredentials_ok (w : World) (c : QBCredentials) :
  file w = FileData c -> required_present c = true ->
  loadCredentials w = (Return c, w).
Proof.
  intros Hfile Hreq. unfold loadCredentials, try_catch. rewrite Hfile.
  unfold required_present in Hreq.
  apply andb_prop in Hreq as [Hreq H4]. apply andb_prop in Hreq as [Hreq H3].
  apply andb_prop in Hreq as [H1 H2]. by rewrite H1, H2, H3, H4.
Qed.

Lemma loadCredentials_Return (w w' : World) (c : QBCredentials) :
  loadCredentials w = (Return c, w') ->
  w' = w /\ file w = FileData c /\ required_present c = true.
Proof.
  unfold loadCredentials, try_catch, required_present.
  destruct (file w) as [e | data] eqn:Hfile.
  - unfold throw. destruct (is_ENOENT e); intros [=].
  - destruct (truthy (client_id data)) eqn:H1, (truthy (client_secret data)) eqn:H2,
      (truthy (realm_id data)) eqn:H3, (truthy (refresh_token data)) eqn:H4; simpl;
      unfold throw, ret; intros [=]; subst; by rewrite H1, H2, H3, H4.
Qed.

(** Every way [refreshAccessToken] can end, for a stored record that loads. *)
Lemma refreshAccessToken_cases (w : World) (c : QBCredentials) :
  file w = FileData c -> required_present c = true ->
  let w1 := record_request (token_request c) w in
  refreshAccessToken w =
    match net w (length (sent w)) with
    | NetworkError e => (Throw e, w1)
    | Responds response =>
        if negb (ok response) then
          (Throw (Error ("Token refresh failed: " +:+ pretty (status response) +:+ " " +:+
                         statusText response +:+ nl +:+ text response)), w1)
        else
          match json response with
          | None => (Throw (json_error response), w1)
          | Some data =>
              if negb (truthy (data_access_token data)) then
                (Throw (Error ("Token refresh response missing access_token: " +:+
                               data_stringified data)), w1)
              else
                let now := clock w (ticks w) in
                if valid_time (now + js_or (data_expires_in data) 3600 * 1000) then
                  match write_error w with
                  | Some e => (Throw e, advance_clock w1)
                  | None =>
                      (Return (refreshed c data now),
                       write_file (refreshed c data now) (advance_clock w1))
                  end
                else
                  (Throw {| code := None; message := "Invalid time value" |},
                   advance_clock w1)
          end
    end.
Proof.
  intros Hfile Hreq w1. unfold refreshAccessToken, bind.
  rewrite (loadCredentials_ok w c Hfile Hreq). unfold fetch.
  destruct (net w (length (sent w))) as [e | response]; [done |].
  destruct (negb (ok response)); [done |].
  unfold response_json. destruct (json response) as [data |]; [| done].
  unfold ret at 1. destruct (negb (truthy (data_access_token data))); [done |].
  unfold Date_now, toISOString. simpl.
  destruct (valid_time _); [| done].
  unfold ret at 1. unfold saveCredentials. simpl.
  by destruct (write_error w).
Qed.

Lemma refreshAccessToken_sent (w : World) (c : QBCredentials) :
  file w = FileData c -> required_present c = true ->
  sent (refreshAccessToken w).2 = sent w ++ [token_request c].
Proof.
  intros Hfile Hreq. rewrite (refreshAccessToken_cases w c Hfile Hreq). simpl.
  destruct (net w (length (sent w))) as [e | response]; [done |].
  destruct (negb (ok response)); [done |].
  destruct (json response) as [data |]; [| done].
  destruct (negb (truthy (data_access_token data))); [done |].
  destruct (valid_time _); [| done].
  by destruct (write_error w).
Qed.

Lemma refreshAccessToken_Return (w w' : World) (c c' : QBCredentials) :
  file w = FileData c -> required_present c = true ->
  refreshAccessToken w = (Return c', w') ->
  exists response data,
    net w (length (sent w)) = Responds response /\ ok response = true /\
    json response = Some data /\ truthy (data_access_token data) = true /\
    valid_time (clock w (ticks w) + js_or (data_expires_in data) 3600 * 1000) = true /\
    write_error w = None /\
    c' = refreshed c data (clock w (ticks w)) /\
    w' = write_file c' (advance_clock (record_request (token_request c) w)).
Proof.
  intros Hfile Hreq. rewrite (refreshAccessToken_cases w c Hfile Hreq). simpl.
  destruct (net w (length (sent w))) as [e | response]; [done |].
  destruct (ok response) eqn:Hok; [simpl | done].
  destruct (json response) as [data |] eqn:Hjson; [| done].
  destruct (truthy (data_access_token data)) eqn:Htoken; [simpl | done].
  destruct (valid_time _) eqn:Hvalid; [| done].
  destruct (write_error w) eqn:Hwrite; [done |].
  intros [= <- <-]. by exists response, data.
Qed.

Lemma expiry_of_Some (c : QBCredentials) (e : Z) :
  expiry_of c = Some e -> truthy (token_expiry c) = true.
Proof.
  unfold expiry_of. destruct (token_expiry c) as [[ms | raw] |]; simpl; try done.
Qed.

(** [getValidAccessToken] after the record has been loaded. *)
Lemma getValidAccessToken_cases (w : World) (c : QBCredentials) :
  file w = FileData c -> required_present c = true ->
  getValidAccessToken w =
    match cached_token_usable c w with
    | (Return true, w1) => (Return (token_of c), w1)
    | (Return false, w1) =>
        let (o, w2) := refreshAccessToken w1 in
        match o with
        | Return c' =>
            if negb (truthy (access_token c'))
            then (Throw (Error "Failed to get access token after refresh"), w2)
            else (Return (token_of c'), w2)
        | Throw e => (Throw e, w2)
        | OutOfFuel => (OutOfFuel, w2)
        end
    | (Throw e, w1) => (Throw e, w1)
    | (OutOfFuel, w1) => (OutOfFuel, w1)
    end.
Proof.
  intros Hfile Hreq. unfold getValidAccessToken, bind.
  rewrite (loadCredentials_ok w c Hfile Hreq).
  destruct (cached_token_usable c w) as [[[] | e |] w1]; try done.
  destruct (refreshAccessToken w1) as [[c' | e |] w2]; try done.
  by destruct (negb (truthy (access_token c'))).
Qed.

(** When the record has no token that is good for five more minutes, the
    test says so, having at most read the clock. *)
Lemma cached_token_usable_stale (w : World) (c : QBCredentials) :
  truthy (access_token c) = false \/ expiry_of c = None \/
  (exists e, expiry_of c = Some e /\ e - clock w (ticks w) <= 5 * 60 * 1000) ->
  exists w1, (w1 = w \/ w1 = advance_clock w) /\
    cached_token_usable c w = (Return false, w1).
Proof.
  intros Hstale. unfold cached_token_usable.
  destruct (truthy (access_token c)) eqn:Htoken; cbn [andb];
    [| exists w; by split; [left |]].
  destruct (truthy (token_expiry c)) eqn:Hexpiry; [| exists w; by split; [left |]].
  exists (advance_clock w). split; [by right |].
  unfold bind, Date_now, ret. fold (expiry_of c).
  destruct Hstale as [Hno | [Hnone | (e & Hexp & Hsoon)]]; [done | |].
  - by rewrite Hnone.
  - rewrite Hexp. unfold expires_later_than_5_minutes.
    replace (5 * 60 * 1000 <? e - clock w (ticks w)) with false
      by (symmetry; apply Z.ltb_ge; exact Hsoon).
    done.
Qed.

(** C1. A stored record with an access token whose expiry is more than five
    minutes after the time read from the clock is answered from the record:
    the cached token and the realm, no request sent, the file left alone.
    In every other case (no access token, no expiry or one that is no date, an
    expiry within five minutes or past) exactly one request is sent, the
    token request of [refreshAccessToken], the outcome is that of this one
    refresh, and a token that is returned is the one the token endpoint has
    just issued.  It is returned whenever the refresh goes through: when the
    token endpoint answers with success and an access token, the new expiry
    is an instant a [Date] can hold and the credential file can be written,
    the call returns the token just issued, with the realm of the record,
    and the file holds it. *)
Theorem getValidAccessToken_cached_or_refreshed (w : World) (c : QBCredentials) :
  file w = FileData c -> required_present c = true ->
  let now := clock w (ticks w) in
  (truthy (access_token c) = true ->
   (exists e, expiry_of c = Some e /\ 5 * 60 * 1000 < e - now) ->
   exists w',
     getValidAccessToken w =
       (Return {| accessToken := access_token c; realmId := realm_id c |}, w') /\
     sent w' = sent w /\ file w' = file w) /\
  (truthy (access_token c) = false \/ expiry_of c = None \/
   (exists e, expiry_of c = Some e /\ e - now <= 5 * 60 * 1000) ->
   sent (getValidAccessToken w).2 = sent w ++ [token_request c] /\
   (exists w1, (w1 = w \/ w1 = advance_clock w) /\
      getValidAccessToken w =
        match refreshAccessToken w1 with
        | (Return c', w2) => (Return (token_of c'), w2)
        | (Throw e, w2) => (Throw e, w2)
        | (OutOfFuel, w2) => (OutOfFuel, w2)
        end) /\
   (forall t w', getValidAccessToken w = (Return t, w') ->
      exists response data,
        net w (length (sent w)) = Responds response /\ ok response = true /\
        json response = Some data /\
        accessToken t = data_access_token data /\ realmId t = realm_id c /\
        exists c', file w' = FileData c' /\ access_token c' = accessToken t) /\
   (forall response data,
      net w (length (sent w)) = Responds response -> ok response = true ->
      json response = Some data -> truthy (data_access_token data) = true ->
      (forall n, valid_time (clock w n + effective_lifetime data * 1000) = true) ->
      write_error w = None ->
      exists w',
        getValidAccessToken w =
          (Return {| accessToken := data_access_token data; realmId := realm_id c |},
           w') /\
        sent w' = sent w ++ [token_request c] /\
        exists c', file w' = FileData c' /\
                   access_token c' = data_access_token data)).
Proof.
  intros Hfile Hreq now.
  rewrite (getValidAccessToken_cases w c Hfile Hreq).
  split.
  - intros Htoken (e & Hexp & Hlate).
    unfold cached_token_usable.
    rewrite Htoken, (expiry_of_Some c e Hexp). cbn [andb].
    fold (expiry_of c). rewrite Hexp. unfold bind, Date_now, ret.
    unfold expires_later_than_5_minutes.
    replace (5 * 60 * 1000 <? e - clock w (ticks w)) with true
      by (symmetry; apply Z.ltb_lt; exact Hlate).
    by eexists.
  - intros Hstale.
    destruct (cached_token_usable_stale w c Hstale) as (w1 & Hw1 & ->).
    assert (Hfile1 : file w1 = FileData c) by (destruct Hw1 as [-> | ->]; done).
    assert (Hsent1 : sent w1 = sent w) by (destruct Hw1 as [-> | ->]; done).
    assert (Hnet1 : net w1 = net w) by (destruct Hw1 as [-> | ->]; done).
    assert (Hgo :
      (let (o, w2) := refreshAccessToken w1 in
       match o with
       | Return c' =>
           if negb (truthy (access_token c'))
           then (Throw (Error "Failed to get access token after refresh"), w2)
           else (Return (token_of c'), w2)
       | Throw e => (Throw e, w2)
       | OutOfFuel => (OutOfFuel, w2)
       end) =
      match refreshAccessToken w1 with
      | (Return c', w2) => (Return (token_of c'), w2)
      | (Throw e, w2) => (Throw e, w2)
      | (OutOfFuel, w2) => (OutOfFuel, w2)
      end).
    { destruct (refreshAccessToken w1) as [[c' | e |] w2] eqn:Hrefresh; try done.
      destruct (refreshAccessToken_Return w1 w2 c c' Hfile1 Hreq Hrefresh)
        as (response & data & _ & _ & _ & Htok & _ & _ & -> & _).
      simpl. by rewrite Htok. }
    rewrite Hgo. clear Hgo.
    split; [| split; [| split]]; cycle 3.
    { intros response data Hnet Hok Hjson Htoken Hvalid Hwrite.
      assert (Hlife : js_or (data_expires_in data) 3600 = effective_lifetime data).
      { unfold js_or, effective_lifetime, truthy, truthy_Z.
        destruct (data_expires_in data) as [seconds |]; [| done].
        by destruct (seconds =? 0). }
      assert (Hclock1 : clock w1 = clock w) by (destruct Hw1 as [-> | ->]; done).
      assert (Hwrite1 : write_error w1 = write_error w)
        by (destruct Hw1 as [-> | ->]; done).
      rewrite (refreshAccessToken_cases w1 c Hfile1 Hreq). cbv zeta.
      rewrite Hnet1, Hsent1, Hnet, Hok, Hjson, Htoken. cbn [negb].
      rewrite Hclock1, Hlife, Hvalid, Hwrite1, Hwrite.
      eexists. split; [reflexivity |].
      split; [cbn; by rewrite Hsent1 |].
      eexists. split; reflexivity. }
    + pose proof (refreshAccessToken_sent w1 c Hfile1 Hreq) as Hs.
      rewrite Hsent1 in Hs. by destruct (refreshAccessToken w1) as [[c' | e |] w2].
    + by exists w1.
    + intros t w'.
      destruct (refreshAccessToken w1) as [[c' | e |] w2] eqn:Hrefresh; try done.
      intros [= <- <-].
      destruct (refreshAccessToken_Return w1 w2 c c' Hfile1 Hreq Hrefresh)
        as (response & data & Hnet & Hok & Hjson & _ & _ & _ & Hc' & Hw2).
      rewrite Hnet1, Hsent1 in Hnet.
      exists response, data. subst c'. simpl. repeat split; try done.
      eexists. by rewrite Hw2.
Qed.

Lemma getValidAccessToken_cached_or_refreshed_witness :
  (exists w',
      getValidAccessToken (sample_world (FileData sample_credentials) 1700000000000 []) =
        (Return {| accessToken := Some "cached-token"; realmId := Some "4620816365" |}, w') /\
      sent w' = [] /\ file w' = FileData sample_credentials) /\
  (exists w',
      getValidAccessToken
        (sample_world (FileData sample_credentials) 1700003500000
           [ok_response (token_json (Some "fresh-token") None (Some 3600))]) =
        (Return {| accessToken := Some "fresh-token"; realmId := Some "4620816365" |}, w') /\
      sent w' = [token_request sample_credentials] /\
      exists c', file w' = FileData c' /\ access_token c' = Some "fresh-token").
Proof.
  split.
  - destruct (getValidAccessToken_cached_or_refreshed
                (sample_world (FileData sample_credentials) 1700000000000 [])
                sample_credentials eq_refl eq_refl) as [Hcached _].
    apply Hcached; [reflexivity |].
    exists 1700003600000. split; [reflexivity | vm_compute; reflexivity].
  - destruct (getValidAccessToken_cached_or_refreshed
                (sample_world (FileData sample_credentials) 1700003500000
                   [ok_response (token_json (Some "fresh-token") None (Some 3600))])
                sample_credentials eq_refl eq_refl) as [_ Hstale].
    destruct Hstale as (_ & _ & _ & Hfresh).
    + right; right.
      exists 1700003600000. split; [reflexivity | vm_compute; discriminate].
    + exact (Hfresh
               {| status := 200; statusText := "OK"; text := "{...}";
                  json := Some (token_json (Some "fresh-token") None (Some 3600));
                  json_error := Error "Unexpected end of JSON input" |}
               (token_json (Some "fresh-token") None (Some 3600))
               eq_refl eq_refl eq_refl eq_refl (fun n => eq_refl) eq_refl).
Defined.

(** C5, as stated, fails: a response that reports a lifetime of zero seconds
    gets an expiry one hour after the refresh, not the instant of the refresh
    that the reported lifetime gives. *)
Lemma refreshAccessToken_zero_lifetime_counterexample :
  exists c' w',
    refreshAccessToken (refresh_world (token_json (Some "fresh-token") None (Some 0))) =
      (Return c', w') /\
    token_expiry c' <>
      Some (IsoDate (1700003500000 +
                     reported_lifetime (token_json (Some "fresh-token") None (Some 0)) * 1000)) /\
    token_expiry c' = Some (IsoDate (1700003500000 + 3600 * 1000)).
Proof.
  set (data := token_json (Some "fresh-token") None (Some 0)).
  exists (refreshed sample_credentials data 1700003500000),
    (write_file (refreshed sample_credentials data 1700003500000)
       (advance_clock (record_request (token_request sample_credentials)
                         (refresh_world data)))).
  split; [by vm_compute |]. split; by vm_compute.
Qed.

(** C5, amended. When the token endpoint answers with success and an access
    token, and the refresh completes (the expiry is an instant a [Date] can
    hold and the credential file can be written), [refreshAccessToken]
    returns the stored record with the new access token, with the refresh
    token replaced only when the response supplies one, and with an expiry
    of the time read after the response plus the reported lifetime, which is
    3600 seconds when the response reports none or reports zero.  On return
    the record has been written to the credential file. *)
Theorem refreshAccessToken_success (w : World) (c : QBCredentials)
    (response : Response) (data : Json) :
  file w = FileData c -> required_present c = true ->
  net w (length (sent w)) = Responds response -> ok response = true ->
  json response = Some data -> truthy (data_access_token data) = true ->
  let now := clock w (ticks w) in
  valid_time (now + effective_lifetime data * 1000) = true ->
  write_error w = None ->
  exists c' w',
    refreshAccessToken w = (Return c', w') /\
    token_expiry c' = Some (IsoDate (now + effective_lifetime data * 1000)) /\
    access_token c' = data_access_token data /\
    refresh_token c' =
      (if truthy (data_refresh_token data) then data_refresh_token data
       else refresh_token c) /\
    client_id c' = client_id c /\ client_secret c' = client_secret c /\
    realm_id c' = realm_id c /\
    file w' = FileData c' /\
    loadCredentials w' = (Return c', w') /\
    sent w' = sent w ++ [token_request c].
Proof.
  intros Hfile Hreq Hnet Hok Hjson Htoken now Hvalid Hwrite.
  assert (Hlife : js_or (data_expires_in data) 3600 = effective_lifetime data).
  { unfold js_or, effective_lifetime, truthy, truthy_Z.
    destruct (data_expires_in data) as [seconds |]; [| done].
    by destruct (seconds =? 0). }
  exists (refreshed c data now),
    (write_file (refreshed c data now)
       (advance_clock (record_request (token_request c) w))).
  split.
  - rewrite (refreshAccessToken_cases w c Hfile Hreq). cbv zeta.
    rewrite Hnet, Hok, Hjson, Htoken. cbn [negb].
    fold now. rewrite Hlife, Hvalid, Hwrite. done.
  - unfold refreshed. cbn -[Z.mul Z.add]. rewrite Hlife.
    repeat split; try done.
    apply loadCredentials_ok; [done |].
    revert Hreq. unfold required_present. cbn.
    destruct (truthy (client_id c)), (truthy (client_secret c)),
      (truthy (realm_id c)); cbn; try done.
    intros Hrt. unfold js_or_opt.
    destruct (truthy (data_refresh_token data)) eqn:Hrot; done.
Qed.

Lemma refreshAccessToken_success_witness :
  exists c' w',
    refreshAccessToken (refresh_world (token_json (Some "fresh-token") (Some "refresh-2") None)) =
      (Return c', w') /\
    token_expiry c' = Some (IsoDate (1700003500000 + 3600 * 1000)) /\
    access_token c' = Some "fresh-token" /\
    refresh_token c' = Some "refresh-2" /\
    file w' = FileData c'.
Proof.
  destruct (refreshAccessToken_success
              (refresh_world (token_json (Some "fresh-token") (Some "refresh-2") None))
              sample_credentials _ _ eq_refl eq_refl eq_refl eq_refl eq_refl eq_refl
              eq_refl eq_refl)
    as (c' & w' & Hrun & Hexpiry & Htoken & Hrotated & _ & _ & _ & Hfile & _).
  exists c', w'. repeat split; assumption.
Defined.

(** A failed refresh leaves the credential file as it was. *)
Lemma refreshAccessToken_failure_keeps_file (w w' : World) (c : QBCredentials) (e : Exn) :
  file w = FileData c -> required_present c = true ->
  refreshAccessToken w = (Throw e, w') -> file w' = FileData c.
Proof.
  intros Hfile Hreq. rewrite (refreshAccessToken_cases w c Hfile Hreq). simpl.
  destruct (net w (length (sent w))) as [e' | response]; [by intros [= _ <-] |].
  destruct (negb (ok response)); [by intros [= _ <-] |].
  destruct (json response) as [data |]; [| by intros [= _ <-]].
  destruct (negb (truthy (data_access_token data))); [by intros [= _ <-] |].
  destruct (valid_time _); [| by intros [= _ <-]].
  destruct (write_error w); [by intros [= _ <-] | done].
Qed.

Lemma refreshed_well_formed (c : QBCredentials) (data : Json) (now : Z) :
  required_present c = true -> truthy (data_access_token data) = true ->
  well_formed (refreshed c data now).
Proof.
  intros Hreq Htoken. split.
  - revert Hreq. unfold required_present, refreshed. cbn.
    destruct (truthy (client_id c)), (truthy (client_secret c)),
      (truthy (realm_id c)); cbn; try done.
    unfold js_or_opt. by destruct (truthy (data_refresh_token data)) eqn:Hrot.
  - unfold both_or_neither, refreshed. cbn.
    destruct (data_access_token data); [| done].
    split; intros _; by eexists.
Qed.

(** C7. Starting from a record that has its four required fields and has an
    access token exactly when it has an expiry, both operations that write
    the record keep it so.  [saveCredentials] stores the record as it is, and
    it is what [loadCredentials] then reads back.  [refreshAccessToken], when
    it returns, returns and has stored a record with the same client ID,
    client secret and realm, a refresh token, and both an access token and an
    expiry; when it fails, the stored record is the one it found. *)
Theorem credentials_invariant_preserved (w : World) (c : QBCredentials) :
  well_formed c ->
  (forall o w', saveCredentials c w = (o, w') ->
     match o with
     | Return _ => file w' = FileData c /\ loadCredentials w' = (Return c, w')
     | _ => w' = w
     end) /\
  (file w = FileData c ->
   forall o w', refreshAccessToken w = (o, w') ->
     match o with
     | Return c' =>
         well_formed c' /\ file w' = FileData c' /\
         loadCredentials w' = (Return c', w') /\
         client_id c' = client_id c /\ client_secret c' = client_secret c /\
         realm_id c' = realm_id c /\
         is_Some (access_token c') /\ is_Some (token_expiry c')
     | _ => file w' = FileData c
     end).
Proof.
  intros [Hreq Hpair]. split.
  - intros o w'. unfold saveCredentials.
    destruct (write_error w); intros [= <- <-]; [done |].
    split; [done |]. by apply loadCredentials_ok.
  - intros Hfile o w' Hrun. destruct o as [c' | e |].
    + destruct (refreshAccessToken_Return w w' c c' Hfile Hreq Hrun)
        as (response & data & _ & _ & _ & Htoken & _ & _ & -> & ->).
      pose proof (refreshed_well_formed c data (clock w (ticks w)) Hreq Htoken)
        as Hwf.
      split; [exact Hwf |]. split; [done |].
      split; [apply loadCredentials_ok; [done | apply Hwf] |].
      assert (Hhas : is_Some (access_token (refreshed c data (clock w (ticks w))))).
      { cbn. destruct (data_access_token data); [by eexists | done]. }
      repeat split; done.
    + by apply (refreshAccessToken_failure_keeps_file w w' c e).
    + revert Hrun. rewrite (refreshAccessToken_cases w c Hfile Hreq). simpl.
      destruct (net w (length (sent w))) as [e' | response]; [done |].
      destruct (negb (ok response)); [done |].
      destruct (json response) as [data |]; [| done].
      destruct (negb (truthy (data_access_token data))); [done |].
      destruct (valid_time _); [| done].
      by destruct (write_error w).
Qed.

Lemma credentials_invariant_preserved_witness :
  well_formed sample_credentials /\
  exists c' w',
    refreshAccessToken (refresh_world (token_json (Some "fresh-token") None None)) =
      (Return c', w') /\
    well_formed c' /\ file w' = FileData c'.
Proof.
  assert (Hwf : well_formed sample_credentials).
  { split; [reflexivity |]. split; intros _; eexists; reflexivity. }
  split; [exact Hwf |].
  destruct (refreshAccessToken
              (refresh_world (token_json (Some "fresh-token") None None)))
    as [o w'] eqn:Hrun.
  pose proof (proj2 (credentials_invariant_preserved
                       (refresh_world (token_json (Some "fresh-token") None None))
                       sample_credentials Hwf) eq_refl o w' Hrun) as Hkept.
  assert (Ho : exists c', o = Return c').
  { revert Hrun. vm_compute. intros [= <- _]. by eexists. }
  destruct Ho as [c' ->].
  exists c', w'. split; [reflexivity |]. split; apply Hkept.
Defined.

(** ** The pagination loop of [query] *)

Lemma record_requests_nil (w : World) : record_requests [] w = w.
Proof. destruct w. unfold record_requests. simpl. by rewrite app_nil_r. Qed.

Lemma record_requests_cons (req : Request) (reqs : list Request) (w : World) :
  record_requests reqs (record_request req w) = record_requests (req :: reqs) w.
Proof.
  unfold record_requests, record_request. simpl. f_equal.
  by rewrite <- app_assoc.
Qed.

Lemma record_requests_cons_end (req : Request) (reqs : list Request) (w : World) :
  record_request req (record_requests reqs w) = record_requests (reqs ++ [req]) w.
Proof.
  unfold record_requests, record_request. simpl. f_equal.
  by rewrite <- app_assoc.
Qed.

Lemma page_at_record_request (w : World) (req : Request) (entity : string) (k : nat) :
  page_at (record_request req w) entity k = page_at w entity (S k).
Proof.
  unfold page_at, record_request. simpl. rewrite length_app. simpl.
  by replace (length (sent w) + 1 + k)%nat with (length (sent w) + S k)%nat by lia.
Qed.

Lemma page_at_0 (w : World) (entity : string) (page : list Doc) :
  page_at w entity 0 = Some page ->
  exists response data,
    net w (length (sent w)) = Responds response /\ ok response = true /\
    json response = Some data /\ query_results data entity = page.
Proof.
  unfold page_at. rewrite Nat.add_0_r.
  destruct (net w (length (sent w))) as [e | response]; [done |].
  destruct (ok response) eqn:Hok; [| done].
  destruct (json response) as [data |] eqn:Hjson; [| done].
  intros [= <-]. by exists response, data.
Qed.

Section QueryLoop.
Variables (url : string) (token : option string) (entity : string)
          (options : QueryOptions) (M : JsNumber).

Let request (position : Z) : Request :=
  sql_request url token (query_sql entity options position M).

(** One turn of the loop. *)
Lemma query_loop_step (fuel : nat) (acc : list Doc) (position : Z) (w : World) :
  query_loop (S fuel) url token entity options M acc position w =
    let w1 := record_request (request position) w in
    match net w (length (sent w)) with
    | NetworkError e => (Throw e, w1)
    | Responds response =>
        if ok response then
          match json response with
          | Some data =>
              let results := query_results data entity in
              if length_lt results M then (Return (acc ++ results), w1)
              else query_loop fuel url token entity options M (acc ++ results)
                     (position + Z.of_nat (length results)) w1
          | None =>
              (Throw (json_error response), w1)
          end
        else (Throw (api_error "QuickBooks API error: " response), w1)
    end.
Proof.
  cbn [query_loop]. unfold bind at 1. unfold fetch. fold (request position).
  destruct (net w (length (sent w))) as [e | response]; [done |].
  destruct (ok response); [| done]. cbn [negb].
  unfold bind, response_json.
  destruct (json response) as [data |]; [| done].
  unfold ret at 1. by destruct (length_lt _ M).
Qed.

(** One turn of the loop when the answer is a page. *)
Lemma query_loop_page (fuel : nat) (acc page : list Doc) (position : Z) (w : World) :
  page_at w entity 0 = Some page ->
  query_loop (S fuel) url token entity options M acc position w =
    if length_lt page M
    then (Return (acc ++ page), record_request (request position) w)
    else query_loop fuel url token entity options M (acc ++ page)
           (position + Z.of_nat (length page))
           (record_request (request position) w).
Proof.
  intros Hpage. destruct (page_at_0 w entity page Hpage)
    as (response & data & Hnet & Hok & Hjson & <-).
  rewrite query_loop_step. cbv zeta. by rewrite Hnet, Hok, Hjson.
Qed.

(** The loop goes through pages that are not short, one request each. *)
Lemma query_loop_full_pages (pages : list (list Doc)) :
  forall (fuel : nat) (acc : list Doc) (position : Z) (w : World),
    (forall i page, pages !! i = Some page ->
                    page_at w entity i = Some page /\ length_lt page M = false) ->
    query_loop (length pages + fuel) url token entity options M acc position w =
    query_loop fuel url token entity options M (acc ++ concat pages)
      (position + Z.of_nat (length (concat pages)))
      (record_requests (query_requests url token entity options M position pages) w).
Proof.
  induction pages as [| page pages IH]; intros fuel acc position w Hpages.
  - cbn. by rewrite app_nil_r, Z.add_0_r, record_requests_nil.
  - destruct (Hpages 0%nat page eq_refl) as [Hpage Hfull].
    cbn [length Nat.add]. rewrite (query_loop_page _ acc page position w Hpage).
    rewrite Hfull. rewrite IH.
    + cbn [concat query_requests]. rewrite record_requests_cons.
      rewrite length_app, app_assoc. f_equal. lia.
    + intros i page' Hi. rewrite page_at_record_request. by apply (Hpages (S i)).
Qed.

(** When no page can be short, the loop never returns. *)
Lemma query_loop_never_returns (fuel : nat) :
  (forall page : list Doc, length_lt page M = false) ->
  forall (acc : list Doc) (position : Z) (w : World) results w',
    query_loop fuel url token entity options M acc position w <> (Return results, w').
Proof.
  intros Hnever. induction fuel as [| fuel IH]; intros acc position w results w'.
  - done.
  - rewrite query_loop_step. cbv zeta.
    destruct (net w (length (sent w))) as [e | response]; [done |].
    destruct (ok response); [| done].
    destruct (json response) as [data |]; [| done].
    rewrite Hnever. apply IH.
Qed.

(** With a remote that keeps answering, it runs for as long as it is given
    fuel, sending one request per turn. *)
Lemma query_loop_diverges (fuel : nat) :
  (forall page : list Doc, length_lt page M = false) ->
  forall (acc : list Doc) (position : Z) (w : World),
    (forall k, (k < fuel)%nat -> is_Some (page_at w entity k)) ->
    exists w',
      query_loop fuel url token entity options M acc position w = (OutOfFuel, w') /\
      length (sent w') = (length (sent w) + fuel)%nat.
Proof.
  intros Hnever. induction fuel as [| fuel IH]; intros acc position w Hanswers.
  - exists w. split; [done | lia].
  - destruct (Hanswers 0%nat ltac:(lia)) as [page Hpage].
    rewrite (query_loop_page _ acc page position w Hpage), Hnever.
    destruct (IH (acc ++ page) (position + Z.of_nat (length page))
                (record_request (request position) w)) as (w' & Hrun & Hsent).
    + intros k Hk. rewrite page_at_record_request. apply Hanswers. lia.
    + exists w'. split; [done |]. rewrite Hsent. cbn. rewrite length_app. cbn. lia.
Qed.

(** A short page among the answers ends the loop, by a return or, if an
    earlier request fails, by an error. *)
Lemma query_loop_terminates (n : nat) :
  forall (acc : list Doc) (position : Z) (w : World) (page : list Doc),
    page_at w entity n = Some page -> length_lt page M = true ->
    (query_loop (S n) url token entity options M acc position w).1 <> OutOfFuel.
Proof.
  induction n as [| n IH]; intros acc position w page Hpage Hshort.
  - by rewrite (query_loop_page _ acc page position w Hpage), Hshort.
  - rewrite query_loop_step. cbv zeta.
    destruct (net w (length (sent w))) as [e | response]; [done |].
    destruct (ok response); [| done].
    destruct (json response) as [data |]; [| done].
    destruct (length_lt (query_results data entity) M); [done |].
    apply (IH _ _ _ page); [| done]. by rewrite page_at_record_request.
Qed.

(** The position that the [i]-th request asks for. *)
Lemma query_requests_lookup (pages : list (list Doc)) :
  forall (position : Z) (i : nat),
    (i < length pages)%nat ->
    query_requests url token entity options M position pages !! i =
    Some (request (position + Z.of_nat (length (concat (take i pages))))).
Proof.
  induction pages as [| page pages IH]; intros position i Hi; [cbn in Hi; lia |].
  destruct i as [| i].
  - cbn. by rewrite Z.add_0_r.
  - cbn [query_requests take concat]. cbn [lookup list_lookup].
    change (query_requests url token entity options M
              (position + Z.of_nat (length page)) pages !! i =
            Some (request (position +
                           Z.of_nat (length (page ++ concat (take i pages)))))).
    rewrite IH by (cbn in Hi; lia). rewrite length_app. do 2 f_equal. lia.
Qed.

Lemma query_requests_snoc (pages : list (list Doc)) (last : list Doc) :
  forall position : Z,
    query_requests url token entity options M position (pages ++ [last]) =
    query_requests url token entity options M position pages ++
    [request (position + Z.of_nat (length (concat pages)))].
Proof.
  induction pages as [| page pages IH]; intros position.
  - cbn. by rewrite Z.add_0_r.
  - cbn [app query_requests concat]. rewrite IH, length_app.
    cbn [app]. by rewrite Nat2Z.inj_add, Z.add_assoc.
Qed.

Lemma query_requests_length (pages : list (list Doc)) (position : Z) :
  length (query_requests url token entity options M position pages) = length pages.
Proof.
  revert position. induction pages as [| page pages IH]; intros position; [done |].
  cbn. by rewrite IH.
Qed.
End QueryLoop.

Lemma query_after_token (fuel : nat) (entity : string) (options : QueryOptions)
    (w w1 : World) (t : TokenInfo) :
  getValidAccessToken w = (Return t, w1) ->
  query fuel entity options w =
  query_loop fuel (getApiUrl (String_of (realmId t))) (accessToken t) entity options
    (default (Num MAX_RESULTS_PER_PAGE) (maxResults options)) [] 1 w1.
Proof. intros Htoken. unfold query, bind. by rewrite Htoken. Qed.

(** Pages that are not short followed by a short one: what [query] does. *)
Lemma query_pages (entity : string) (options : QueryOptions) (w w1 : World)
    (t : TokenInfo) (pages : list (list Doc)) (last : list Doc) :
  let M := default (Num 1000) (maxResults options) in
  let url := getApiUrl (String_of (realmId t)) in
  getValidAccessToken w = (Return t, w1) ->
  (forall i page, pages !! i = Some page ->
                  page_at w1 entity i = Some page /\ length_lt page M = false) ->
  page_at w1 entity (length pages) = Some last -> length_lt last M = true ->
  (forall fuel, (length pages < fuel)%nat ->
     query fuel entity options w =
       (Return (concat pages ++ last),
        record_requests
          (query_requests url (accessToken t) entity options M 1 (pages ++ [last]))
          w1)) /\
  (forall fuel, (fuel <= length pages)%nat ->
     (query fuel entity options w).1 = OutOfFuel) /\
  length (query_requests url (accessToken t) entity options M 1 (pages ++ [last])) =
    S (length pages) /\
  (forall i, (i <= length pages)%nat ->
     query_requests url (accessToken t) entity options M 1 (pages ++ [last]) !! i =
     Some (sql_request url (accessToken t)
             (query_sql entity options
                (1 + Z.of_nat (length (concat (take i pages)))) M))).
Proof.
  intros M url Htoken Hfull Hlast Hshort. repeat split.
  - intros fuel Hfuel.
    rewrite (query_after_token fuel entity options w w1 t Htoken).
    fold M url. change MAX_RESULTS_PER_PAGE with 1000. fold M.
    replace fuel with (length pages + S (fuel - S (length pages)))%nat by lia.
    rewrite (query_loop_full_pages url (accessToken t) entity options M pages) by done.
    set (w2 := record_requests _ w1).
    assert (Hpage : page_at w2 entity 0 = Some last).
    { subst w2. unfold page_at, record_requests in *. cbn.
      rewrite length_app, query_requests_length, Nat.add_0_r. exact Hlast. }
    rewrite (query_loop_page url (accessToken t) entity options M _ _ last _ w2 Hpage).
    rewrite Hshort. cbn [app]. f_equal.
    subst w2. by rewrite record_requests_cons_end, query_requests_snoc.
  - intros fuel Hfuel.
    rewrite (query_after_token fuel entity options w w1 t Htoken).
    change MAX_RESULTS_PER_PAGE with 1000. fold M url.
    pose proof (query_loop_full_pages url (accessToken t) entity options M
                  (take fuel pages) 0 [] 1 w1) as Hrun.
    rewrite length_take, Nat.min_l, Nat.add_0_r in Hrun by lia.
    rewrite Hrun; [done |].
    intros i page Hi. apply Hfull. rewrite lookup_take_Some in Hi. apply Hi.
  - rewrite query_requests_length, length_app. cbn. lia.
  - intros i Hi.
    rewrite (query_requests_lookup url (accessToken t) entity options M) by
      (rewrite length_app; cbn; lia).
    by rewrite take_app_le.
Qed.

Lemma paged_world_token (entity : string) (sizes : list nat) :
  getValidAccessToken (paged_world entity sizes) =
    (Return (token_of sample_credentials), advance_clock (paged_world entity sizes)).
Proof. reflexivity. Qed.

(** The statements that the loop of [query] sends: each is the SELECT for
    the entity with the filter and the ordering of the call, and the first
    is the one for the position at which the loop starts. *)
Lemma query_loop_statements (url : string) (token : option string) (entity : string)
    (options : QueryOptions) (M : JsNumber) (fuel : nat) :
  forall (acc : list Doc) (position : Z) (w : World),
    exists rest,
      sent (query_loop (S fuel) url token entity options M acc position w).2 =
        sent w ++ sql_request url token (query_sql entity options position M) :: rest /\
      Forall (fun req => exists position',
                 req = sql_request url token (query_sql entity options position' M))
        rest.
Proof.
  induction fuel as [| fuel IH]; intros acc position w.
  - rewrite query_loop_step. cbv zeta. exists [].
    split; [| by constructor].
    destruct (net w (length (sent w))) as [e | response]; [done |].
    destruct (ok response); [| done].
    destruct (json response) as [data |]; [| done].
    by destruct (length_lt (query_results data entity) M).
  - rewrite query_loop_step. cbv zeta.
    set (req := sql_request url token (query_sql entity options position M)).
    assert (Hone : exists rest,
               sent (record_request req w) = sent w ++ req :: rest /\
               Forall (fun req => exists position',
                          req = sql_request url token
                                  (query_sql entity options position' M)) rest)
      by (exists []; split; [done | by constructor]).
    destruct (net w (length (sent w))) as [e | response]; [exact Hone |].
    destruct (ok response); [| exact Hone].
    destruct (json response) as [data |]; [| exact Hone].
    destruct (length_lt (query_results data entity) M); [exact Hone |].
    destruct (IH (acc ++ query_results data entity)
                (position + Z.of_nat (length (query_results data entity)))
                (record_request req w)) as (rest & Hsent & Hall).
    eexists (_ :: rest). rewrite Hsent. cbn [record_request sent].
    rewrite <- app_assoc. split; [reflexivity |].
    constructor; [by eexists | exact Hall].
Qed.

(** C4. The ORDER BY clause of [query] is transaction date descending, then ID
    descending, exactly for the ten transaction entities, and ID descending
    alone for every other entity name.  It is the clause of every statement
    that [query] sends: once it has its token, [query] posts the SELECT for
    the entity from position 1, and whatever it posts after that is the same
    SELECT from a later position, each with this clause between the filter
    and the position. *)
Theorem orderBy_by_entity_kind (entity : string) (options : QueryOptions) (fuel : nat)
    (w w1 : World) (t : TokenInfo) :
  getValidAccessToken w = (Return t, w1) ->
  let statement (position : string) : Body :=
    TextBody ("SELECT * FROM " +:+ entity +:+ " " +:+ whereClause options +:+ " " +:+
              orderBy entity +:+ " STARTPOSITION " +:+ position +:+ " MAXRESULTS " +:+
              Number_toString (default (Num 1000) (maxResults options))) in
  (orderBy entity = "ORDER BY TxnDate DESC, Id DESC" <->
   In entity ["Invoice"; "Bill"; "Purchase"; "Deposit"; "Payment"; "TimeActivity";
              "Estimate"; "SalesReceipt"; "CreditMemo"; "JournalEntry"]) /\
  (orderBy entity = "ORDER BY Id DESC" <->
   ~ In entity ["Invoice"; "Bill"; "Purchase"; "Deposit"; "Payment"; "TimeActivity";
                "Estimate"; "SalesReceipt"; "CreditMemo"; "JournalEntry"]) /\
  exists first rest,
    sent (query (S fuel) entity options w).2 = sent w1 ++ first :: rest /\
    body first = statement "1" /\
    Forall (fun req => exists position : Z, body req = statement (pretty position)) rest.
Proof.
  intros Htoken statement.
  assert (Hclause :
    (orderBy entity = "ORDER BY TxnDate DESC, Id DESC" <->
     In entity ["Invoice"; "Bill"; "Purchase"; "Deposit"; "Payment"; "TimeActivity";
                "Estimate"; "SalesReceipt"; "CreditMemo"; "JournalEntry"]) /\
    (orderBy entity = "ORDER BY Id DESC" <->
     ~ In entity ["Invoice"; "Bill"; "Purchase"; "Deposit"; "Payment"; "TimeActivity";
                  "Estimate"; "SalesReceipt"; "CreditMemo"; "JournalEntry"])).
  { pose proof (Array_includes_In transactionEntities entity) as Hin.
    unfold orderBy. unfold transactionEntities in Hin |- * at 1 2.
    destruct (Array_includes _ entity).
    - split.
      + split; [intros _; by apply Hin | done].
      + split; [done |]. intros Hnot. exfalso. apply Hnot. by apply Hin.
    - split.
      + split; [done |]. intros Hyes. apply Hin in Hyes. done.
      + split; [| done]. intros _ Hyes. apply Hin in Hyes. done. }
  destruct Hclause as [Hdated Hplain].
  split; [exact Hdated |]. split; [exact Hplain |].
  rewrite (query_after_token (S fuel) entity options w w1 t Htoken).
  destruct (query_loop_statements (getApiUrl (String_of (realmId t))) (accessToken t)
              entity options (default (Num MAX_RESULTS_PER_PAGE) (maxResults options))
              fuel [] 1 w1) as (rest & Hsent & Hall).
  eexists _, rest. split; [exact Hsent |]. split; [reflexivity |].
  eapply Forall_impl; [exact Hall |].
  intros req [position ->]. by exists position.
Qed.

Lemma orderBy_by_entity_kind_witness :
  map body (sent (query 5 "Invoice" options_max_1000 (paged_world "Invoice" [3%nat])).2) =
    [TextBody "SELECT * FROM Invoice  ORDER BY TxnDate DESC, Id DESC STARTPOSITION 1 MAXRESULTS 1000"] /\
  map body (sent (query 5 "Customer" options_max_1000 (paged_world "Customer" [3%nat])).2) =
    [TextBody "SELECT * FROM Customer  ORDER BY Id DESC STARTPOSITION 1 MAXRESULTS 1000"].
Proof.
  split.
  - destruct (orderBy_by_entity_kind "Invoice" options_max_1000 4
                (paged_world "Invoice" [3%nat])
                (advance_clock (paged_world "Invoice" [3%nat]))
                (token_of sample_credentials) eq_refl)
      as (Hdated & _ & first & rest & Hsent & Hfirst & _).
    assert (Hclause : orderBy "Invoice" = "ORDER BY TxnDate DESC, Id DESC")
      by (apply Hdated; by left).
    assert (Hone : length (sent (query 5 "Invoice" options_max_1000
                                   (paged_world "Invoice" [3%nat])).2) = 1%nat)
      by reflexivity.
    rewrite Hsent in Hone |- *. destruct rest; [| discriminate Hone].
    cbn [sent advance_clock paged_world sample_world app map].
    rewrite Hfirst, Hclause. reflexivity.
  - destruct (orderBy_by_entity_kind "Customer" options_max_1000 4
                (paged_world "Customer" [3%nat])
                (advance_clock (paged_world "Customer" [3%nat]))
                (token_of sample_credentials) eq_refl)
      as (_ & Hplain & first & rest & Hsent & Hfirst & _).
    assert (Hclause : orderBy "Customer" = "ORDER BY Id DESC").
    { apply Hplain. cbn [In]. intros Hin.
      repeat destruct Hin as [Hin | Hin]; try discriminate Hin. exact Hin. }
    assert (Hone : length (sent (query 5 "Customer" options_max_1000
                                   (paged_world "Customer" [3%nat])).2) = 1%nat)
      by reflexivity.
    rewrite Hsent in Hone |- *. destruct rest; [| discriminate Hone].
    cbn [sent advance_clock paged_world sample_world app map].
    rewrite Hfirst, Hclause. reflexivity.
Defined.

(** C2. [query] starts at position 1, asks for each page at an offset that is
    1 plus the number of records received so far, appends the pages in order,
    goes on after every page that is not shorter than [maxResults] and stops
    at the first one that is, a page of no records included.  With
    [maxResults] 1000, pages of 1000, 1000 and 400 records take three
    requests and give 2400 records; pages of 1000, 1000 and 1000 records take
    a fourth request, which brings no record, and give 3000. *)
Theorem query_pagination :
  (forall (entity : string) (options : QueryOptions) (w w1 : World) (t : TokenInfo)
          (pages : list (list Doc)) (last : list Doc),
      let M := default (Num 1000) (maxResults options) in
      let url := getApiUrl (String_of (realmId t)) in
      getValidAccessToken w = (Return t, w1) ->
      (forall i page, pages !! i = Some page ->
                      page_at w1 entity i = Some page /\ length_lt page M = false) ->
      page_at w1 entity (length pages) = Some last -> length_lt last M = true ->
      (forall fuel, (length pages < fuel)%nat ->
         query fuel entity options w =
           (Return (concat pages ++ last),
            record_requests
              (query_requests url (accessToken t) entity options M 1 (pages ++ [last]))
              w1)) /\
      (forall fuel, (fuel <= length pages)%nat ->
         (query fuel entity options w).1 = OutOfFuel) /\
      length (query_requests url (accessToken t) entity options M 1 (pages ++ [last])) =
        S (length pages) /\
      (forall i, (i <= length pages)%nat ->
         query_requests url (accessToken t) entity options M 1 (pages ++ [last]) !! i =
         Some (sql_request url (accessToken t)
                 (query_sql entity options
                    (1 + Z.of_nat (length (concat (take i pages)))) M)))) /\
  (forall fuel, (3 <= fuel)%nat ->
     exists results w',
       query fuel "Invoice" options_max_1000 (paged_world "Invoice" [1000; 1000; 400]%nat) =
         (Return results, w') /\
       length results = 2400%nat /\ length (sent w') = 3%nat) /\
  (forall fuel, (4 <= fuel)%nat ->
     exists results w',
       query fuel "Invoice" options_max_1000
         (paged_world "Invoice" [1000; 1000; 1000; 0]%nat) =
         (Return results, w') /\
       length results = 3000%nat /\ length (sent w') = 4%nat /\
       page_at (paged_world "Invoice" [1000; 1000; 1000; 0]%nat) "Invoice" 3 = Some []).
Proof.
  split; [exact query_pages |]. split.
  - intros fuel Hfuel.
    destruct (query_pages "Invoice" options_max_1000
                (paged_world "Invoice" [1000; 1000; 400]%nat) _ _
                [repeat sample_doc 1000; repeat sample_doc 1000]
                (repeat sample_doc 400)
                (paged_world_token _ _)) as (Hrun & _ & Hcount & _).
    + intros [| [| i]] page [= <-]; split; by vm_compute.
    + by vm_compute.
    + by vm_compute.
    + eexists _, _. split; [apply Hrun; cbn; lia |].
      split; [by vm_compute |].
      unfold record_requests. cbn [sent]. rewrite length_app, Hcount. done.
  - intros fuel Hfuel.
    destruct (query_pages "Invoice" options_max_1000
                (paged_world "Invoice" [1000; 1000; 1000; 0]%nat) _ _
                [repeat sample_doc 1000; repeat sample_doc 1000; repeat sample_doc 1000]
                []
                (paged_world_token _ _)) as (Hrun & _ & Hcount & _).
    + intros [| [| [| i]]] page [= <-]; split; by vm_compute.
    + by vm_compute.
    + by vm_compute.
    + eexists _, _. split; [apply Hrun; cbn; lia |].
      split; [by vm_compute |]. split; [| by vm_compute].
      unfold record_requests. cbn [sent]. rewrite length_app, Hcount. done.
Qed.

(** ** Termination of the pagination loop *)

Lemma never_short (M : JsNumber) :
  (M = NaN \/ exists z, M = Num z /\ z <= 0) ->
  forall page : list Doc, length_lt page M = false.
Proof.
  intros [-> | (z & -> & Hz)] page; [done |].
  unfold length_lt. apply Z.ltb_ge. lia.
Qed.

Lemma short_page_positive (M : JsNumber) (page : list Doc) :
  length_lt page M = true -> exists z, M = Num z /\ 1 <= z.
Proof.
  destruct M as [z |]; [| done]. unfold length_lt. intros Hlt.
  apply Z.ltb_lt in Hlt. exists z. split; [done | lia].
Qed.

Lemma query_loop_returns_positive (url : string) (token : option string)
    (entity : string) (options : QueryOptions) (M : JsNumber) (fuel : nat) :
  forall (acc : list Doc) (position : Z) (w : World) results w',
    query_loop fuel url token entity options M acc position w = (Return results, w') ->
    exists z, M = Num z /\ 1 <= z.
Proof.
  induction fuel as [| fuel IH]; intros acc position w results w'; [done |].
  rewrite query_loop_step. cbv zeta.
  destruct (net w (length (sent w))) as [e | response]; [done |].
  destruct (ok response); [| done].
  destruct (json response) as [data |]; [| done].
  destruct (length_lt (query_results data entity) M) eqn:Hshort.
  - intros _. by apply (short_page_positive M (query_results data entity)).
  - apply IH.
Qed.

(** C10. [query] can return only when [maxResults] is at least 1.  When it is
    zero, negative or [NaN], no page is ever shorter than it: [query] never
    returns, and with a remote that keeps answering it sends request after
    request for as long as it is let run.  Such a value does reach [query]:
    [handleEntityQuery] passes on what [parseInt] makes of [--max], so that
    with [--max=0] it never returns either.  When
    some page is shorter than [maxResults] (which is then at least 1) the
    loop ends at that page at the latest. *)
Theorem query_terminates_only_for_positive_maxResults :
  (forall entity options fuel w results w',
      query fuel entity options w = (Return results, w') ->
      exists z, default (Num 1000) (maxResults options) = Num z /\ 1 <= z) /\
  (forall entity options,
      (maxResults options = Some NaN \/
       exists z, maxResults options = Some (Num z) /\ z <= 0) ->
      (forall fuel w results w',
          query fuel entity options w <> (Return results, w')) /\
      (forall fuel w w1 t,
          getValidAccessToken w = (Return t, w1) ->
          (forall k, (k < fuel)%nat -> is_Some (page_at w1 entity k)) ->
          (query fuel entity options w).1 = OutOfFuel /\
          length (sent (query fuel entity options w).2) =
            (length (sent w1) + fuel)%nat)) /\
  (forall (flags : gmap string string) (s : string),
      flags !! "max" = Some s -> s <> EmptyString ->
      maxResults (options_of_flags flags) = Some (parseInt s)) /\
  parseInt "0" = Num 0 /\ parseInt "-5" = Num (-5) /\ parseInt "many" = NaN /\
  (forall fuel entity w output w',
      handleEntityQuery fuel entity flags_max_0 w <> (Return output, w')) /\
  ((query 3 "Customer" (options_of_flags flags_max_0)
      (paged_world "Customer" [2; 0; 0]%nat)).1 = OutOfFuel /\
   length (sent (query 3 "Customer" (options_of_flags flags_max_0)
                   (paged_world "Customer" [2; 0; 0]%nat)).2) = 3%nat) /\
  (forall entity options w w1 t n page,
      getValidAccessToken w = (Return t, w1) ->
      page_at w1 entity n = Some page ->
      length_lt page (default (Num 1000) (maxResults options)) = true ->
      (query (S n) entity options w).1 <> OutOfFuel) /\
  (query 2 "Customer" options_max_1000 (paged_world "Customer" [1000; 2]%nat)).1 =
    Return (repeat sample_doc 1002).
Proof.
  assert (Hstuck : forall entity options,
      (maxResults options = Some NaN \/
       exists z, maxResults options = Some (Num z) /\ z <= 0) ->
      forall fuel w results w',
        query fuel entity options w <> (Return results, w')).
  { intros entity options Hbad fuel w results w'. unfold query, bind.
    destruct (getValidAccessToken w) as [[t | e |] w1]; [| done | done].
    apply query_loop_never_returns, never_short.
    destruct Hbad as [-> | (z & -> & Hz)]; [by left |]. right. by exists z. }
  split; [| split; [| split; [| split; [reflexivity | split; [reflexivity |
    split; [reflexivity | split; [| split; [by vm_compute |
    split; [| by vm_compute]]]]]]]]].
  - intros entity options fuel w results w'. unfold query, bind.
    destruct (getValidAccessToken w) as [[t | e |] w1]; [| done | done].
    apply query_loop_returns_positive.
  - intros entity options Hbad.
    assert (Hnever : forall page : list Doc,
               length_lt page (default (Num MAX_RESULTS_PER_PAGE) (maxResults options))
               = false).
    { apply never_short. destruct Hbad as [-> | (z & -> & Hz)]; [by left |].
      right. by exists z. }
    split; [by apply Hstuck |].
    intros fuel w w1 t Htoken Hanswers.
    rewrite (query_after_token fuel entity options w w1 t Htoken).
    destruct (query_loop_diverges (getApiUrl (String_of (realmId t))) (accessToken t)
                entity options _ fuel Hnever [] 1 w1 Hanswers) as (w' & -> & Hsent).
    done.
  - intros flags s Hmax Hs. unfold options_of_flags. rewrite Hmax. cbn.
    by destruct s.
  - intros fuel entity w output w'. unfold handleEntityQuery, bind.
    destruct (query fuel entity (options_of_flags flags_max_0) w)
      as [[results | e |] w1] eqn:Hrun; [| done | done].
    exfalso. apply (Hstuck entity (options_of_flags flags_max_0)) in Hrun; [done |].
    right. exists 0. by split.
  - intros entity options w w1 t n page Htoken Hpage Hshort.
    rewrite (query_after_token (S n) entity options w w1 t Htoken).
    by apply (query_loop_terminates _ _ _ _ _ n [] 1 w1 page).
Qed.

(** ** Failures of the remote calls *)

Lemma getById_after_token (entity id : string) (w w1 : World) (t : TokenInfo) :
  getValidAccessToken w = (Return t, w1) ->
  getById entity id w =
    let request := get_request (getEntityUrl (String_of (realmId t)) entity id)
                     (accessToken t) in
    match net w1 (length (sent w1)) with
    | NetworkError e => (Throw e, record_request request w1)
    | Responds response =>
        if ok response then
          match json response with
          | Some data =>
              (Return (Object_get (data_entity data) entity), record_request request w1)
          | None => (Throw (json_error response), record_request request w1)
          end
        else (Throw (api_error "QuickBooks API error: " response),
              record_request request w1)
    end.
Proof.
  intros Htoken. unfold getById, bind. rewrite Htoken. unfold fetch.
  destruct (net w1 (length (sent w1))) as [e | response]; [done |].
  destruct (ok response); [| done]. cbn [negb]. unfold response_json.
  by destruct (json response).
Qed.

(** C6. An answer with a status outside 200..299 ends the call at once with
    an error whose message holds the status code, the status text and the
    body as received: for the token refresh, for whichever page of a
    paginated query gets it, and for the lookup by ID.  The request that was
    answered so is the last one sent: nothing is tried again. *)
Theorem remote_failure_contract :
  (forall (w : World) (c : QBCredentials) (response : Response),
      file w = FileData c -> required_present c = true ->
      net w (length (sent w)) = Responds response -> ok response = false ->
      refreshAccessToken w =
        (Throw (Error (failure_message "Token refresh failed: " response)),
         record_request (token_request c) w)) /\
  (forall (entity : string) (options : QueryOptions) (w w1 : World) (t : TokenInfo)
          (pages : list (list Doc)) (response : Response) (fuel : nat),
      let M := default (Num 1000) (maxResults options) in
      let url := getApiUrl (String_of (realmId t)) in
      getValidAccessToken w = (Return t, w1) ->
      (forall i page, pages !! i = Some page ->
                      page_at w1 entity i = Some page /\ length_lt page M = false) ->
      net w1 (length (sent w1) + length pages) = Responds response ->
      ok response = false -> (length pages < fuel)%nat ->
      query fuel entity options w =
        (Throw (Error (failure_message "QuickBooks API error: " response)),
         record_requests
           (query_requests url (accessToken t) entity options M 1 pages ++
            [sql_request url (accessToken t)
               (query_sql entity options (1 + Z.of_nat (length (concat pages))) M)])
           w1)) /\
  (forall (entity id : string) (w w1 : World) (t : TokenInfo) (response : Response),
      getValidAccessToken w = (Return t, w1) ->
      net w1 (length (sent w1)) = Responds response -> ok response = false ->
      getById entity id w =
        (Throw (Error (failure_message "QuickBooks API error: " response)),
         record_request
           (get_request (getEntityUrl (String_of (realmId t)) entity id) (accessToken t))
           w1)) /\
  (exists w',
      getById "Invoice" "42" rejecting_world =
        (Throw (Error ("QuickBooks API error: 401 Unauthorized" +:+ nl +:+
                       "AuthenticationFailed")), w') /\
      length (sent w') = 1%nat) /\
  (exists w',
      query 5 "Invoice" default_options rejecting_world =
        (Throw (Error ("QuickBooks API error: 401 Unauthorized" +:+ nl +:+
                       "AuthenticationFailed")), w') /\
      length (sent w') = 1%nat) /\
  (exists w',
      refreshAccessToken expired_grant_world =
        (Throw (Error ("Token refresh failed: 400 Bad Request" +:+ nl +:+
                       "invalid_grant")), w') /\
      length (sent w') = 1%nat).
Proof.
  split; [| split; [| split; [| split; [| split]]]].
  - intros w c response Hfile Hreq Hnet Hbad.
    rewrite (refreshAccessToken_cases w c Hfile Hreq). cbv zeta.
    by rewrite Hnet, Hbad.
  - intros entity options w w1 t pages response fuel M url Htoken Hfull Hnet Hbad Hfuel.
    rewrite (query_after_token fuel entity options w w1 t Htoken).
    change MAX_RESULTS_PER_PAGE with 1000. fold M url.
    replace fuel with (length pages + S (fuel - S (length pages)))%nat by lia.
    rewrite (query_loop_full_pages url (accessToken t) entity options M pages) by done.
    rewrite query_loop_step. cbv zeta.
    unfold record_requests at 1 2. cbn [sent net].
    rewrite length_app, query_requests_length, Hnet, Hbad.
    by rewrite record_requests_cons_end.
  - intros entity id w w1 t response Htoken Hnet Hbad.
    rewrite (getById_after_token entity id w w1 t Htoken). cbv zeta.
    by rewrite Hnet, Hbad.
  - eexists. split; [by vm_compute | reflexivity].
  - eexists. split; [by vm_compute | reflexivity].
  - eexists. split; [by vm_compute | reflexivity].
Qed.

(** ** The connection check *)

Lemma loadCredentials_no_OutOfFuel (w : World) : (loadCredentials w).1 <> OutOfFuel.
Proof.
  unfold loadCredentials, try_catch.
  destruct (file w) as [e | data].
  - unfold throw. by destruct (is_ENOENT e).
  - by destruct (_ || _).
Qed.

Lemma refreshAccessToken_no_OutOfFuel (w : World) :
  (refreshAccessToken w).1 <> OutOfFuel.
Proof.
  destruct (loadCredentials w) as [[c | e |] w1] eqn:Hload.
  - apply loadCredentials_Return in Hload as (-> & Hfile & Hreq).
    rewrite (refreshAccessToken_cases w c Hfile Hreq). cbv zeta.
    destruct (net w (length (sent w))) as [e | response]; [done |].
    destruct (negb (ok response)); [done |].
    destruct (json response) as [data |]; [| done].
    destruct (negb (truthy (data_access_token data))); [done |].
    destruct (valid_time _); [| done].
    by destruct (write_error w).
  - unfold refreshAccessToken, bind. by rewrite Hload.
  - pose proof (loadCredentials_no_OutOfFuel w) as Hno. by rewrite Hload in Hno.
Qed.

Lemma cached_token_usable_no_OutOfFuel (c : QBCredentials) (w : World) :
  exists b w1, cached_token_usable c w = (Return b, w1).
Proof.
  unfold cached_token_usable. destruct (_ && _); by eexists _, _.
Qed.

Lemma getValidAccessToken_no_OutOfFuel (w : World) :
  (getValidAccessToken w).1 <> OutOfFuel.
Proof.
  destruct (loadCredentials w) as [[c | e |] w1] eqn:Hload.
  - apply loadCredentials_Return in Hload as (-> & Hfile & Hreq).
    rewrite (getValidAccessToken_cases w c Hfile Hreq).
    destruct (cached_token_usable_no_OutOfFuel c w) as ([] & w1 & ->); [done |].
    pose proof (refreshAccessToken_no_OutOfFuel w1) as Hno.
    destruct (refreshAccessToken w1) as [[c' | e |] w2]; [| done | done].
    by destruct (negb (truthy (access_token c'))).
  - unfold getValidAccessToken, bind. by rewrite Hload.
  - pose proof (loadCredentials_no_OutOfFuel w) as Hno. by rewrite Hload in Hno.
Qed.

(** C9. [checkConnection] returns a result whatever happens.  When the token
    cannot be had, when the request fails, when the answer is not a success
    or is not JSON, the result is [connected: false] with a description of
    the failure: the message of the error, or the status code, status text
    and body of the answer.  Otherwise it is [connected: true] with the
    company information of the answer and the realm ID. *)
Theorem checkConnection_never_raises (w : World) :
  exists (result : ConnectionStatus) (w' : World),
    checkConnection w = (Return result, w') /\
    ((connected result = false /\ is_Some (error result)) \/
     (connected result = true /\ error result = None)) /\
    match getValidAccessToken w with
    | (Return t, w1) =>
        match net w1 (length (sent w1)) with
        | NetworkError e => result = not_connected (message e)
        | Responds response =>
            if ok response then
              match json response with
              | Some data =>
                  result = {| connected := true;
                              companyInfo := data_CompanyInfo data;
                              status_realmId := realmId t;
                              error := None |}
              | None => result = not_connected (message (json_error response))
              end
            else result = not_connected (failure_message "API error: " response)
        end
    | (Throw e, _) => result = not_connected (message e)
    | (OutOfFuel, _) => False
    end.
Proof.
  pose proof (getValidAccessToken_no_OutOfFuel w) as Hno.
  unfold checkConnection, try_catch, bind.
  destruct (getValidAccessToken w) as [[t | e |] w1]; [| | done].
  - unfold fetch.
    destruct (net w1 (length (sent w1))) as [e | response].
    + eexists _, _. split; [reflexivity |]. split; [| reflexivity].
      left. split; [done | by eexists].
    + destruct (ok response); cbn [negb].
      * unfold response_json. destruct (json response) as [data |].
        -- eexists _, _. split; [reflexivity |]. split; [| reflexivity]. by right.
        -- eexists _, _. split; [reflexivity |]. split; [| reflexivity].
           left. split; [done | by eexists].
      * eexists _, _. split; [reflexivity |]. split; [| reflexivity].
        left. split; [done | by eexists].
  - eexists _, _. split; [reflexivity |]. split; [| reflexivity].
    left. split; [done | by eexists].
Qed.

Example checkConnection_connected :
  (checkConnection (company_world {| CompanyName := "Acme Ltd"; LegalName := None |})).1 =
  Return {| connected := true;
            companyInfo := Some {| CompanyName := "Acme Ltd"; LegalName := None |};
            status_realmId := Some "4620816365";
            error := None |}.
Proof. reflexivity. Qed.

Example checkConnection_rejected :
  (checkConnection rejecting_world).1 =
  Return (not_connected ("API error: 401 Unauthorized" +:+ nl +:+ "AuthenticationFailed")).
Proof. by vm_compute. Qed.

Example checkConnection_without_credentials :
  (checkConnection fresh_checkout_world).1 =
  Return (not_connected
            ("Credentials file not found at: /home/books/.claude/quickbooks-skill.local.json"
             +:+ nl +:+ nl +:+ "Run: npx tsx scripts/quickbooks.ts setup" +:+ nl +:+ nl +:+
             "For setup instructions.")).
Proof. by vm_compute. Qed.

(** ** Reference maps *)

(** Assignment to a key of a plain object. *)

Lemma Object_set_proto (value : string) (o : gmap string string) :
  Object_set "__proto__" value o = o.
Proof. reflexivity. Qed.

Lemma Object_set_insert (key value : string) (o : gmap string string) :
  key <> "__proto__" -> Object_set key value o = <[key := value]> o.
Proof.
  intros Hkey. unfold Object_set.
  destruct (String.eqb key "__proto__") eqn:Heq; [| done].
  by apply String.eqb_eq in Heq.
Qed.

Lemma Object_set_cases (key value : string) (o : gmap string string) :
  (key = "__proto__" /\ Object_set key value o = o) \/
  (key <> "__proto__" /\ Object_set key value o = <[key := value]> o).
Proof.
  destruct (decide (key = "__proto__")) as [-> | Hkey].
  - left. by rewrite Object_set_proto.
  - right. by rewrite Object_set_insert.
Qed.

Lemma Object_set_lookup_ne (key value other : string) (o : gmap string string) :
  other <> key -> Object_set key value o !! other = o !! other.
Proof.
  intros Hother. destruct (Object_set_cases key value o) as [[_ ->] | [_ ->]]; [done |].
  by apply lookup_insert_ne.
Qed.

Lemma Object_set_lookup_proto (key value : string) (o : gmap string string) :
  Object_set key value o !! "__proto__" = o !! "__proto__".
Proof.
  destruct (Object_set_cases key value o) as [[_ ->] | [Hkey ->]]; [done |].
  by apply lookup_insert_ne.
Qed.

Lemma Object_set_size (key value : string) (o : gmap string string) :
  (size (Object_set key value o) <= S (size o))%nat.
Proof.
  destruct (Object_set_cases key value o) as [[_ ->] | [_ ->]]; [lia |].
  rewrite map_size_insert. destruct (o !! key); cbn; lia.
Qed.

Lemma Object_set_keeps_keys (key value other : string) (o : gmap string string) :
  is_Some (o !! other) -> is_Some (Object_set key value o !! other).
Proof.
  intros Hother. destruct (Object_set_cases key value o) as [[_ ->] | [_ ->]]; [done |].
  rewrite lookup_insert. by case_decide.
Qed.

(** What the [for] loop over a page makes of the map. *)

Lemma add_ref_complete (refMap : gmap string string) (ref : Doc) :
  complete ref = true ->
  exists id name,
    Id ref = Some id /\ FullyQualifiedName ref = Some name /\
    id <> EmptyString /\ name <> EmptyString /\
    add_ref refMap ref = Object_set id name refMap.
Proof.
  unfold complete, add_ref. intros Hboth. rewrite Hboth.
  apply andb_prop in Hboth as [Hid Hname].
  destruct (Id ref) as [id |]; [| done].
  destruct (FullyQualifiedName ref) as [name |]; [| done].
  exists id, name. repeat split; try done.
  - by intros ->.
  - by intros ->.
Qed.

Lemma add_ref_incomplete (refMap : gmap string string) (ref : Doc) :
  complete ref = false -> add_ref refMap ref = refMap.
Proof. unfold complete, add_ref. by intros ->. Qed.

Lemma fold_add_ref_filter (refs : list Doc) :
  forall refMap : gmap string string,
    fold_left add_ref refs refMap = fold_left add_ref (List.filter complete refs) refMap.
Proof.
  induction refs as [| ref refs IH]; intros refMap; [done |].
  cbn [fold_left List.filter]. destruct (complete ref) eqn:Hc.
  - cbn [fold_left]. apply IH.
  - rewrite (add_ref_incomplete refMap ref Hc). apply IH.
Qed.

Lemma add_ref_size (refMap : gmap string string) (ref : Doc) :
  (size (add_ref refMap ref) <= S (size refMap))%nat.
Proof.
  destruct (complete ref) eqn:Hc.
  - destruct (add_ref_complete refMap ref Hc) as (id & name & _ & _ & _ & _ & ->).
    apply Object_set_size.
  - rewrite (add_ref_incomplete refMap ref Hc). lia.
Qed.

Lemma fold_add_ref_size (refs : list Doc) :
  forall refMap : gmap string string,
    (size (fold_left add_ref refs refMap) <= size refMap + length refs)%nat.
Proof.
  induction refs as [| ref refs IH]; intros refMap; cbn [fold_left length]; [lia |].
  specialize (IH (add_ref refMap ref)).
  pose proof (add_ref_size refMap ref). lia.
Qed.

(** An entry stays as it is through records that do not carry its key. *)
Lemma fold_add_ref_lookup_other (refs : list Doc) (key : string) :
  forall refMap : gmap string string,
    (forall ref, ref ∈ refs -> complete ref = true -> Id ref <> Some key) ->
    fold_left add_ref refs refMap !! key = refMap !! key.
Proof.
  induction refs as [| ref refs IH]; intros refMap Hother; [done |].
  cbn [fold_left]. rewrite IH.
  - destruct (complete ref) eqn:Hc.
    + destruct (add_ref_complete refMap ref Hc) as (id & name & Hid & _ & _ & _ & ->).
      apply Object_set_lookup_ne. intros ->.
      by apply (Hother ref); [apply elem_of_cons; left | |].
    + by rewrite (add_ref_incomplete refMap ref Hc).
  - intros r Hr. apply Hother. apply elem_of_cons. by right.
Qed.

(** A key, once in the map, stays in it. *)
Lemma fold_add_ref_keeps_keys (refs : list Doc) (key : string) :
  forall refMap : gmap string string,
    is_Some (refMap !! key) -> is_Some (fold_left add_ref refs refMap !! key).
Proof.
  induction refs as [| ref refs IH]; intros refMap Hkey; [done |].
  cbn [fold_left]. apply IH.
  destruct (complete ref) eqn:Hc.
  - destruct (add_ref_complete refMap ref Hc) as (id & name & _ & _ & _ & _ & ->).
    by apply Object_set_keeps_keys.
  - by rewrite (add_ref_incomplete refMap ref Hc).
Qed.

(** Every entry is there from the start or comes from a complete record. *)
Lemma fold_add_ref_origin (refs : list Doc) (key value : string) :
  forall refMap : gmap string string,
    fold_left add_ref refs refMap !! key = Some value ->
    refMap !! key = Some value \/
    exists ref, ref ∈ refs /\ Id ref = Some key /\ FullyQualifiedName ref = Some value /\
                key <> EmptyString /\ value <> EmptyString.
Proof.
  induction refs as [| ref refs IH]; intros refMap Hentry; [by left |].
  cbn [fold_left] in Hentry. apply IH in Hentry as [Hentry | (r & Hr & Hfound)].
  - destruct (complete ref) eqn:Hc.
    + destruct (add_ref_complete refMap ref Hc)
        as (id & name & Hid & Hname & Hid' & Hname' & Hadd).
      rewrite Hadd in Hentry.
      destruct (Object_set_cases id name refMap) as [[_ Hset] | [_ Hset]];
        rewrite Hset in Hentry; [by left |].
      rewrite lookup_insert in Hentry. case_decide as Hkey.
      * injection Hentry as <-. subst key. right. exists ref.
        split; [apply elem_of_cons; by left | done].
      * by left.
    + rewrite (add_ref_incomplete refMap ref Hc) in Hentry. by left.
  - right. exists r. split; [apply elem_of_cons; by right | done].
Qed.

(** The key [__proto__] never enters the map. *)
Lemma fold_add_ref_proto (refs : list Doc) :
  forall refMap : gmap string string,
    fold_left add_ref refs refMap !! "__proto__" = refMap !! "__proto__".
Proof.
  induction refs as [| ref refs IH]; intros refMap; [done |].
  cbn [fold_left]. rewrite IH. destruct (complete ref) eqn:Hc.
  - destruct (add_ref_complete refMap ref Hc) as (id & name & _ & _ & _ & _ & ->).
    apply Object_set_lookup_proto.
  - by rewrite (add_ref_incomplete refMap ref Hc).
Qed.

(** The entry of a complete record whose ID no later complete record has. *)
Lemma fold_add_ref_last_wins (before after : list Doc) (ref : Doc)
    (refMap : gmap string string) :
  complete ref = true -> Id ref <> Some "__proto__" ->
  (forall r, r ∈ after -> complete r = true -> Id r <> Id ref) ->
  fold_left add_ref (before ++ ref :: after) refMap !! String_of (Id ref) =
  FullyQualifiedName ref.
Proof.
  intros Hc Hplain Hlast. rewrite fold_left_app. cbn [fold_left].
  destruct (add_ref_complete (fold_left add_ref before refMap) ref Hc)
    as (id & name & Hid & Hname & _ & _ & ->).
  rewrite Hid, Hname. cbn [String_of].
  rewrite fold_add_ref_lookup_other.
  - rewrite Object_set_insert by (intros ->; by rewrite Hid in Hplain).
    apply lookup_insert_eq.
  - intros r Hr Hrc. rewrite <- Hid. by apply Hlast.
Qed.

Section RefsLoop.
Variables (url : string) (token : option string) (entityType : RefEntity).

Let name : string := RefEntity_name entityType.
Let request (position : Z) : Request :=
  sql_request url token (refs_sql entityType position).

(** One turn of the loop when the answer is a page. *)
Lemma refs_loop_page (fuel : nat) (refMap : gmap string string) (page : list Doc)
    (position : Z) (w : World) :
  page_at w name 0 = Some page ->
  refs_loop (S fuel) url token entityType refMap position w =
    if (length page =? 0)%nat
    then (Return refMap, record_request (request position) w)
    else if Z.of_nat (length page) <? MAX_RESULTS_PER_PAGE
    then (Return (fold_left add_ref page refMap), record_request (request position) w)
    else refs_loop fuel url token entityType (fold_left add_ref page refMap)
           (position + Z.of_nat (length page))
           (record_request (request position) w).
Proof.
  intros Hpage. destruct (page_at_0 w name page Hpage)
    as (response & data & Hnet & Hok & Hjson & <-).
  cbn [refs_loop]. unfold bind at 1. unfold fetch. rewrite Hnet, Hok. cbn [negb].
  unfold bind, response_json. rewrite Hjson. unfold ret at 1. fold name.
  destruct (length (query_results data name) =? 0)%nat; [done |].
  by destruct (Z.of_nat (length (query_results data name)) <? MAX_RESULTS_PER_PAGE).
Qed.

(** The loop goes through full pages, one request each. *)
Lemma refs_loop_full_pages (pages : list (list Doc)) :
  forall (fuel : nat) (refMap : gmap string string) (position : Z) (w : World),
    (forall i page, pages !! i = Some page ->
                    page_at w name i = Some page /\
                    MAX_RESULTS_PER_PAGE <= Z.of_nat (length page)) ->
    refs_loop (length pages + fuel) url token entityType refMap position w =
    refs_loop fuel url token entityType (fold_left add_ref (concat pages) refMap)
      (position + Z.of_nat (length (concat pages)))
      (record_requests (refs_requests url token entityType position pages) w).
Proof.
  induction pages as [| page pages IH]; intros fuel refMap position w Hpages.
  - cbn. by rewrite Z.add_0_r, record_requests_nil.
  - destruct (Hpages 0%nat page eq_refl) as [Hpage Hfull].
    cbn [length Nat.add]. rewrite (refs_loop_page _ refMap page position w Hpage).
    replace (length page =? 0)%nat with false
      by (symmetry; apply Nat.eqb_neq; unfold MAX_RESULTS_PER_PAGE in Hfull; lia).
    replace (Z.of_nat (length page) <? MAX_RESULTS_PER_PAGE) with false
      by (symmetry; apply Z.ltb_ge; lia).
    rewrite IH.
    + cbn [concat refs_requests]. rewrite record_requests_cons.
      rewrite length_app, fold_left_app. f_equal. lia.
    + intros i page' Hi. rewrite page_at_record_request. by apply (Hpages (S i)).
Qed.

Lemma refs_requests_length (pages : list (list Doc)) (position : Z) :
  length (refs_requests url token entityType position pages) = length pages.
Proof.
  revert position. induction pages as [| page pages IH]; intros position; [done |].
  cbn. by rewrite IH.
Qed.

(** Full pages followed by a short or empty one. *)
Lemma refs_loop_pages (pages : list (list Doc)) (last : list Doc) (fuel : nat)
    (w : World) :
  (forall i page, pages !! i = Some page ->
                  page_at w name i = Some page /\
                  MAX_RESULTS_PER_PAGE <= Z.of_nat (length page)) ->
  page_at w name (length pages) = Some last ->
  Z.of_nat (length last) < MAX_RESULTS_PER_PAGE ->
  (length pages < fuel)%nat ->
  exists w',
    refs_loop fuel url token entityType ∅ 1 w =
      (Return (fold_left add_ref (concat pages ++ last) ∅), w') /\
    length (sent w') = (length (sent w) + S (length pages))%nat.
Proof.
  intros Hfull Hlast Hshort Hfuel.
  replace fuel with (length pages + S (fuel - S (length pages)))%nat by lia.
  rewrite (refs_loop_full_pages pages) by done.
  set (w2 := record_requests _ w).
  assert (Hpage : page_at w2 name 0 = Some last).
  { subst w2. unfold page_at, record_requests in *. cbn.
    rewrite length_app, refs_requests_length, Nat.add_0_r. exact Hlast. }
  rewrite (refs_loop_page _ _ last _ w2 Hpage).
  rewrite fold_left_app.
  assert (Hsent : length (sent (record_request
                                  (request (1 + Z.of_nat (length (concat pages)))) w2)) =
                  (length (sent w) + S (length pages))%nat).
  { subst w2. cbn. rewrite !length_app, refs_requests_length. cbn. lia. }
  destruct (length last =? 0)%nat eqn:Hempty.
  - apply Nat.eqb_eq in Hempty. destruct last; [| done].
    eexists. split; [reflexivity | exact Hsent].
  - replace (Z.of_nat (length last) <? MAX_RESULTS_PER_PAGE) with true
      by (symmetry; apply Z.ltb_lt; lia).
    eexists. split; [reflexivity | exact Hsent].
Qed.
End RefsLoop.

(** C8, as stated, fails: a record that has both an ID and a display name is
    left out of the map when its ID is [__proto__], a key that the plain
    object of [getReferenceMaps] does not take. *)
Lemma getReferenceMaps_proto_record_counterexample :
  exists (refMap : gmap string string) (w' : World),
    getReferenceMaps 1 Customer (customers_world proto_refs) = (Return refMap, w') /\
    proto_ref ∈ proto_refs /\ complete proto_ref = true /\
    Id proto_ref = Some "__proto__" /\
    refMap !! "__proto__" = None /\
    refMap = {[ "1" := "Acme Ltd" ]}.
Proof.
  eexists _, _. split; [by vm_compute |].
  split; [apply elem_of_cons; by left |]. by vm_compute.
Qed.

(** C8, amended. When the remote serves full pages and then a page of fewer
    than 1000 records, possibly none, [getReferenceMaps] stops at that page,
    one request per page.  Its map is the one made from the scanned records
    that have both an ID and a display name: every entry comes from such a
    record, and the records that miss either leave no trace.  Every record
    that has both and whose ID is not [__proto__] has its ID in the map, with
    its own display name unless a later such record bears the same ID; the
    map never has the key [__proto__].  The map has at most as many entries
    as there are records scanned. *)
Theorem getReferenceMaps_complete_records_only (entityType : RefEntity)
    (w w1 : World) (t : TokenInfo) (pages : list (list Doc)) (last : list Doc)
    (fuel : nat) :
  getValidAccessToken w = (Return t, w1) ->
  (forall i page, pages !! i = Some page ->
                  page_at w1 (RefEntity_name entityType) i = Some page /\
                  1000 <= Z.of_nat (length page)) ->
  page_at w1 (RefEntity_name entityType) (length pages) = Some last ->
  Z.of_nat (length last) < 1000 ->
  (length pages < fuel)%nat ->
  let scanned := concat pages ++ last in
  exists (refMap : gmap string string) (w' : World),
    getReferenceMaps fuel entityType w = (Return refMap, w') /\
    length (sent w') = (length (sent w1) + S (length pages))%nat /\
    refMap = fold_left add_ref (List.filter complete scanned) ∅ /\
    (forall id display,
        refMap !! id = Some display ->
        id <> "__proto__" /\
        exists ref, ref ∈ scanned /\ Id ref = Some id /\
                    FullyQualifiedName ref = Some display /\
                    id <> EmptyString /\ display <> EmptyString) /\
    (forall ref, ref ∈ scanned -> complete ref = true -> Id ref <> Some "__proto__" ->
                 is_Some (refMap !! String_of (Id ref))) /\
    (forall before ref after,
        scanned = before ++ ref :: after -> complete ref = true ->
        Id ref <> Some "__proto__" ->
        (forall r, r ∈ after -> complete r = true -> Id r <> Id ref) ->
        refMap !! String_of (Id ref) = FullyQualifiedName ref) /\
    (size refMap <= length scanned)%nat.
Proof.
  intros Htoken Hfull Hlast Hshort Hfuel scanned.
  destruct (refs_loop_pages (getApiUrl (String_of (realmId t))) (accessToken t)
              entityType pages last fuel w1 Hfull Hlast Hshort Hfuel)
    as (w' & Hrun & Hsent).
  exists (fold_left add_ref scanned ∅), w'.
  split; [unfold getReferenceMaps, bind; by rewrite Htoken |].
  split; [exact Hsent |].
  split; [apply fold_add_ref_filter |].
  split; [| split; [| split]].
  - intros id display Hentry. split.
    + intros ->. by rewrite fold_add_ref_proto, lookup_empty in Hentry.
    + apply fold_add_ref_origin in Hentry as [Hentry | Hfound]; [| done].
      by rewrite lookup_empty in Hentry.
  - intros ref Hin Hc Hplain.
    destruct (list_elem_of_split scanned ref Hin) as (before & after & ->).
    rewrite fold_left_app. cbn [fold_left]. apply fold_add_ref_keeps_keys.
    destruct (add_ref_complete (fold_left add_ref before ∅) ref Hc)
      as (id & display & Hid & _ & _ & _ & ->).
    rewrite Hid. cbn [String_of].
    rewrite Object_set_insert by (intros ->; by rewrite Hid in Hplain).
    rewrite lookup_insert_eq. by eexists.
  - intros before ref after -> Hc Hplain Hlater. by apply fold_add_ref_last_wins.
  - pose proof (fold_add_ref_size scanned ∅) as Hsize.
    rewrite map_size_empty in Hsize. lia.
Qed.

Lemma getReferenceMaps_complete_records_only_witness :
  exists (refMap : gmap string string) (w' : World),
    getReferenceMaps 1 Customer (customers_world sample_refs) = (Return refMap, w') /\
    length (sent w') = 1%nat /\
    refMap !! "1" = Some "Acme Ltd" /\ refMap !! "2" = None /\
    refMap !! "4" = Some "Acme Ltd:Depot" /\ (size refMap <= 4)%nat.
Proof.
  destruct (getReferenceMaps_complete_records_only Customer
              (customers_world sample_refs)
              (advance_clock (customers_world sample_refs))
              (token_of sample_credentials) [] sample_refs 1 eq_refl)
    as (refMap & w' & Hrun & Hsent & Hmap & _ & _ & _ & Hsize).
  - intros i page Hi. destruct i; discriminate Hi.
  - reflexivity.
  - reflexivity.
  - apply Nat.lt_0_1.
  - exists refMap, w'. split; [exact Hrun |]. split; [exact Hsent |].
    split; [rewrite Hmap; reflexivity |].
    split; [rewrite Hmap; reflexivity |].
    split; [rewrite Hmap; reflexivity |].
    exact Hsize.
Defined.

(** * Further properties of the code *)

(** ** Credentials that cannot be loaded *)

Lemma loadCredentials_Throw (w w0 : World) (e : Exn) :
  loadCredentials w = (Throw e, w0) ->
  w0 = w /\
  match file w with
  | ReadError err =>
      e = if is_ENOENT err
          then Error ("Credentials file not found at: " +:+ getProjectTokenPath w +:+
                      nl +:+ nl +:+ "Run: npx tsx scripts/quickbooks.ts setup" +:+
                      nl +:+ nl +:+ "For setup instructions.")
          else err
  | FileData data =>
      required_present data = false /\
      e = Error ("Missing required fields in credentials file." +:+ nl +:+
                 "Required: client_id, client_secret, realm_id, refresh_token" +:+ nl +:+
                 "File: " +:+ getProjectTokenPath w)
  end.
Proof.
  unfold loadCredentials, try_catch, required_present.
  destruct (file w) as [err | data].
  - unfold throw. destruct (is_ENOENT err); by intros [= <- <-].
  - destruct (truthy (client_id data)), (truthy (client_secret data)),
      (truthy (realm_id data)), (truthy (refresh_token data)); cbn;
      unfold throw, ret; by intros [= <- <-].
Qed.

(** X1. When the credential file cannot be loaded, nothing is sent and nothing
    is changed.  A file that is not there gives the "not found" error that
    points to the setup command; a file that lacks one of the four required
    fields, or has it empty, gives the "missing required fields" error; any
    other error of reading or parsing is passed on as it is.  Every operation
    that needs a token fails with this same error, and [checkConnection]
    reports its message. *)
Theorem unloadable_credentials_stop_everything (w w0 : World) (e : Exn) :
  loadCredentials w = (Throw e, w0) ->
  w0 = w /\
  match file w with
  | ReadError err =>
      e = if is_ENOENT err
          then Error ("Credentials file not found at: " +:+ getProjectTokenPath w +:+
                      nl +:+ nl +:+ "Run: npx tsx scripts/quickbooks.ts setup" +:+
                      nl +:+ nl +:+ "For setup instructions.")
          else err
  | FileData data =>
      required_present data = false /\
      e = Error ("Missing required fields in credentials file." +:+ nl +:+
                 "Required: client_id, client_secret, realm_id, refresh_token" +:+ nl +:+
                 "File: " +:+ getProjectTokenPath w)
  end /\
  refreshAccessToken w = (Throw e, w) /\
  getValidAccessToken w = (Throw e, w) /\
  (forall fuel entity options, query fuel entity options w = (Throw e, w)) /\
  (forall entity id, getById entity id w = (Throw e, w)) /\
  (forall fuel entityType, getReferenceMaps fuel entityType w = (Throw e, w)) /\
  checkConnection w = (Return (not_connected (message e)), w).
Proof.
  intros Hload. destruct (loadCredentials_Throw w w0 e Hload) as [-> Hwhy].
  assert (Htoken : getValidAccessToken w = (Throw e, w))
    by (unfold getValidAccessToken, bind; by rewrite Hload).
  split; [done |]. split; [exact Hwhy |].
  split; [unfold refreshAccessToken, bind; by rewrite Hload |].
  split; [exact Htoken |].
  split; [intros fuel entity options; unfold query, bind; by rewrite Htoken |].
  split; [intros entity id; unfold getById, bind; by rewrite Htoken |].
  split; [intros fuel entityType; unfold getReferenceMaps, bind; by rewrite Htoken |].
  unfold checkConnection, try_catch, bind. by rewrite Htoken.
Qed.

Lemma unloadable_credentials_stop_everything_witness :
  (forall fuel, query fuel "Invoice" default_options fresh_checkout_world =
     (Throw (Error ("Credentials file not found at: " +:+
                    "/home/books/.claude/quickbooks-skill.local.json" +:+
                    nl +:+ nl +:+ "Run: npx tsx scripts/quickbooks.ts setup" +:+
                    nl +:+ nl +:+ "For setup instructions.")),
      fresh_checkout_world)) /\
  sent fresh_checkout_world = [].
Proof.
  split; [| reflexivity]. intros fuel.
  apply (unloadable_credentials_stop_everything fresh_checkout_world
           fresh_checkout_world _ eq_refl).
Defined.

(** ** Refreshing twice, and asking again after a refresh *)

Lemma refreshAccessToken_Return_loaded (w w' : World) (c' : QBCredentials) :
  refreshAccessToken w = (Return c', w') ->
  exists c, file w = FileData c /\ required_present c = true.
Proof.
  unfold refreshAccessToken, bind.
  destruct (loadCredentials w) as [[c | e |] w0] eqn:Hload; [| done | done].
  intros _. apply loadCredentials_Return in Hload as (_ & Hfile & Hreq).
  by exists c.
Qed.

(** X2. Refresh tokens rotate correctly across refreshes: after a refresh that
    returns, the stored refresh token is the one the response supplied, or the
    previous one when it supplied none or an empty one, and the next refresh
    presents exactly this stored token, with the same client credentials, to
    the token endpoint. *)
Theorem next_refresh_presents_the_stored_refresh_token (w w1 : World)
    (c1 : QBCredentials) :
  refreshAccessToken w = (Return c1, w1) ->
  exists c response data,
    file w = FileData c /\
    net w (length (sent w)) = Responds response /\ json response = Some data /\
    refresh_token c1 =
      match data_refresh_token data with
      | Some (String a rest) => Some (String a rest)
      | _ => refresh_token c
      end /\
    truthy (refresh_token c1) = true /\
    sent (refreshAccessToken w1).2 = sent w ++ [token_request c; token_request c1] /\
    body (token_request c1) =
      FormBody [("grant_type", "refresh_token");
                ("refresh_token", String_of (refresh_token c1))] /\
    authorization (token_request c1) = authorization (token_request c).
Proof.
  intros Hrun.
  destruct (refreshAccessToken_Return_loaded w w1 c1 Hrun) as (c & Hfile & Hreq).
  destruct (refreshAccessToken_Return w w1 c c1 Hfile Hreq Hrun)
    as (response & data & Hnet & _ & Hjson & Htoken & _ & _ & Hc1 & Hw1).
  pose proof (refreshed_well_formed c data (clock w (ticks w)) Hreq Htoken)
    as [Hreq1 _].
  rewrite <- Hc1 in Hreq1.
  exists c, response, data.
  split; [done |]. split; [done |]. split; [done |].
  split; [| split; [| split; [| split]]].
  - subst c1. cbn. unfold js_or_opt.
    by destruct (data_refresh_token data) as [[| a rest] |].
  - unfold required_present in Hreq1. by apply andb_prop in Hreq1 as [_ ?].
  - rewrite (refreshAccessToken_sent w1 c1); [| by subst w1 | done].
    subst w1. cbn. by rewrite <- app_assoc.
  - done.
  - by subst c1.
Qed.

Lemma next_refresh_presents_the_stored_refresh_token_witness :
  exists c1 w1,
    refreshAccessToken
      (refresh_world (token_json (Some "fresh-token") (Some "refresh-2") None)) =
      (Return c1, w1) /\
    refresh_token c1 = Some "refresh-2" /\
    body (token_request c1) =
      FormBody [("grant_type", "refresh_token"); ("refresh_token", "refresh-2")].
Proof.
  destruct (refreshAccessToken
              (refresh_world (token_json (Some "fresh-token") (Some "refresh-2") None)))
    as [[c1 | e |] w1] eqn:Hrun; [| by vm_compute in Hrun | by vm_compute in Hrun].
  destruct (next_refresh_presents_the_stored_refresh_token _ _ _ Hrun)
    as (c & response & data & Hfile & Hnet & Hjson & Hrot & _ & _ & Hbody & _).
  injection Hfile as <-. injection Hnet as <-. injection Hjson as <-.
  exists c1, w1. split; [reflexivity |]. split; [exact Hrot |].
  rewrite Hbody, Hrot. reflexivity.
Defined.

(** X3. The token that a refresh has stored is served from the record by a
    later call for as long as more than five minutes of its lifetime remain:
    with the expiry at the refresh time plus the lifetime, a call whose clock
    reading is more than 300000 ms before it returns the stored token and
    sends nothing; a call at or after that point refreshes again. *)
Theorem refreshed_token_is_served_until_five_minutes_before_expiry
    (w w1 : World) (c1 : QBCredentials) :
  refreshAccessToken w = (Return c1, w1) ->
  exists response data,
    net w (length (sent w)) = Responds response /\ json response = Some data /\
    let expiry := clock w (ticks w) + effective_lifetime data * 1000 in
    let later := clock w1 (ticks w1) in
    expiry_of c1 = Some expiry /\
    (5 * 60 * 1000 < expiry - later ->
     getValidAccessToken w1 =
       (Return {| accessToken := data_access_token data; realmId := realm_id c1 |},
        advance_clock w1)) /\
    (expiry - later <= 5 * 60 * 1000 ->
     sent (getValidAccessToken w1).2 = sent w1 ++ [token_request c1]).
Proof.
  intros Hrun.
  destruct (refreshAccessToken_Return_loaded w w1 c1 Hrun) as (c & Hfile & Hreq).
  destruct (refreshAccessToken_Return w w1 c c1 Hfile Hreq Hrun)
    as (response & data & Hnet & _ & Hjson & Htoken & Hvalid & _ & Hc1 & Hw1).
  pose proof (refreshed_well_formed c data (clock w (ticks w)) Hreq Htoken)
    as [Hreq1 _].
  rewrite <- Hc1 in Hreq1.
  assert (Hfile1 : file w1 = FileData c1) by (by subst w1).
  assert (Hlife : js_or (data_expires_in data) 3600 = effective_lifetime data).
  { unfold js_or, effective_lifetime, truthy, truthy_Z.
    destruct (data_expires_in data) as [seconds |]; [| done].
    by destruct (seconds =? 0). }
  rewrite Hlife in Hvalid.
  assert (Hexpiry : expiry_of c1 =
                    Some (clock w (ticks w) + effective_lifetime data * 1000)).
  { subst c1. unfold expiry_of, refreshed. cbn -[Z.mul Z.add].
    by rewrite Hlife, Hvalid. }
  assert (Haccess : access_token c1 = data_access_token data) by (by subst c1).
  exists response, data. split; [done |]. split; [done |]. cbv zeta.
  split; [exact Hexpiry |].
  rewrite (getValidAccessToken_cases w1 c1 Hfile1 Hreq1). split.
  - intros Hearly. unfold cached_token_usable.
    rewrite Haccess, Htoken, (expiry_of_Some c1 _ Hexpiry). cbn [andb].
    fold (expiry_of c1). rewrite Hexpiry. unfold bind, Date_now, ret.
    unfold expires_later_than_5_minutes.
    replace (5 * 60 * 1000 <? _) with true by (symmetry; apply Z.ltb_lt; exact Hearly).
    unfold token_of. by rewrite Haccess.
  - intros Hlate.
    destruct (cached_token_usable_stale w1 c1) as (w2 & Hw2 & ->).
    { right; right. eexists. split; [exact Hexpiry | exact Hlate]. }
    assert (Hfile2 : file w2 = FileData c1) by (destruct Hw2 as [-> | ->]; done).
    assert (Hsent2 : sent w2 = sent w1) by (destruct Hw2 as [-> | ->]; done).
    pose proof (refreshAccessToken_sent w2 c1 Hfile2 Hreq1) as Hs.
    rewrite Hsent2 in Hs.
    destruct (refreshAccessToken w2) as [[c2 | e |] w3]; [| done | done].
    by destruct (negb (truthy (access_token c2))).
Qed.

Lemma refreshed_token_is_served_until_five_minutes_before_expiry_witness :
  exists c1 w1,
    refreshAccessToken
      (refresh_world (token_json (Some "fresh-token") None (Some 3600))) =
      (Return c1, w1) /\
    getValidAccessToken w1 =
      (Return {| accessToken := Some "fresh-token"; realmId := Some "4620816365" |},
       advance_clock w1).
Proof.
  destruct (refreshAccessToken
              (refresh_world (token_json (Some "fresh-token") None (Some 3600))))
    as [[c1 | e |] w1] eqn:Hrun; [| by vm_compute in Hrun | by vm_compute in Hrun].
  destruct (refreshed_token_is_served_until_five_minutes_before_expiry _ _ _ Hrun)
    as (response & data & Hnet & Hjson & _ & Hcached & _).
  injection Hnet as <-. injection Hjson as <-.
  exists c1, w1. split; [reflexivity |].
  assert (Hc1 : realm_id c1 = Some "4620816365" /\ clock w1 (ticks w1) = 1700003500000).
  { revert Hrun. vm_compute. intros [= <- <-]. by split. }
  destruct Hc1 as [Hrealm Hclock].
  rewrite Hcached; [by rewrite Hrealm |].
  rewrite Hclock. by vm_compute.
Defined.

(** ** What the paginated calls do once they have their token *)

Lemma query_loop_footprint (url : string) (token : option string) (entity : string)
    (options : QueryOptions) (M : JsNumber) (fuel : nat) :
  forall (acc : list Doc) (position : Z) (w : World),
    exists reqs,
      sent (query_loop fuel url token entity options M acc position w).2 =
        sent w ++ reqs /\
      (length reqs <= fuel)%nat /\
      Forall (paginated_request url token) reqs /\
      file (query_loop fuel url token entity options M acc position w).2 = file w /\
      ticks (query_loop fuel url token entity options M acc position w).2 = ticks w.
Proof.
  induction fuel as [| fuel IH]; intros acc position w.
  - exists []. cbn. by rewrite app_nil_r.
  - rewrite query_loop_step. cbv zeta.
    set (req := sql_request url token (query_sql entity options position M)).
    assert (Hreq : paginated_request url token req)
      by (repeat split; by eexists).
    assert (Hone : exists reqs,
               sent (record_request req w) = sent w ++ reqs /\
               (length reqs <= S fuel)%nat /\
               Forall (paginated_request url token) reqs /\
               file (record_request req w) = file w /\
               ticks (record_request req w) = ticks w).
    { exists [req]. repeat split; [cbn; lia | by constructor]. }
    destruct (net w (length (sent w))) as [e | response]; [exact Hone |].
    destruct (ok response); [| exact Hone].
    destruct (json response) as [data |]; [| exact Hone].
    destruct (length_lt (query_results data entity) M); [exact Hone |].
    destruct (IH (acc ++ query_results data entity)
                (position + Z.of_nat (length (query_results data entity)))
                (record_request req w)) as (reqs & Hsent & Hlen & Hall & Hfile & Hticks).
    exists (req :: reqs). rewrite Hsent, Hfile, Hticks. cbn.
    rewrite <- app_assoc. repeat split; [lia | by constructor].
Qed.

Lemma refs_loop_step (url : string) (token : option string) (entityType : RefEntity)
    (fuel : nat) (refMap : gmap string string) (position : Z) (w : World) :
  refs_loop (S fuel) url token entityType refMap position w =
    let w1 := record_request (sql_request url token (refs_sql entityType position)) w in
    match net w (length (sent w)) with
    | NetworkError e => (Throw e, w1)
    | Responds response =>
        if ok response then
          match json response with
          | Some data =>
              let refs := query_results data (RefEntity_name entityType) in
              if (length refs =? 0)%nat then (Return refMap, w1)
              else if Z.of_nat (length refs) <? MAX_RESULTS_PER_PAGE
              then (Return (fold_left add_ref refs refMap), w1)
              else refs_loop fuel url token entityType (fold_left add_ref refs refMap)
                     (position + Z.of_nat (length refs)) w1
          | None => (Throw (json_error response), w1)
          end
        else (Throw (api_error "QuickBooks API error: " response), w1)
    end.
Proof.
  cbn [refs_loop]. unfold bind at 1. unfold fetch.
  destruct (net w (length (sent w))) as [e | response]; [done |].
  destruct (ok response); [| done]. cbn [negb].
  unfold bind, response_json.
  destruct (json response) as [data |]; [| done].
  unfold ret at 1.
  destruct (length (query_results data (RefEntity_name entityType)) =? 0)%nat; [done |].
  by destruct (Z.of_nat (length (query_results data (RefEntity_name entityType)))
               <? MAX_RESULTS_PER_PAGE).
Qed.

Lemma refs_loop_footprint (url : string) (token : option string)
    (entityType : RefEntity) (fuel : nat) :
  forall (refMap : gmap string string) (position : Z) (w : World),
    exists reqs,
      sent (refs_loop fuel url token entityType refMap position w).2 = sent w ++ reqs /\
      (length reqs <= fuel)%nat /\
      Forall (paginated_request url token) reqs /\
      file (refs_loop fuel url token entityType refMap position w).2 = file w /\
      ticks (refs_loop fuel url token entityType refMap position w).2 = ticks w.
Proof.
  induction fuel as [| fuel IH]; intros refMap position w.
  - exists []. cbn. by rewrite app_nil_r.
  - rewrite refs_loop_step. cbv zeta.
    set (req := sql_request url token (refs_sql entityType position)).
    assert (Hreq : paginated_request url token req)
      by (repeat split; by eexists).
    assert (Hone : exists reqs,
               sent (record_request req w) = sent w ++ reqs /\
               (length reqs <= S fuel)%nat /\
               Forall (paginated_request url token) reqs /\
               file (record_request req w) = file w /\
               ticks (record_request req w) = ticks w).
    { exists [req]. repeat split; [cbn; lia | by constructor]. }
    destruct (net w (length (sent w))) as [e | response]; [exact Hone |].
    destruct (ok response); [| exact Hone].
    destruct (json response) as [data |]; [| exact Hone].
    destruct (length (query_results data (RefEntity_name entityType)) =? 0)%nat;
      [exact Hone |].
    destruct (Z.of_nat (length (query_results data (RefEntity_name entityType)))
              <? MAX_RESULTS_PER_PAGE); [exact Hone |].
    destruct (IH (fold_left add_ref (query_results data (RefEntity_name entityType))
                    refMap)
                (position +
                 Z.of_nat (length (query_results data (RefEntity_name entityType))))
                (record_request req w)) as (reqs & Hsent & Hlen & Hall & Hfile & Hticks).
    exists (req :: reqs). rewrite Hsent, Hfile, Hticks. cbn.
    rewrite <- app_assoc. repeat split; [lia | by constructor].
Qed.

(** X4. Once [query] or [getReferenceMaps] has its token it keeps to it,
    whatever the remote answers and however long the pagination runs: every
    further request is a POST to the query endpoint of the realm with that
    same bearer token, at most one per turn of the loop; the token is not
    refreshed, the clock is not read and the credential file is not written
    again. *)
Theorem paginated_calls_keep_their_token (w w1 : World) (t : TokenInfo) :
  getValidAccessToken w = (Return t, w1) ->
  let url := getApiUrl (String_of (realmId t)) in
  (forall fuel entity options,
      exists reqs,
        sent (query fuel entity options w).2 = sent w1 ++ reqs /\
        (length reqs <= fuel)%nat /\
        Forall (paginated_request url (accessToken t)) reqs /\
        file (query fuel entity options w).2 = file w1 /\
        ticks (query fuel entity options w).2 = ticks w1) /\
  (forall fuel entityType,
      exists reqs,
        sent (getReferenceMaps fuel entityType w).2 = sent w1 ++ reqs /\
        (length reqs <= fuel)%nat /\
        Forall (paginated_request url (accessToken t)) reqs /\
        file (getReferenceMaps fuel entityType w).2 = file w1 /\
        ticks (getReferenceMaps fuel entityType w).2 = ticks w1).
Proof.
  intros Htoken url. split.
  - intros fuel entity options.
    rewrite (query_after_token fuel entity options w w1 t Htoken).
    apply query_loop_footprint.
  - intros fuel entityType. unfold getReferenceMaps, bind. rewrite Htoken.
    apply refs_loop_footprint.
Qed.

Lemma paginated_calls_keep_their_token_witness :
  exists reqs,
    sent (query 5 "Invoice" options_max_1000
            (paged_world "Invoice" [1000; 1000; 400]%nat)).2 = [] ++ reqs /\
    Forall (paginated_request
              "https://quickbooks.api.intuit.com/v3/company/4620816365/query?minorversion=75"
              (Some "cached-token")) reqs.
Proof.
  destruct (paginated_calls_keep_their_token
              (paged_world "Invoice" [1000; 1000; 400]%nat) _ _
              (paged_world_token "Invoice" [1000; 1000; 400]%nat)) as [Hquery _].
  destruct (Hquery 5%nat "Invoice" options_max_1000)
    as (reqs & Hsent & _ & Hall & _).
  exists reqs. split; [exact Hsent | exact Hall].
Defined.

(** X5. [getReferenceMaps] has the failure contract of the other remote
    calls, at whichever page the failure comes: an answer with a status
    outside 200..299 ends it with the error that holds the status code, the
    status text and the body, a request that fails ends it with that error,
    and so does a body that is not JSON.  The entries gathered from the
    earlier pages are not returned, and the failed request is the last one
    sent. *)
Theorem getReferenceMaps_fails_without_a_partial_map (entityType : RefEntity)
    (w w1 : World) (t : TokenInfo) (pages : list (list Doc)) (fuel : nat) :
  getValidAccessToken w = (Return t, w1) ->
  (forall i page, pages !! i = Some page ->
                  page_at w1 (RefEntity_name entityType) i = Some page /\
                  1000 <= Z.of_nat (length page)) ->
  (length pages < fuel)%nat ->
  match net w1 (length (sent w1) + length pages) with
  | NetworkError e =>
      (getReferenceMaps fuel entityType w).1 = Throw e /\
      length (sent (getReferenceMaps fuel entityType w).2) =
        (length (sent w1) + S (length pages))%nat
  | Responds response =>
      (ok response = false ->
       (getReferenceMaps fuel entityType w).1 =
         Throw (Error (failure_message "QuickBooks API error: " response)) /\
       length (sent (getReferenceMaps fuel entityType w).2) =
         (length (sent w1) + S (length pages))%nat) /\
      (ok response = true -> json response = None ->
       (getReferenceMaps fuel entityType w).1 = Throw (json_error response) /\
       length (sent (getReferenceMaps fuel entityType w).2) =
         (length (sent w1) + S (length pages))%nat)
  end.
Proof.
  intros Htoken Hfull Hfuel.
  unfold getReferenceMaps, bind. rewrite Htoken.
  replace fuel with (length pages + S (fuel - S (length pages)))%nat by lia.
  rewrite (refs_loop_full_pages _ _ entityType pages) by done.
  set (w2 := record_requests _ w1).
  assert (Hnet2 : net w2 (length (sent w2)) =
                  net w1 (length (sent w1) + length pages)).
  { subst w2. cbn. by rewrite length_app, refs_requests_length. }
  assert (Hlen2 : forall req,
             length (sent (record_request req w2)) =
             (length (sent w1) + S (length pages))%nat).
  { intros req. subst w2. cbn. rewrite !length_app, refs_requests_length. cbn. lia. }
  rewrite refs_loop_step. cbv zeta. rewrite Hnet2.
  destruct (net w1 (length (sent w1) + length pages)) as [e | response].
  - split; [done | apply Hlen2].
  - split.
    + intros ->. split; [done | apply Hlen2].
    + intros -> ->. split; [done | apply Hlen2].
Qed.

Lemma getReferenceMaps_fails_without_a_partial_map_witness :
  (getReferenceMaps 1 Customer rejecting_world).1 =
    Throw (Error ("QuickBooks API error: 401 Unauthorized" +:+ nl +:+
                  "AuthenticationFailed")) /\
  length (sent (getReferenceMaps 1 Customer rejecting_world).2) = 1%nat.
Proof.
  assert (Hfull : forall (i : nat) (page : list Doc),
             ([] : list (list Doc)) !! i = Some page ->
             page_at (advance_clock rejecting_world) (RefEntity_name Customer) i =
               Some page /\ 1000 <= Z.of_nat (length page))
    by (intros i page Hi; destruct i; discriminate Hi).
  destruct (getReferenceMaps_fails_without_a_partial_map Customer rejecting_world
              (advance_clock rejecting_world) (token_of sample_credentials) [] 1
              eq_refl Hfull (Nat.lt_0_1)) as [Hbad _].
  destruct (Hbad eq_refl) as [Herror Hsent]. split; [| exact Hsent].
  rewrite Herror. reflexivity.
Defined.

(** ** Lookup by ID *)

(** X6. On a successful answer [getById] sends one GET, with the bearer
    token, to the URL of the realm that has the entity name in lower case and
    the ID as given, whatever the capitalisation of the name.  It returns
    what the answer holds under the entity name exactly as the caller wrote
    it.  When the answer has no such key, the result is what every object
    inherits under that name (for [constructor], [toString], [__proto__] and
    the other names of [Object.prototype]), and [undefined] for any other
    name; neither is an error. *)
Theorem getById_reads_the_exact_key (entity id : string) (w w1 : World) (t : TokenInfo)
    (response : Response) (data : Json) :
  getValidAccessToken w = (Return t, w1) ->
  net w1 (length (sent w1)) = Responds response -> ok response = true ->
  json response = Some data ->
  let request :=
    {| url := "https://quickbooks.api.intuit.com/v3/company/" +:+
              String_of (realmId t) +:+ "/" +:+ toLowerCase entity +:+ "/" +:+ id +:+
              "?minorversion=75";
       method := "GET";
       authorization := Bearer (String_of (accessToken t));
       accept := "application/json";
       content_type := None;
       body := NoBody |} in
  (exists result,
      getById entity id w = (Return result, record_request request w1) /\
      (forall record, data_entity data !! entity = Some record ->
                      result = Some (Own record)) /\
      (data_entity data !! entity = None -> In entity Object_prototype_names ->
       result = Some (Inherited entity)) /\
      (data_entity data !! entity = None -> ~ In entity Object_prototype_names ->
       result = None)) /\
  (forall other,
      toLowerCase other = toLowerCase entity ->
      sent (getById other id w).2 = sent w1 ++ [request]).
Proof.
  intros Htoken Hnet Hok Hjson request.
  assert (Hrun : forall name,
             getById name id w =
             (Return (Object_get (data_entity data) name),
              record_request
                (get_request (getEntityUrl (String_of (realmId t)) name id)
                   (accessToken t)) w1)).
  { intros name. rewrite (getById_after_token name id w w1 t Htoken). cbv zeta.
    by rewrite Hnet, Hok, Hjson. }
  assert (Hrequest : forall name,
             toLowerCase name = toLowerCase entity ->
             get_request (getEntityUrl (String_of (realmId t)) name id) (accessToken t) =
             request).
  { intros name Hsame. unfold get_request, getEntityUrl. rewrite Hsame.
    by change (pretty MINOR_VERSION) with "75". }
  split.
  - exists (Object_get (data_entity data) entity).
    split; [by rewrite Hrun, Hrequest |].
    unfold Object_get.
    pose proof (Array_includes_In Object_prototype_names entity) as Hin.
    destruct (data_entity data !! entity) as [record |].
    + split; [by intros ? [= <-] |]. by split.
    + split; [done |].
      destruct (Array_includes Object_prototype_names entity).
      * split; [done |]. intros _ Hnot. destruct Hnot. by apply Hin.
      * split; [| done]. intros _ Hyes. apply Hin in Hyes. done.
  - intros other Hsame. by rewrite Hrun, (Hrequest other Hsame).
Qed.

Lemma getById_reads_the_exact_key_witness :
  (getById "Invoice" "42" (record_world "Invoice" sample_doc)).1 =
    Return (Some (Own sample_doc)) /\
  (getById "invoice" "42" (record_world "Invoice" sample_doc)).1 = Return None /\
  (getById "constructor" "42" (record_world "Invoice" sample_doc)).1 =
    Return (Some (Inherited "constructor")) /\
  sent (getById "INVOICE" "42" (record_world "Invoice" sample_doc)).2 =
    [ {| url := "https://quickbooks.api.intuit.com/v3/company/4620816365/invoice/42?minorversion=75";
         method := "GET";
         authorization := Bearer "cached-token";
         accept := "application/json";
         content_type := None;
         body := NoBody |} ].
Proof.
  destruct (getById_reads_the_exact_key "Invoice" "42"
              (record_world "Invoice" sample_doc)
              (advance_clock (record_world "Invoice" sample_doc))
              (token_of sample_credentials) _ _ eq_refl eq_refl eq_refl eq_refl)
    as [(result & Hrun & Hown & _) Hother].
  split; [by rewrite Hrun, (Hown sample_doc eq_refl) |].
  split; [reflexivity |]. split; [reflexivity |].
  rewrite (Hother "INVOICE" eq_refl). reflexivity.
Defined.

(** ** The WHERE clause *)

(** X7. The filter of a query.  Without a start, an end or a condition (an
    empty string counts as none) there is no WHERE clause at all.  A raw
    condition alone is the whole clause, character for character.  With all
    three, the clause is the start bound, the end bound and the raw condition
    joined by AND in this order, the bounds on the [queryBy] field, which is
    the last-update time when none is named. *)
Theorem whereClause_shape (options : QueryOptions) :
  (truthy (start options) = false -> truthy (end_ options) = false ->
   truthy (where_ options) = false ->
   whereClause options = EmptyString /\
   forall entity position M,
     query_sql entity options position M =
     "SELECT * FROM " +:+ entity +:+ "  " +:+ orderBy entity +:+
     " STARTPOSITION " +:+ pretty position +:+ " MAXRESULTS " +:+ Number_toString M) /\
  (forall condition,
      truthy (start options) = false -> truthy (end_ options) = false ->
      where_ options = Some condition -> condition <> EmptyString ->
      whereClause options = "WHERE " +:+ condition) /\
  (forall from to condition,
      start options = Some from -> from <> EmptyString ->
      end_ options = Some to -> to <> EmptyString ->
      where_ options = Some condition -> condition <> EmptyString ->
      let field := default "MetaData.LastUpdatedTime" (queryBy options) in
      whereClause options =
      "WHERE " +:+ field +:+ " >= " +:+ formatDateForQuery from false +:+ " AND " +:+
      field +:+ " <= " +:+ formatDateForQuery to true +:+ " AND " +:+ condition).
Proof.
  split; [| split].
  - intros Hstart Hend Hwhere.
    assert (Hnone : whereClause options = EmptyString)
      by (unfold whereClause, conditions; by rewrite Hstart, Hend, Hwhere).
    split; [exact Hnone |]. intros entity position M.
    unfold query_sql. rewrite Hnone. reflexivity.
  - intros condition Hstart Hend Hwhere Hcondition.
    unfold whereClause, conditions. rewrite Hstart, Hend, Hwhere.
    destruct condition; [done | reflexivity].
  - intros from to condition Hstart Hfrom Hend Hto Hwhere Hcondition field.
    unfold whereClause, conditions. rewrite Hstart, Hend, Hwhere.
    destruct from; [done |]. destruct to; [done |]. destruct condition; [done |].
    cbn [truthy truthy_option truthy_string String_of app length Nat.ltb Nat.leb].
    unfold join. cbn [String.concat]. fold field.
    by rewrite !append_assoc.
Qed.

Lemma whereClause_shape_witness :
  whereClause january_options =
    "WHERE MetaData.LastUpdatedTime >= '2024-01-01T00:00:00Z'" +:+
    " AND MetaData.LastUpdatedTime <= '2024-01-31T23:59:59Z'" +:+
    " AND Balance > '0'".
Proof.
  destruct (whereClause_shape january_options) as (_ & _ & Hall).
  rewrite (Hall "2024-01-01" "2024-01-31" "Balance > '0'");
    [reflexivity | reflexivity | discriminate | reflexivity | discriminate
    | reflexivity | discriminate].
Defined.

(** ** Command-line arguments *)

Lemma String_split_cons (sep : ascii) (s : string) :
  exists piece pieces, String_split sep s = piece :: pieces.
Proof.
  induction s as [| c s (piece & pieces & IH)]; [by eexists _, _ |].
  cbn. destruct (Ascii.eqb c sep); [by eexists _, _ |].
  rewrite IH. by eexists _, _.
Qed.

Lemma join_cons (sep x y : string) (l : list string) :
  join sep (x :: y :: l) = x +:+ sep +:+ join sep (y :: l).
Proof. reflexivity. Qed.

(** Joining the pieces with the separator gives the string back. *)
Lemma join_String_split (sep : ascii) (s : string) :
  join (String sep EmptyString) (String_split sep s) = s.
Proof.
  induction s as [| c s IH]; [reflexivity |].
  cbn [String_split].
  destruct (String_split_cons sep s) as (piece & pieces & Hs).
  rewrite Hs in IH |- *.
  destruct (Ascii.eqb_spec c sep) as [-> | Hc].
  - rewrite join_cons, IH. reflexivity.
  - destruct pieces as [| next pieces].
    + cbn in IH |- *. by rewrite IH.
    + rewrite join_cons in IH |- *. rewrite append_cons. by rewrite IH.
Qed.

(** The pieces of [key=value] when the key has no separator in it. *)
Lemma String_split_key_value (sep : ascii) (key value : string) :
  includes (String sep EmptyString) key = false ->
  String_split sep key = [key] /\
  String_split sep (key +:+ String sep value) = key :: String_split sep value.
Proof.
  induction key as [| c key IH]; intros Hkey.
  - split; [reflexivity |].
    change (EmptyString +:+ String sep value) with (String sep value).
    cbn [String_split]. by rewrite Ascii.eqb_refl.
  - cbn [includes String.prefix] in Hkey.
    apply orb_false_elim in Hkey as [Hhere Hrest].
    assert (Hc : Ascii.eqb c sep = false).
    { apply Ascii.eqb_neq. intros ->. destruct (ascii_dec sep sep); [| done].
      by destruct key. }
    destruct (IH Hrest) as [Hone Htwo].
    rewrite append_cons. cbn [String_split]. by rewrite Hc, Hone, Htwo.
Qed.

Lemma startsWith_dashes (s : string) : startsWith "--" ("--" +:+ s) = true.
Proof. by destruct s. Qed.

Lemma parseArgs_snoc (args : list string) (arg : string) :
  parseArgs (args ++ [arg]) = parseArgs_step (parseArgs args) arg.
Proof. unfold parseArgs. by rewrite fold_left_app. Qed.

(** What the loop keeps true of its accumulator. *)
Lemma parseArgs_fold (args : list string) :
  forall parsed : ParsedArgs,
    (forall key value, flags parsed !! key = Some value -> value <> EmptyString) ->
    positional (fold_left parseArgs_step args parsed) =
      positional parsed ++ List.filter (fun arg => negb (startsWith "--" arg)) args /\
    (forall key value,
        flags (fold_left parseArgs_step args parsed) !! key = Some value ->
        value <> EmptyString).
Proof.
  induction args as [| arg args IH]; intros parsed Hvalues.
  - cbn. by rewrite app_nil_r.
  - cbn [fold_left List.filter].
    assert (Hstep : forall key value,
               flags (parseArgs_step parsed arg) !! key = Some value ->
               value <> EmptyString).
    { unfold parseArgs_step.
      destruct (startsWith "--" arg); cbn [flags]; [| apply Hvalues].
      intros key value.
      set (name := String_of _). set (given := join "=" _).
      destruct (Object_set_cases name (js_or (Some given) "true") (flags parsed))
        as [[_ ->] | [_ ->]]; [apply Hvalues |].
      rewrite lookup_insert. case_decide; [| apply Hvalues].
      intros [= <-]. by destruct given. }
    destruct (IH _ Hstep) as [Hpos Hvals]. split; [| exact Hvals].
    rewrite Hpos. unfold parseArgs_step.
    destruct (startsWith "--" arg); cbn; [done | by rewrite <- app_assoc].
Qed.

(** The flags are the properties of a plain object: none is ever recorded
    under [__proto__]. *)
Lemma parseArgs_fold_proto (args : list string) :
  forall parsed : ParsedArgs,
    flags (fold_left parseArgs_step args parsed) !! "__proto__" =
    flags parsed !! "__proto__".
Proof.
  induction args as [| arg args IH]; intros parsed; [done |].
  cbn [fold_left]. rewrite IH. unfold parseArgs_step.
  destruct (startsWith "--" arg); cbn [flags]; [| done].
  apply Object_set_lookup_proto.
Qed.

(** X8. [parseArgs] keeps the arguments that do not start with two dashes as
    the positional arguments, all of them and in the order given, and no flag
    it records has an empty value: a flag without a value, or with an empty
    one, is recorded as "true".  The one name that is never recorded is
    [__proto__]: a flag of this name is dropped, whatever its value. *)
Theorem parseArgs_positional_and_values (args : list string) :
  positional (parseArgs args) =
    List.filter (fun arg => negb (startsWith "--" arg)) args /\
  (forall key value, flags (parseArgs args) !! key = Some value ->
                     value <> EmptyString) /\
  (forall key, includes "=" key = false -> key <> "__proto__" ->
               flags (parseArgs (args ++ ["--" +:+ key])) !! key = Some "true") /\
  (forall key, includes "=" key = false -> key <> "__proto__" ->
               flags (parseArgs (args ++ ["--" +:+ key +:+ "="])) !! key = Some "true") /\
  flags (parseArgs args) !! "__proto__" = None /\
  flags (parseArgs (args ++ ["--__proto__"])) = flags (parseArgs args) /\
  (forall value,
      flags (parseArgs (args ++ ["--__proto__=" +:+ value])) = flags (parseArgs args)).
Proof.
  destruct (parseArgs_fold args {| flags := ∅; positional := [] |}) as [Hpos Hvals].
  { intros key value. cbn. by rewrite lookup_empty. }
  split; [exact Hpos |]. split; [exact Hvals |]. split; [| split; [| split; [| split]]].
  - intros key Hkey Hplain.
    rewrite parseArgs_snoc. unfold parseArgs_step.
    rewrite startsWith_dashes.
    change (String_slice 2 ("--" +:+ key)) with key.
    destruct (String_split_key_value "="%char key EmptyString Hkey) as [-> _].
    cbn. rewrite Object_set_insert by done. apply lookup_insert_eq.
  - intros key Hkey Hplain. rewrite parseArgs_snoc. unfold parseArgs_step.
    rewrite startsWith_dashes.
    change (String_slice 2 ("--" +:+ key +:+ "=")) with (key +:+ "=").
    destruct (String_split_key_value "="%char key EmptyString Hkey) as [_ ->].
    cbn. rewrite Object_set_insert by done. apply lookup_insert_eq.
  - unfold parseArgs. by rewrite parseArgs_fold_proto.
  - by rewrite parseArgs_snoc.
  - intros value. rewrite parseArgs_snoc. unfold parseArgs_step.
    change ("--__proto__=" +:+ value) with ("--" +:+ "__proto__" +:+ "=" +:+ value).
    rewrite startsWith_dashes.
    change (String_slice 2 ("--" +:+ "__proto__" +:+ "=" +:+ value))
      with ("__proto__" +:+ String "="%char value).
    destruct (String_split_key_value "="%char "__proto__" value eq_refl) as [_ ->].
    cbn [head tail String_of flags]. apply Object_set_proto.
Qed.

(** X9. A flag [--key=value], for a key other than [__proto__], is recorded
    under [key] with everything after the first equals sign as its value,
    further equals signs included.  The last occurrence of a flag wins, and a
    flag changes neither the other flags nor the positional arguments. *)
Theorem parseArgs_key_value (args : list string) (key value : string) :
  includes "=" key = false -> key <> "__proto__" -> value <> EmptyString ->
  let parsed := parseArgs (args ++ ["--" +:+ key +:+ "=" +:+ value]) in
  flags parsed !! key = Some value /\
  (forall other, other <> key ->
                 flags parsed !! other = flags (parseArgs args) !! other) /\
  positional parsed = positional (parseArgs args).
Proof.
  intros Hkey Hplain Hvalue parsed. subst parsed.
  rewrite parseArgs_snoc. unfold parseArgs_step.
  rewrite startsWith_dashes.
  change (String_slice 2 ("--" +:+ key +:+ "=" +:+ value))
    with (key +:+ String "="%char value).
  destruct (String_split_key_value "="%char key value Hkey) as [_ ->].
  cbn [head tail String_of flags positional].
  change "=" with (String "="%char EmptyString).
  rewrite join_String_split.
  assert (Hor : js_or (Some value) "true" = value) by (by destruct value).
  rewrite Hor, Object_set_insert by done.
  split; [apply lookup_insert_eq |]. split; [| done].
  intros other Hother. by apply lookup_insert_ne.
Qed.

Lemma parseArgs_key_value_witness :
  flags (parseArgs (["Customer"; "--where=Balance > '0'"] ++
                    ["--" +:+ "where" +:+ "=" +:+ "Active = true"]))
    !! "where" = Some "Active = true" /\
  positional (parseArgs (["Customer"; "--where=Balance > '0'"] ++
                         ["--" +:+ "where" +:+ "=" +:+ "Active = true"])) =
    ["Customer"].
Proof.
  destruct (parseArgs_key_value ["Customer"; "--where=Balance > '0'"]
              "where" "Active = true" eq_refl) as (Hvalue & _ & Hpos).
  - discriminate.
  - discriminate.
  - split; [exact Hvalue |]. rewrite Hpos. reflexivity.
Defined.

(** X10. Every query flag given on the command line reaches the options of
    the query: the start, the end, the field and the condition are the values
    of [--start], [--end], [--query-by] and [--where], and [maxResults] is
    what [parseInt] makes of the value of [--max], whatever it is; an option
    is left out only when its flag is. *)
Theorem options_of_parsed_flags (args : list string) :
  let given := flags (parseArgs args) in
  options_of_flags given =
    {| start := given !! "start";
       end_ := given !! "end";
       queryBy := given !! "query-by";
       where_ := given !! "where";
       maxResults := parseInt <$> given !! "max" |}.
Proof.
  intros given.
  destruct (parseArgs_fold args {| flags := ∅; positional := [] |}) as [_ Hvals].
  { intros key value. cbn. by rewrite lookup_empty. }
  fold (parseArgs args) in Hvals. fold given in Hvals.
  assert (Hkeep : forall key, (if truthy (given !! key) then given !! key else None) =
                              given !! key).
  { intros key. destruct (given !! key) as [value |] eqn:Hkey; [| done].
    specialize (Hvals key value Hkey). by destruct value. }
  unfold options_of_flags. rewrite !Hkeep. f_equal.
  destruct (given !! "max") as [value |] eqn:Hmax; [| done].
  specialize (Hvals "max" value Hmax). by destruct value.
Qed.

(** ** The ignore file *)

Lemma prefix_append (p rest : string) : String.prefix p (p +:+ rest) = true.
Proof.
  induction p as [| c p IH]; [by destruct rest |].
  rewrite append_cons. cbn. by destruct (ascii_dec c c).
Qed.

Lemma includes_append (p before after : string) :
  includes p (before +:+ p +:+ after) = true.
Proof.
  induction before as [| c before IH].
  - change (EmptyString +:+ p +:+ after) with (p +:+ after).
    destruct (p +:+ after) eqn:Heq; cbn [includes]; rewrite <- Heq;
      by rewrite prefix_append.
  - rewrite append_cons. cbn [includes]. rewrite IH. apply orb_true_r.
Qed.

(** X11. When [ensureGitignore] returns, the ignore file holds the pattern of
    the credential files.  What the file held before is still there, at the
    front and unchanged; a file that already had the pattern is not written
    at all.  Running it again changes nothing and reports nothing. *)
Theorem ensureGitignore_adds_the_pattern_once (r r' : Repo) (u : unit) :
  ensureGitignore r = (Return u, r') ->
  exists content',
    gitignore r' = TextContent content' /\
    includes ".claude/*.local.*" content' = true /\
    (forall content,
        gitignore r = TextContent content ->
        (exists added, content' = content +:+ added) /\
        (includes ".claude/*.local.*" content = true -> r' = r)) /\
    ensureGitignore r' = (Return tt, r').
Proof.
  unfold ensureGitignore, write_gitignore, gitignore_pattern.
  destruct (gitignore r) as [e | content] eqn:Hfile.
  - destruct (is_ENOENT e); [| done].
    destruct (gitignore_write_error r); [done |].
    intros [= _ <-]. cbn [gitignore].
    assert (Hin : includes ".claude/*.local.*"
                    (gitignore_comment +:+ nl +:+ ".claude/*.local.*" +:+ nl) = true)
      by (rewrite <- append_assoc; apply includes_append).
    eexists. split; [reflexivity |]. split; [exact Hin |]. split; [done |].
    by rewrite Hin.
  - destruct (includes ".claude/*.local.*" content) eqn:Hhas.
    + intros [= _ <-]. rewrite Hfile. exists content.
      split; [done |]. split; [done |]. split.
      * intros ? [= <-]. split; [| done]. exists EmptyString.
        clear. induction content as [| c content IH]; [done |].
        rewrite append_cons. by rewrite <- IH.
      * by rewrite Hhas.
    + destruct (gitignore_write_error r) eqn:Hwrite.
      { destruct (is_ENOENT e); [by rewrite Hwrite | done]. }
      intros [= _ <-]. cbn [gitignore].
      set (added := if endsWith nl content
                    then nl +:+ gitignore_comment +:+ nl +:+ ".claude/*.local.*" +:+ nl
                    else nl +:+ nl +:+ gitignore_comment +:+ nl +:+
                         ".claude/*.local.*" +:+ nl).
      assert (Hnew : (if endsWith nl content
                      then content +:+ nl +:+ gitignore_comment +:+ nl +:+
                           ".claude/*.local.*" +:+ nl
                      else content +:+ nl +:+ nl +:+ gitignore_comment +:+ nl +:+
                           ".claude/*.local.*" +:+ nl) = content +:+ added)
        by (subst added; by destruct (endsWith nl content)).
      rewrite Hnew.
      assert (Hin : includes ".claude/*.local.*" (content +:+ added) = true).
      { subst added. destruct (endsWith nl content).
        - rewrite <- (append_assoc content), <- (append_assoc (content +:+ nl)),
            <- (append_assoc ((content +:+ nl) +:+ gitignore_comment)).
          apply includes_append.
        - rewrite <- (append_assoc content), <- (append_assoc (content +:+ nl)),
            <- (append_assoc ((content +:+ nl) +:+ nl)),
            <- (append_assoc (((content +:+ nl) +:+ nl) +:+ gitignore_comment)).
          apply includes_append. }
      eexists. split; [reflexivity |]. split; [exact Hin |]. split.
      * intros ? [= <-]. split; [by exists added |]. by rewrite Hhas.
      * by rewrite Hin.
Qed.

Lemma ensureGitignore_adds_the_pattern_once_witness :
  exists r',
    ensureGitignore (sample_repo "node_modules/") = (Return tt, r') /\
    gitignore r' =
      TextContent ("node_modules/" +:+ nl +:+ nl +:+
                   "# QuickBooks skill tokens (per-project auth)" +:+ nl +:+
                   ".claude/*.local.*" +:+ nl) /\
    stderr r' = ["Added .claude/*.local.* to .gitignore"] /\
    ensureGitignore r' = (Return tt, r').
Proof.
  destruct (ensureGitignore (sample_repo "node_modules/")) as [o r'] eqn:Hrun.
  assert (Ho : o = Return tt /\
               gitignore r' =
                 TextContent ("node_modules/" +:+ nl +:+ nl +:+
                              "# QuickBooks skill tokens (per-project auth)" +:+ nl +:+
                              ".claude/*.local.*" +:+ nl) /\
               stderr r' = ["Added .claude/*.local.* to .gitignore"]).
  { revert Hrun. vm_compute. by intros [= <- <-]. }
  destruct Ho as (-> & Hfile & Herr).
  destruct (ensureGitignore_adds_the_pattern_once _ _ _ Hrun)
    as (content' & _ & _ & _ & Hagain).
  exists r'. split; [reflexivity |]. split; [exact Hfile |].
  split; [exact Herr | exact Hagain].
Defined.

Lemma ensureGitignore_no_OutOfFuel (r : Repo) : (ensureGitignore r).1 <> OutOfFuel.
Proof.
  unfold ensureGitignore, write_gitignore, gitignore_pattern.
  destruct (gitignore r) as [err | content].
  - destruct (is_ENOENT err); [| done]. by destruct (gitignore_write_error r).
  - destruct (includes ".claude/*.local.*" content); [done |].
    destruct (gitignore_write_error r) as [e' |] eqn:Hwrite; [| done].
    destruct (is_ENOENT e'); by rewrite ?Hwrite.
Qed.

(** X12. [ensureGitignore] fails only with the error of reading the ignore
    file, when that is not the error of a missing file, or with the error of
    writing it; and when it fails it has changed nothing and reported
    nothing.  A missing ignore file is no failure: it is created with the
    comment line and the pattern. *)
Theorem ensureGitignore_fails_cleanly (r : Repo) :
  (forall e r', ensureGitignore r = (Throw e, r') ->
     r' = r /\
     ((gitignore r = TextError e /\ is_ENOENT e = false) \/
      gitignore_write_error r = Some e)) /\
  (ensureGitignore r).1 <> OutOfFuel /\
  (forall e, gitignore r = TextError e -> is_ENOENT e = true ->
             gitignore_write_error r = None ->
             ensureGitignore r =
               (Return tt,
                {| gitignore :=
                     TextContent ("# QuickBooks skill tokens (per-project auth)" +:+ nl +:+
                                  ".claude/*.local.*" +:+ nl);
                   gitignore_write_error := None;
                   stderr := stderr r ++ ["Created .gitignore with .claude/*.local.*"] |})).
Proof.
  unfold ensureGitignore, write_gitignore, gitignore_pattern.
  split; [| split].
  - intros e r'. destruct (gitignore r) as [err | content] eqn:Hfile.
    + destruct (is_ENOENT err) eqn:Hmissing.
      * destruct (gitignore_write_error r) eqn:Hwrite; [| done].
        intros [= <- <-]. split; [done | by right].
      * intros [= <- <-]. split; [done | by left].
    + destruct (includes ".claude/*.local.*" content); [done |].
      destruct (gitignore_write_error r) as [e' |] eqn:Hwrite; [| done].
      destruct (is_ENOENT e'); rewrite ?Hwrite; intros [= <- <-];
        (split; [done | by right]).
  - apply (ensureGitignore_no_OutOfFuel r).
  - intros e -> -> ->. reflexivity.
Qed.

Lemma ensureGitignore_fails_cleanly_witness :
  (ensureGitignore (readonly_repo "node_modules/")).1 =
    Throw {| code := Some "EACCES"; message := "permission denied" |} /\
  (ensureGitignore (readonly_repo "node_modules/")).2 = readonly_repo "node_modules/".
Proof.
  split; [reflexivity |].
  destruct (ensureGitignore_fails_cleanly (readonly_repo "node_modules/"))
    as (Hthrow & _ & _).
  by destruct (Hthrow {| code := Some "EACCES"; message := "permission denied" |}
                 (ensureGitignore (readonly_repo "node_modules/")).2 eq_refl).
Defined.

(** ** The command dispatcher *)

Lemma await_one_result {A} (m : IO A) (next : A -> Process -> Termination * Process)
    (p : Process) :
  (forall a p0, stdout p0 = stdout p -> one_result (stdout p) (next a p0)) ->
  one_result (stdout p) (await m next p).
Proof.
  intros Hnext. unfold await.
  destruct (m (world p)) as [[a | e |] w].
  - by apply Hnext.
  - right. eexists. split; [reflexivity |]. left. split; [done | by eexists].
  - by left.
Qed.

Lemma await_still_running {A} (m : IO A) (next : A -> Process -> Termination * Process)
    (p : Process) :
  (forall w, (m w).1 <> OutOfFuel) ->
  (forall a p0, (next a p0).1 <> StillRunning) ->
  (await m next p).1 <> StillRunning.
Proof.
  intros Hm Hnext. unfold await. specialize (Hm (world p)).
  destruct (m (world p)) as [[a | e |] w]; [apply Hnext | done | done].
Qed.

Lemma checkConnection_no_OutOfFuel (w : World) : (checkConnection w).1 <> OutOfFuel.
Proof.
  pose proof (getValidAccessToken_no_OutOfFuel w) as Hno.
  unfold checkConnection, try_catch, bind.
  destruct (getValidAccessToken w) as [[t | e |] w1]; [| done | done].
  unfold fetch. destruct (net w1 (length (sent w1))) as [e | response]; [done |].
  destruct (ok response); cbn [negb]; [| done].
  unfold response_json. by destruct (json response).
Qed.

Lemma getById_no_OutOfFuel (entity id : string) (w : World) :
  (getById entity id w).1 <> OutOfFuel.
Proof.
  pose proof (getValidAccessToken_no_OutOfFuel w) as Hno.
  destruct (getValidAccessToken w) as [[t | e |] w1] eqn:Htoken; [| | done].
  - rewrite (getById_after_token entity id w w1 t Htoken). cbv zeta.
    destruct (net w1 (length (sent w1))) as [e | response]; [done |].
    destruct (ok response); [| done]. by destruct (json response).
  - unfold getById, bind. by rewrite Htoken.
Qed.

(** X13. Whatever the command, the flags, the files and the remote, a run of
    the tool that ends has written exactly one thing on its standard output,
    and its exit status tells which: it ends normally after a success
    envelope (or the setup instructions), exits with status 1 after a failure
    envelope, and exits with status 0 after the usage text.  No error
    escapes [main].  Only the paginated commands, the entity queries and
    [refs], can still be running when the fuel is used up. *)
Theorem main_prints_exactly_one_result (fuel : nat) (args : list string) (p : Process) :
  one_result (stdout p) (main fuel args p) /\
  ((main fuel args p).1 = StillRunning ->
   let command := String_of (toLowerCase <$> head args) in
   Array_includes entity_cases command = true \/ command = "refs").
Proof.
  unfold main.
  set (command := toLowerCase <$> head args).
  set (parsed := parseArgs (tail args)).
  destruct (negb (truthy command) || String.eqb (String_of command) "help"
            || String.eqb (String_of command) "--help").
  { split; [| done]. right. eexists. split; [reflexivity |]. right. by split. }
  destruct (String.eqb (String_of command) "setup").
  { split; [| done]. right. eexists. split; [reflexivity |]. by right. }
  destruct (String.eqb (String_of command) "check").
  { split.
    - apply await_one_result. intros result p0 Hout.
      destruct (connected result).
      + right. eexists. split; [cbn; by rewrite Hout |]. by left.
      + right. eexists. split; [cbn; by rewrite Hout |].
        left. split; [done | by eexists].
    - intros Hrun. exfalso. revert Hrun. apply await_still_running.
      + apply checkConnection_no_OutOfFuel.
      + intros result p0. by destruct (connected result). }
  destruct (String.eqb (String_of command) "refresh").
  { pose proof (ensureGitignore_no_OutOfFuel (repo p)) as Hgit.
    destruct (ensureGitignore (repo p)) as [[u | e |] r]; [| | done].
    - split.
      + apply (await_one_result _ _ (with_repo r p)). intros credentials p0 Hout.
        right. eexists. split; [cbn; by rewrite Hout |]. by left.
      + intros Hrun. exfalso. revert Hrun. apply await_still_running; [| done].
        apply refreshAccessToken_no_OutOfFuel.
    - split; [| done]. right. eexists. split; [reflexivity |].
      left. split; [done | by eexists]. }
  destruct (Array_includes entity_cases (String_of command)) eqn:Hentity.
  { split; [| intros _; by left].
    apply await_one_result. intros envelope p0 Hout.
    right. eexists. split; [cbn; by rewrite Hout |]. by left. }
  destruct (String.eqb (String_of command) "get").
  { destruct (negb (truthy (positional parsed !! 0%nat))
              || negb (truthy (positional parsed !! 1%nat))).
    - split; [| done]. right. eexists. split; [reflexivity |].
      left. split; [done | by eexists].
    - split.
      + apply await_one_result. intros result p0 Hout.
        right. eexists. split; [cbn; by rewrite Hout |]. by left.
      + intros Hrun. exfalso. revert Hrun. apply await_still_running; [| done].
        apply getById_no_OutOfFuel. }
  destruct (String.eqb_spec (String_of command) "refs") as [Hrefs | _].
  { destruct (if truthy (positional parsed !! 0%nat)
              then RefEntity_of_name (String_of (positional parsed !! 0%nat))
              else None) as [entity |].
    - split; [| intros _; by right].
      apply await_one_result. intros refMap p0 Hout.
      right. eexists. split; [cbn; by rewrite Hout |]. by left.
    - split; [| done]. right. eexists. split; [reflexivity |].
      left. split; [done | by eexists]. }
  split; [| done]. right. eexists. split; [reflexivity |].
  left. split; [done | by eexists].
Qed.

Lemma property_In (table : list (string * string)) (key value : string) :
  property table key = Some value -> In key (map fst table).
Proof.
  induction table as [| [k v] table IH]; [done |].
  cbn. destruct (String.eqb_spec k key) as [-> | _]; [by left |].
  intros Hrest. right. by apply IH.
Qed.

(** The case labels are the keys of [ENTITY_COMMANDS], and none of them is
    one of the other commands. *)
Lemma entity_command_tests (command entity : string) :
  property ENTITY_COMMANDS command = Some entity ->
  truthy (Some command) = true /\
  String.eqb command "help" = false /\ String.eqb command "--help" = false /\
  String.eqb command "setup" = false /\ String.eqb command "check" = false /\
  String.eqb command "refresh" = false /\
  Array_includes entity_cases command = true.
Proof.
  intros Hentity. apply property_In in Hentity. cbn in Hentity.
  repeat (destruct Hentity as [<- | Hentity]; [by vm_compute |]).
  done.
Qed.

Lemma main_entity_command (fuel : nat) (c : string) (rest : list string)
    (p : Process) (entity : string) :
  property ENTITY_COMMANDS (toLowerCase c) = Some entity ->
  main fuel (c :: rest) p =
    await (handleEntityQuery fuel entity (flags (parseArgs rest)))
      (fun envelope p => (Ends, output (QueryResults envelope) p)) p.
Proof.
  intros Hentity.
  destruct (entity_command_tests _ _ Hentity)
    as (Htruthy & Hhelp & Hhelp' & Hsetup & Hcheck & Hrefresh & Hcase).
  unfold main. cbn [head tail fmap option_fmap option_map String_of].
  rewrite Htruthy, Hhelp, Hhelp', Hsetup, Hcheck, Hrefresh, Hcase. cbn [negb orb].
  by rewrite Hentity.
Qed.

Lemma main_get_command (fuel : nat) (c : string) (rest : list string) (p : Process) :
  toLowerCase c = "get" ->
  main fuel (c :: rest) p =
    let entity := positional (parseArgs rest) !! 0%nat in
    let id := positional (parseArgs rest) !! 1%nat in
    if negb (truthy entity) || negb (truthy id) then
      fail ("Usage: get <Entity> <ID>" +:+ nl +:+ "Example: get Customer 123") p
    else
      await (getById (String_of entity) (String_of id))
        (fun result p =>
           (Ends, output (RecordOutput (String_of entity) (String_of id) result) p))
        p.
Proof.
  intros Hget. unfold main. cbn [head tail fmap option_fmap option_map String_of].
  by rewrite Hget.
Qed.

Lemma main_refs_command (fuel : nat) (c : string) (rest : list string) (p : Process) :
  toLowerCase c = "refs" ->
  main fuel (c :: rest) p =
    let entityType := positional (parseArgs rest) !! 0%nat in
    match (if truthy entityType then RefEntity_of_name (String_of entityType)
           else None) with
    | None =>
        fail ("Usage: refs <Entity>" +:+ nl +:+ "Supported: Account, Customer, Vendor") p
    | Some entity =>
        await (getReferenceMaps fuel entity)
          (fun refMap p =>
             (Ends, output (RefsOutput (RefEntity_name entity) (size refMap) refMap) p))
          p
    end.
Proof.
  intros Hrefs. unfold main. cbn [head tail fmap option_fmap option_map String_of].
  by rewrite Hrefs.
Qed.

(** X14. An error in a command becomes the failure envelope and exit status
    1, and nothing else is printed: not the records of the pages fetched
    before a query failed, not the entries of a reference map.  This holds
    for the entity queries, for [get] and for [refs], whatever the error: a
    rejected request at any page, a missing credential file, a failed
    refresh. *)
Theorem main_turns_errors_into_the_failure_envelope :
  (forall fuel c rest p entity e w',
      property ENTITY_COMMANDS (toLowerCase c) = Some entity ->
      query fuel entity (options_of_flags (flags (parseArgs rest))) (world p) =
        (Throw e, w') ->
      main fuel (c :: rest) p =
        (Exits 1, output (FailureEnvelope (message e)) (with_world w' p))) /\
  (forall fuel c rest p entity id e w',
      toLowerCase c = "get" ->
      positional (parseArgs rest) !! 0%nat = Some entity -> entity <> EmptyString ->
      positional (parseArgs rest) !! 1%nat = Some id -> id <> EmptyString ->
      getById entity id (world p) = (Throw e, w') ->
      main fuel (c :: rest) p =
        (Exits 1, output (FailureEnvelope (message e)) (with_world w' p))) /\
  (forall fuel c rest p name entity e w',
      toLowerCase c = "refs" ->
      positional (parseArgs rest) !! 0%nat = Some name ->
      RefEntity_of_name name = Some entity ->
      getReferenceMaps fuel entity (world p) = (Throw e, w') ->
      main fuel (c :: rest) p =
        (Exits 1, output (FailureEnvelope (message e)) (with_world w' p))) /\
  (main 5 ["invoices"] (sample_process failing_second_page_world (sample_repo EmptyString))).1
    = Exits 1 /\
  stdout (main 5 ["invoices"]
            (sample_process failing_second_page_world (sample_repo EmptyString))).2 =
    [FailureEnvelope ("QuickBooks API error: 401 Unauthorized" +:+ nl +:+
                      "AuthenticationFailed")] /\
  length (sent (world (main 5 ["invoices"]
                         (sample_process failing_second_page_world
                            (sample_repo EmptyString))).2)) = 2%nat.
Proof.
  split; [| split; [| split; [| split; [by vm_compute | split; by vm_compute]]]].
  - intros fuel c rest p entity e w' Hentity Hquery.
    rewrite (main_entity_command fuel c rest p entity Hentity).
    unfold await, handleEntityQuery, bind. by rewrite Hquery.
  - intros fuel c rest p entity id e w' Hget Hentity Hne Hid Hne' Hrun.
    rewrite (main_get_command fuel c rest p Hget). cbv zeta.
    rewrite Hentity, Hid. destruct entity; [done |]. destruct id; [done |].
    cbn [truthy truthy_option truthy_string negb orb String_of].
    unfold await. by rewrite Hrun.
  - intros fuel c rest p name entity e w' Hrefs Hname Hentity Hrun.
    rewrite (main_refs_command fuel c rest p Hrefs). cbv zeta.
    rewrite Hname. cbn [String_of].
    assert (Htruthy : truthy (Some name) = true)
      by (destruct name; [by vm_compute in Hentity | done]).
    rewrite Htruthy, Hentity. unfold await. by rewrite Hrun.
Qed.

(** X15. A command line that cannot be carried out is turned down before
    anything is done: no credential file is read, no request is sent, no file
    is written.  No command at all, [help] or [--help] prints the usage text
    and exits with status 0.  An unknown command, [get] without both an entity
    and an ID, and [refs] without one of the three entity types it supports
    each print their failure envelope and exit with status 1. *)
Theorem main_turns_down_bad_command_lines (fuel : nat) (p : Process) :
  main fuel [] p = (Exits 0, output UsageText p) /\
  (forall c rest,
      toLowerCase c = EmptyString \/ toLowerCase c = "help" \/ toLowerCase c = "--help" ->
      main fuel (c :: rest) p = (Exits 0, output UsageText p)) /\
  (forall c rest,
      toLowerCase c <> EmptyString ->
      ~ In (toLowerCase c) ["help"; "--help"; "setup"; "check"; "refresh"; "get"; "refs"] ->
      ~ In (toLowerCase c) entity_cases ->
      main fuel (c :: rest) p =
        (Exits 1,
         output (FailureEnvelope ("Unknown command: " +:+ toLowerCase c +:+ nl +:+
                                  "Run with --help for usage.")) p)) /\
  (forall c rest,
      toLowerCase c = "get" ->
      (length (positional (parseArgs rest)) < 2)%nat \/
      positional (parseArgs rest) !! 0%nat = Some EmptyString \/
      positional (parseArgs rest) !! 1%nat = Some EmptyString ->
      main fuel (c :: rest) p =
        (Exits 1,
         output (FailureEnvelope ("Usage: get <Entity> <ID>" +:+ nl +:+
                                  "Example: get Customer 123")) p)) /\
  (forall c rest,
      toLowerCase c = "refs" ->
      (forall name, positional (parseArgs rest) !! 0%nat = Some name ->
                    ~ In name ["Account"; "Customer"; "Vendor"]) ->
      main fuel (c :: rest) p =
        (Exits 1,
         output (FailureEnvelope ("Usage: refs <Entity>" +:+ nl +:+
                                  "Supported: Account, Customer, Vendor")) p)).
Proof.
  split; [reflexivity |]. split; [| split; [| split]].
  - intros c rest Hc. unfold main.
    cbn [head tail fmap option_fmap option_map String_of].
    by destruct Hc as [-> | [-> | ->]].
  - intros c rest Hcommand Hknown Hentity. unfold main.
    cbn [head tail fmap option_fmap option_map String_of].
    set (command := toLowerCase c) in *.
    assert (Htruthy : truthy (Some command) = true) by (by destruct command).
    assert (Hne : forall name,
               In name ["help"; "--help"; "setup"; "check"; "refresh"; "get"; "refs"] ->
               String.eqb command name = false).
    { intros name Hin. apply String.eqb_neq. intros ->. by apply Hknown. }
    assert (Hcase : Array_includes entity_cases command = false).
    { destruct (Array_includes entity_cases command) eqn:Hcase; [| done].
      apply Array_includes_In in Hcase. by apply Hentity in Hcase. }
    rewrite Htruthy, Hcase, !Hne by (cbn; tauto). done.
  - intros c rest Hget Hmissing.
    rewrite (main_get_command fuel c rest p Hget). cbv zeta.
    destruct (positional (parseArgs rest)) as [| entity [| id more]] eqn:Hpos.
    + done.
    + cbn. by destruct (truthy entity).
    + destruct Hmissing as [Hshort | [Hentity | Hid]].
      * cbn in Hshort. lia.
      * injection Hentity as ->. done.
      * injection Hid as ->. cbn. by destruct (truthy entity).
  - intros c rest Hrefs Hunsupported.
    rewrite (main_refs_command fuel c rest p Hrefs). cbv zeta.
    destruct (positional (parseArgs rest) !! 0%nat) as [name |] eqn:Hname; [| done].
    specialize (Hunsupported name eq_refl).
    destruct (truthy (Some name)); [| done].
    unfold RefEntity_of_name. cbn [String_of].
    destruct (String.eqb_spec name "Account") as [-> | _];
      [exfalso; apply Hunsupported; cbn; tauto |].
    destruct (String.eqb_spec name "Customer") as [-> | _];
      [exfalso; apply Hunsupported; cbn; tauto |].
    destruct (String.eqb_spec name "Vendor") as [-> | _];
      [exfalso; apply Hunsupported; cbn; tauto |].
    done.
Qed.

Lemma main_turns_down_bad_command_lines_witness :
  main 0 ["Frobnicate"; "--max=3"]
    (sample_process fresh_checkout_world (sample_repo EmptyString)) =
    (Exits 1,
     {| world := fresh_checkout_world;
        repo := sample_repo EmptyString;
        stdout := [FailureEnvelope ("Unknown command: frobnicate" +:+ nl +:+
                                    "Run with --help for usage.")] |}).
Proof.
  destruct (main_turns_down_bad_command_lines 0
              (sample_process fresh_checkout_world (sample_repo EmptyString)))
    as (_ & _ & Hunknown & _).
  rewrite (Hunknown "Frobnicate" ["--max=3"]).
  - reflexivity.
  - discriminate.
  - cbn [In]. intros Hin. repeat destruct Hin as [Hin | Hin]; try discriminate Hin.
    exact Hin.
  - unfold entity_cases. cbn [In]. intros Hin.
    repeat destruct Hin as [Hin | Hin]; try discriminate Hin. exact Hin.
Defined.

Lemma toLowerCase_char_idempotent (c : ascii) :
  toLowerCase_char (toLowerCase_char c) = toLowerCase_char c.
Proof. destruct c as [[] [] [] [] [] [] [] []]; reflexivity. Qed.

Lemma toLowerCase_idempotent (s : string) : toLowerCase (toLowerCase s) = toLowerCase s.
Proof.
  induction s as [| c s IH]; [done |].
  cbn [toLowerCase]. by rewrite toLowerCase_char_idempotent, IH.
Qed.

(** X16. The command is matched without regard to case, and the table of
    entity commands agrees with the dispatcher: a command written in any
    capitalisation runs as its lower-case form; the case labels of the entity
    queries are exactly the keys of [ENTITY_COMMANDS], so the entity of an
    entity query is never undefined; no two commands query the same entity;
    and every transaction entity has its command. *)
Theorem entity_commands_are_consistent :
  (forall fuel c rest p, main fuel (c :: rest) p = main fuel (toLowerCase c :: rest) p) /\
  (forall command, In command entity_cases <->
                   is_Some (property ENTITY_COMMANDS command)) /\
  (forall command, In command entity_cases -> toLowerCase command = command) /\
  (forall command command' entity,
      property ENTITY_COMMANDS command = Some entity ->
      property ENTITY_COMMANDS command' = Some entity -> command = command') /\
  (forall entity, In entity transactionEntities ->
                  exists command, property ENTITY_COMMANDS command = Some entity).
Proof.
  split; [| split; [| split; [| split]]].
  - intros fuel c rest p. unfold main.
    cbn [head tail fmap option_fmap option_map]. by rewrite toLowerCase_idempotent.
  - intros command. split.
    + intros Hin. cbn in Hin.
      repeat (destruct Hin as [<- | Hin]; [by eexists |]). done.
    + intros [entity Hentity]. by apply property_In in Hentity.
  - intros command Hin. cbn in Hin.
    repeat (destruct Hin as [<- | Hin]; [reflexivity |]). done.
  - intros command command' entity Hone Htwo.
    pose proof (property_In _ _ _ Hone) as Hin.
    pose proof (property_In _ _ _ Htwo) as Hin'.
    cbn in Hin, Hin'.
    repeat (destruct Hin as [<- | Hin];
            [vm_compute in Hone; injection Hone as <-;
             repeat (destruct Hin' as [<- | Hin'];
                     [first [reflexivity | by vm_compute in Htwo] |]); done |]).
    done.
  - intros entity Hin. cbn in Hin.
    repeat (destruct Hin as [<- | Hin];
            [first [ by exists "invoices" | by exists "bills" | by exists "purchases"
                   | by exists "deposits" | by exists "payments"
                   | by exists "timeactivities" | by exists "estimates"
                   | by exists "salesreceipts" | by exists "creditmemos"
                   | by exists "journalentries" ] |]).
    done.
Qed.

(** X17. A command that succeeds prints the success envelope of what its
    operation returned and ends normally.  An entity query prints the entity
    of its command, the records and their number; [get] prints the record it
    got, if any: an answer without the record is a success too; [refs]
    prints the map and the number of its entries. *)
Theorem main_prints_what_the_operation_returned :
  (forall fuel c rest p entity results w',
      property ENTITY_COMMANDS (toLowerCase c) = Some entity ->
      query fuel entity (options_of_flags (flags (parseArgs rest))) (world p) =
        (Return results, w') ->
      main fuel (c :: rest) p =
        (Ends,
         output (QueryResults {| success := true;
                                 data_entity_name := entity;
                                 data_count := length results;
                                 data_results := results |})
           (with_world w' p))) /\
  (forall fuel c rest p entity id result w',
      toLowerCase c = "get" ->
      positional (parseArgs rest) !! 0%nat = Some entity -> entity <> EmptyString ->
      positional (parseArgs rest) !! 1%nat = Some id -> id <> EmptyString ->
      getById entity id (world p) = (Return result, w') ->
      main fuel (c :: rest) p =
        (Ends, output (RecordOutput entity id result) (with_world w' p))) /\
  (forall fuel c rest p name entity refMap w',
      toLowerCase c = "refs" ->
      positional (parseArgs rest) !! 0%nat = Some name ->
      RefEntity_of_name name = Some entity ->
      getReferenceMaps fuel entity (world p) = (Return refMap, w') ->
      main fuel (c :: rest) p =
        (Ends, output (RefsOutput name (size refMap) refMap) (with_world w' p))) /\
  stdout (main 1 ["get"; "invoice"; "42"]
            (sample_process (record_world "Invoice" sample_doc)
               (sample_repo EmptyString))).2 =
    [RecordOutput "invoice" "42" None] /\
  stdout (main 1 ["REFS"; "Customer"]
            (sample_process (customers_world sample_refs) (sample_repo EmptyString))).2 =
    [RefsOutput "Customer" 2 {[ "1" := "Acme Ltd"; "4" := "Acme Ltd:Depot" ]}].
Proof.
  split; [| split; [| split; [| split; by vm_compute]]].
  - intros fuel c rest p entity results w' Hentity Hquery.
    rewrite (main_entity_command fuel c rest p entity Hentity).
    unfold await, handleEntityQuery, bind. by rewrite Hquery.
  - intros fuel c rest p entity id result w' Hget Hentity Hne Hid Hne' Hrun.
    rewrite (main_get_command fuel c rest p Hget). cbv zeta.
    rewrite Hentity, Hid. destruct entity; [done |]. destruct id; [done |].
    cbn [truthy truthy_option truthy_string negb orb String_of].
    unfold await. by rewrite Hrun.
  - intros fuel c rest p name entity refMap w' Hrefs Hname Hentity Hrun.
    rewrite (main_refs_command fuel c rest p Hrefs). cbv zeta.
    rewrite Hname. cbn [String_of].
    assert (Htruthy : truthy (Some name) = true)
      by (destruct name; [by vm_compute in Hentity | done]).
    rewrite Htruthy, Hentity. unfold await. rewrite Hrun.
    assert (Hsame : RefEntity_name entity = name).
    { revert Hentity. unfold RefEntity_of_name.
      destruct (String.eqb_spec name "Account") as [-> | _]; [by intros [= <-] |].
      destruct (String.eqb_spec name "Customer") as [-> | _]; [by intros [= <-] |].
      destruct (String.eqb_spec name "Vendor") as [-> | _]; [by intros [= <-] | done]. }
    by rewrite Hsame.
Qed.

Lemma main_refresh_command (fuel : nat) (c : string) (rest : list string) (p : Process) :
  toLowerCase c = "refresh" ->
  main fuel (c :: rest) p =
    match ensureGitignore (repo p) with
    | (Return _, r) =>
        await refreshAccessToken
          (fun credentials p =>
             (Ends, output (RefreshOutput (token_expiry credentials)
                              (getProjectTokenPath (world p))) p))
          (with_repo r p)
    | (Throw err, r) => fail (message err) (with_repo r p)
    | (OutOfFuel, r) => (StillRunning, with_repo r p)
    end.
Proof.
  intros Hrefresh. unfold main. cbn [head tail fmap option_fmap option_map String_of].
  by rewrite Hrefresh.
Qed.

(** X18. The [refresh] command first sees to the ignore file and then always
    asks the token endpoint for a new token, whether or not the stored one
    is still good: exactly one request is sent, the token request for the
    stored record.  When the ignore file cannot be dealt with, the command
    fails before the credential file is read or any request is sent.  When
    the refresh returns, the command prints the new expiry and the path of
    the credential file. *)
Theorem refresh_command_always_refreshes (fuel : nat) (c : string) (rest : list string)
    (p : Process) :
  toLowerCase c = "refresh" ->
  (forall e r, ensureGitignore (repo p) = (Throw e, r) ->
     main fuel (c :: rest) p =
       (Exits 1, output (FailureEnvelope (message e)) (with_repo r p)) /\
     world (main fuel (c :: rest) p).2 = world p) /\
  (forall u r credentials,
      ensureGitignore (repo p) = (Return u, r) ->
      file (world p) = FileData credentials -> required_present credentials = true ->
      sent (world (main fuel (c :: rest) p).2) =
        sent (world p) ++ [token_request credentials] /\
      repo (main fuel (c :: rest) p).2 = r /\
      forall c' w',
        refreshAccessToken (world p) = (Return c', w') ->
        main fuel (c :: rest) p =
          (Ends,
           output (RefreshOutput (token_expiry c') (getProjectTokenPath (world p)))
             (with_world w' (with_repo r p)))).
Proof.
  intros Hrefresh. rewrite (main_refresh_command fuel c rest p Hrefresh). split.
  - intros e r ->. by split.
  - intros u r credentials -> Hfile Hreq.
    pose proof (refreshAccessToken_sent (world p) credentials Hfile Hreq) as Hsent.
    unfold await. cbn [world with_repo].
    destruct (refreshAccessToken (world p)) as [[c' | e |] w'] eqn:Hrun.
    + split; [exact Hsent |]. split; [done |].
      intros c'' w'' [= <- <-]. cbn.
      apply (refreshAccessToken_Return _ _ credentials) in Hrun
        as (_ & _ & _ & _ & _ & _ & _ & _ & _ & ->); done.
    + split; [exact Hsent |]. by split.
    + split; [exact Hsent |]. by split.
Qed.

Lemma refresh_command_always_refreshes_witness :
  sent (world (main 0 ["refresh"]
                 (sample_process
                    (sample_world (FileData sample_credentials) 1700000000000
                       [ok_response (token_json (Some "fresh-token") None None)])
                    (sample_repo EmptyString))).2) =
    [token_request sample_credentials].
Proof.
  destruct (refresh_command_always_refreshes 0 "refresh" []
              (sample_process
                 (sample_world (FileData sample_credentials) 1700000000000
                    [ok_response (token_json (Some "fresh-token") None None)])
                 (sample_repo EmptyString)) eq_refl) as [_ Hruns].
  destruct (ensureGitignore (sample_repo EmptyString)) as [[u | e |] r] eqn:Hgit;
    [| by vm_compute in Hgit | by vm_compute in Hgit].
  destruct (Hruns u r sample_credentials Hgit eq_refl eq_refl) as (Hsent & _).
  exact Hsent.
Defined.

Lemma main_check_command (fuel : nat) (c : string) (rest : list string) (p : Process) :
  toLowerCase c = "check" ->
  main fuel (c :: rest) p =
    await checkConnection
      (fun result p =>
         if connected result then
           (Ends, output (CheckOutput (status_realmId result) (companyInfo result)
                            (getProjectTokenPath (world p))) p)
         else fail (js_or (error result) "Failed to connect to QuickBooks") p)
      p.
Proof.
  intros Hcheck. unfold main. cbn [head tail fmap option_fmap option_map String_of].
  by rewrite Hcheck.
Qed.

(** X19. The [check] command never crashes and never hangs.  When the
    connection check succeeds it prints the realm, the company information
    and the path of the credential file, and ends normally.  Otherwise it
    prints the failure envelope with the description of the failure, or with
    "Failed to connect to QuickBooks" when the description is empty, and
    exits with status 1. *)
Theorem check_command_reports_the_connection (fuel : nat) (c : string)
    (rest : list string) (p : Process) :
  toLowerCase c = "check" ->
  exists result w',
    checkConnection (world p) = (Return result, w') /\
    main fuel (c :: rest) p =
      if connected result then
        (Ends,
         output (CheckOutput (status_realmId result) (companyInfo result)
                   (getProjectTokenPath w'))
           (with_world w' p))
      else
        (Exits 1,
         output (FailureEnvelope
                   match error result with
                   | Some (String a description) => String a description
                   | _ => "Failed to connect to QuickBooks"
                   end)
           (with_world w' p)).
Proof.
  intros Hcheck. rewrite (main_check_command fuel c rest p Hcheck).
  pose proof (checkConnection_no_OutOfFuel (world p)) as Hno.
  assert (Hcatch : forall e w', checkConnection (world p) <> (Throw e, w')).
  { intros e w'. unfold checkConnection, try_catch.
    by destruct (bind _ _ (world p)) as [[result | e' |] w1]. }
  unfold await.
  destruct (checkConnection (world p)) as [[result | e |] w'] eqn:Hrun.
  - exists result, w'. split; [done |].
    destruct (connected result); [done |].
    unfold fail. do 3 f_equal. by destruct (error result) as [[| a description] |].
  - by destruct (Hcatch e w').
  - by destruct Hno.
Qed.

Lemma check_command_reports_the_connection_witness :
  stdout (main 0 ["check"] (sample_process rejecting_world (sample_repo EmptyString))).2 =
    [FailureEnvelope ("API error: 401 Unauthorized" +:+ nl +:+ "AuthenticationFailed")] /\
  (main 0 ["check"] (sample_process rejecting_world (sample_repo EmptyString))).1 =
    Exits 1.
Proof.
  destruct (check_command_reports_the_connection 0 "check" []
              (sample_process rejecting_world (sample_repo EmptyString)) eq_refl)
    as (result & w' & Hrun & Hmain).
  assert (Hresult : result =
                    not_connected ("API error: 401 Unauthorized" +:+ nl +:+
                                   "AuthenticationFailed")).
  { revert Hrun. vm_compute. by intros [= <- _]. }
  rewrite Hmain, Hresult. split; reflexivity.
Defined.

Lemma parseArgs_step_key_value (parsed : ParsedArgs) (key value : string) :
  includes "=" key = false -> key <> "__proto__" -> value <> EmptyString ->
  parseArgs_step parsed ("--" +:+ key +:+ "=" +:+ value) =
    {| flags := <[key := value]> (flags parsed); positional := positional parsed |}.
Proof.
  intros Hkey Hplain Hvalue. unfold parseArgs_step. rewrite startsWith_dashes.
  change (String_slice 2 ("--" +:+ key +:+ "=" +:+ value))
    with (key +:+ String "="%char value).
  destruct (String_split_key_value "="%char key value Hkey) as [_ ->].
  cbn [head tail String_of].
  change "=" with (String "="%char EmptyString).
  rewrite join_String_split, Object_set_insert by done.
  by destruct value.
Qed.

(** X20. From the command line to the query text: with [--start] and [--end]
    given as bare dates and no other flag, the condition of the query selects
    the records last updated from the first second of the start day to the
    last second of the end day, both in UTC. *)
Theorem command_line_dates_cover_whole_days (first_day last_day : string) :
  first_day <> EmptyString -> last_day <> EmptyString ->
  includes "T" first_day = false -> includes "T" last_day = false ->
  whereClause
    (options_of_flags
       (flags (parseArgs ["--start=" +:+ first_day; "--end=" +:+ last_day]))) =
    "WHERE MetaData.LastUpdatedTime >= '" +:+ first_day +:+ "T00:00:00Z'" +:+
    " AND MetaData.LastUpdatedTime <= '" +:+ last_day +:+ "T23:59:59Z'".
Proof.
  intros Hfirst Hlast HfirstT HlastT.
  unfold parseArgs. cbn [fold_left].
  change ("--start=" +:+ first_day) with ("--" +:+ "start" +:+ "=" +:+ first_day).
  change ("--end=" +:+ last_day) with ("--" +:+ "end" +:+ "=" +:+ last_day).
  rewrite !parseArgs_step_key_value by done. cbn [flags positional].
  set (given := <["end" := last_day]> (<["start" := first_day]> ∅) : gmap string string).
  assert (Hstart : given !! "start" = Some first_day).
  { unfold given. rewrite lookup_insert_ne by done. apply lookup_insert_eq. }
  assert (Hend : given !! "end" = Some last_day).
  { unfold given. apply lookup_insert_eq. }
  assert (Hother : forall other, other <> "start" -> other <> "end" ->
                                 given !! other = None).
  { intros other H1 H2. unfold given. by rewrite !lookup_insert_ne by done. }
  unfold whereClause, conditions, options_of_flags.
  cbn [start end_ queryBy where_ maxResults].
  rewrite Hstart, Hend, !Hother by done.
  assert (Htruthy : forall s : string, s <> EmptyString -> truthy (Some s) = true).
  { intros s Hs. by destruct s. }
  rewrite !Htruthy by done.
  cbn [truthy String_of default app length Nat.ltb Nat.leb].
  unfold formatDateForQuery. rewrite HfirstT, HlastT.
  unfold join. cbn. rewrite !append_assoc. reflexivity.
Qed.

Lemma command_line_dates_cover_whole_days_witness :
  whereClause
    (options_of_flags
       (flags (parseArgs ["--start=" +:+ "2024-01-01"; "--end=" +:+ "2024-01-31"]))) =
    "WHERE MetaData.LastUpdatedTime >= '2024-01-01T00:00:00Z'" +:+
    " AND MetaData.LastUpdatedTime <= '2024-01-31T23:59:59Z'".
Proof.
  apply (command_line_dates_cover_whole_days "2024-01-01" "2024-01-31");
    [discriminate | discriminate | reflexivity | reflexivity].
Defined.
